(** * hive-mind: the Claude execution module

    A shallow embedding of [executeClaudeCommand], the function that runs
    the [claude] child process, folds its line-delimited JSON output into
    the session state and classifies the exit.  The repository carries the
    function twice:

    - [src/solve.claude-execution.lib.mjs] starts the child with
      [spawn('sh', ['-c', shellCommand])] and listens to its events
      (module [Spawn] below);
    - a second copy drives the child through the command-stream [$]
      primitive and writes the two prompts to files (module
      [CommandStream] below).

    The per-line processing is textually the same in both and is embedded
    once.

    Beside it the file embeds [execCommand] and
    [checkForUncommittedChanges], with which both copies end (module
    [Git]), and the functions of [youtrack.lib.mjs] that read issue ids
    and project mappings and talk to the YouTrack API (modules
    [YouTrack], [ProjectMap], [Api] and [IssueApi]).
    [fetchYouTrackIssues] and the script [test-command-stream.mjs] are
    not embedded.

    Conventions of the embedding.
    - A JavaScript string is a [string]: a sequence of code units below
      256.
    - A value produced by [JSON.parse] is a [json]; [undefined] is the
      [None] of [option json].
    - [JSON.parse], [JSON.stringify], [path.join] and the coercing
      comparison [<] are built-ins of the runtime: the definitions take
      them from the class [Runtime], and the theorems hold for every
      runtime.  [RefRuntime] is an executable instance used to run the
      scenarios.
    - The caller-supplied [log] is a sink: a call appends one [LogMsg] to
      the trace when it is made, and the [await] on it returns later;
      [getResourceSnapshot], [use] and [fs.promises.writeFile] return;
      none of the collaborators throws.  What [console.error] prints is
      not part of the trace.
    - The listeners of the spawn variant are async functions that nobody
      awaits.  A listener runs to its next [await] and stops there; the
      other listeners, the events of the child and the call itself have
      their turns in between, and find the variables as they are then.
      The list of events of a child tells whose turn it is ([Async] and
      [Spawn.step] below).  The command-stream copy awaits in sequence
      inside one function; it is embedded with [Step], where an [await]
      returns before anything else runs.
    - [new URL], [Object.keys] and the [cleanErrorMessage] of [./lib.mjs]
      are taken from the class [Api.Platform], [fetch] and [spawn] are
      given by what they answer; the theorems hold for every one of
      them. *)

From Stdlib Require Import String Ascii List ZArith Bool Arith Lia RelationClasses.
Import ListNotations.

Local Open Scope list_scope.
Local Open Scope string_scope.
Set Warnings "-register-all".

(** ** JavaScript strings *)

Module JsString.

Definition nl : ascii := "010"%char.
Definition dquote : ascii := "034"%char.

Definition str (c : ascii) : string := String c EmptyString.

(** White space of [String.prototype.trim] among the code units below 256:
    TAB, LF, VT, FF, CR, SPACE and NBSP. *)
Definition is_space (c : ascii) : bool :=
  let n := nat_of_ascii c in
  ((9 <=? n)%nat && (n <=? 13)%nat) || (n =? 32)%nat || (n =? 160)%nat.

(** [s.trim()] is truthy: some code unit of [s] is not white space. *)
Fixpoint trim_nonempty (s : string) : bool :=
  match s with
  | EmptyString => false
  | String c r => if is_space c then trim_nonempty r else true
  end.

Fixpoint starts_with (needle s : string) : bool :=
  match needle, s with
  | EmptyString, _ => true
  | String _ _, EmptyString => false
  | String a n, String b r => Ascii.eqb a b && starts_with n r
  end.

(** [s.includes(needle)] *)
Fixpoint includes (needle s : string) : bool :=
  starts_with needle s ||
  match s with
  | EmptyString => false
  | String _ r => includes needle r
  end.

(** [s.split('\n')]: never empty, one more element than there are line
    feeds. *)
Fixpoint split_nl (s : string) : list string :=
  match s with
  | EmptyString => [EmptyString]
  | String c r =>
      if Ascii.eqb c nl then EmptyString :: split_nl r
      else match split_nl r with
           | h :: t => String c h :: t
           | [] => [str c]
           end
  end.

(** [s.replace(/\n/g, by)] *)
Fixpoint replace_nl (by_ s : string) : string :=
  match s with
  | EmptyString => EmptyString
  | String c r =>
      if Ascii.eqb c nl then by_ ++ replace_nl by_ r
      else String c (replace_nl by_ r)
  end.

(** Concatenation of a list of strings, [chunks.join('')]. *)
Definition concat_all (l : list string) : string :=
  fold_right append EmptyString l.

(** [a.pop()] on a copy: the last element and the elements before it. *)
Definition last_or_empty (l : list string) : string := last l EmptyString.

End JsString.
Import JsString.

(** ** JavaScript values *)

(** A number is kept as the decimal [mantissa * 10 ^ exponent] it was
    written as. *)
Inductive json : Type :=
| JNull
| JBool (b : bool)
| JNum (mantissa exponent : Z)
| JStr (s : string)
| JArr (items : list json)
| JObj (fields : list (string * json)).

(** Truthiness, as [if (v)] and [||] test it. *)
Definition truthy (v : json) : bool :=
  match v with
  | JNull => false
  | JBool b => b
  | JNum m _ => negb (m =? 0)%Z
  | JStr s => negb (String.eqb s EmptyString)
  | JArr _ => true
  | JObj _ => true
  end.

Definition truthy_opt (v : option json) : bool :=
  match v with
  | Some w => truthy w
  | None => false
  end.

(** Own property of an object built by [JSON.parse]: of a repeated key the
    last occurrence counts. *)
Fixpoint obj_get (k : string) (fields : list (string * json)) : option json :=
  match fields with
  | [] => None
  | (k', v) :: rest =>
      match obj_get k rest with
      | Some w => Some w
      | None => if String.eqb k k' then Some v else None
      end
  end.

(** [v === 'lit'] *)
Definition is_str (lit : string) (v : option json) : bool :=
  match v with
  | Some (JStr s) => String.eqb s lit
  | _ => false
  end.

(** Errors a handler can throw. *)
Inductive JsError : Type :=
| SyntaxError
| TypeError
| Error (message : string).

(** The built-ins the module relies on. *)
Class Runtime : Type := {
  (** [JSON.parse(text)]; [None] when it throws a SyntaxError *)
  JSON_parse : string -> option json;
  (** [JSON.stringify(value)] of a parsed value *)
  JSON_stringify : json -> string;
  (** [v < n] with the coercions of the abstract relational comparison *)
  js_less_than : json -> Z -> bool;
  (** [path.join(dir, name)] *)
  path_join : string -> string -> string
}.

(** ** The log sink and the state of one run *)

(** What a call of [log] carries: the values interpolated into the message
    and, for the output of the child, the [stream] option of the call. *)
Inductive LogMsg : Type :=
| LogSessionId (id : json)          (* Session ID: ${sessionId}, verbose *)
| LogClaude (text : json)           (* data.text, stream 'claude' *)
| LogTool (name : json)             (* Using tool: ${data.name}, stream 'tool' *)
| LogToolBash (command : json)      (* $ ${data.input.command}, 'tool-detail' *)
| LogToolWrite (path : json)        (* Writing to: ${data.input.path} *)
| LogToolRead (path : json)         (* Reading: ${data.input.path} *)
| LogToolError (error : json)       (* Tool error: ${data.error}, 'tool-error' *)
| LogToolResult (output : string)   (* Result: ${output}, 'tool-result' *)
| LogError (error : json)           (* Error: ${...}, stream 'error' *)
| LogMeta (count : nat)             (* Message ${messageCount} from assistant *)
| LogRaw (line : string)            (* the line itself, stream 'raw' *)
| LogStderr (text : string)         (* the chunk itself, stream 'stderr' *)
| LogNote (label : string) (values : list json). (* every other message *)

(** The [stream] option of a call, when it has one. *)
Definition stream_of (m : LogMsg) : option string :=
  match m with
  | LogSessionId _ => None
  | LogClaude _ => Some "claude"
  | LogTool _ => Some "tool"
  | LogToolBash _ | LogToolWrite _ | LogToolRead _ => Some "tool-detail"
  | LogToolError _ => Some "tool-error"
  | LogToolResult _ => Some "tool-result"
  | LogError _ => Some "error"
  | LogMeta _ => Some "meta"
  | LogRaw _ => Some "raw"
  | LogStderr _ => Some "stderr"
  | LogNote _ _ => None
  end.

Definition is_raw (m : LogMsg) : bool :=
  match m with
  | LogRaw _ => true
  | _ => false
  end.

(** The [let] variables of [executeClaudeCommand], and the trace of the
    sink. *)
Record RunState : Type := mkRunState {
  commandFailed : bool;
  sessionId : json;
  limitReached : bool;
  messageCount : nat;
  toolUseCount : nat;
  lastMessage : json;
  logged : list LogMsg
}.

Definition initialState : RunState :=
  {| commandFailed := false;
     sessionId := JNull;
     limitReached := false;
     messageCount := 0;
     toolUseCount := 0;
     lastMessage := JStr EmptyString;
     logged := [] |}.

Definition set_commandFailed (b : bool) (st : RunState) : RunState :=
  {| commandFailed := b; sessionId := sessionId st;
     limitReached := limitReached st; messageCount := messageCount st;
     toolUseCount := toolUseCount st; lastMessage := lastMessage st;
     logged := logged st |}.

Definition set_sessionId (v : json) (st : RunState) : RunState :=
  {| commandFailed := commandFailed st; sessionId := v;
     limitReached := limitReached st; messageCount := messageCount st;
     toolUseCount := toolUseCount st; lastMessage := lastMessage st;
     logged := logged st |}.

Definition set_limitReached (b : bool) (st : RunState) : RunState :=
  {| commandFailed := commandFailed st; sessionId := sessionId st;
     limitReached := b; messageCount := messageCount st;
     toolUseCount := toolUseCount st; lastMessage := lastMessage st;
     logged := logged st |}.

Definition incr_messageCount (st : RunState) : RunState :=
  {| commandFailed := commandFailed st; sessionId := sessionId st;
     limitReached := limitReached st; messageCount := S (messageCount st);
     toolUseCount := toolUseCount st; lastMessage := lastMessage st;
     logged := logged st |}.

Definition incr_toolUseCount (st : RunState) : RunState :=
  {| commandFailed := commandFailed st; sessionId := sessionId st;
     limitReached := limitReached st; messageCount := messageCount st;
     toolUseCount := S (toolUseCount st); lastMessage := lastMessage st;
     logged := logged st |}.

Definition set_lastMessage (v : json) (st : RunState) : RunState :=
  {| commandFailed := commandFailed st; sessionId := sessionId st;
     limitReached := limitReached st; messageCount := messageCount st;
     toolUseCount := toolUseCount st; lastMessage := v;
     logged := logged st |}.

Definition add_log (m : LogMsg) (st : RunState) : RunState :=
  {| commandFailed := commandFailed st; sessionId := sessionId st;
     limitReached := limitReached st; messageCount := messageCount st;
     toolUseCount := toolUseCount st; lastMessage := lastMessage st;
     logged := (logged st ++ [m])%list |}.

(** ** Statements that may throw *)

Inductive Completion (A : Type) : Type :=
| Normal (a : A)
| Throw (e : JsError).
Arguments Normal {A} a.
Arguments Throw {A} e.

(** A block of statements: it reads and writes the variables of the run
    and completes normally or throws; what it wrote before throwing
    stays. *)
Definition Step (A : Type) : Type := RunState -> Completion A * RunState.

Definition ret {A} (a : A) : Step A := fun st => (Normal a, st).

Definition bind {A B} (c : Step A) (k : A -> Step B) : Step B :=
  fun st =>
    match c st with
    | (Normal a, st') => k a st'
    | (Throw e, st') => (Throw e, st')
    end.

Definition throw {A} (e : JsError) : Step A := fun st => (Throw e, st).

Definition gets {A} (f : RunState -> A) : Step A := fun st => (Normal (f st), st).

Definition modify (f : RunState -> RunState) : Step unit :=
  fun st => (Normal tt, f st).

(** [await log(...)] *)
Definition log (m : LogMsg) : Step unit := modify (add_log m).

(** [try { body } catch { handler }] *)
Definition try_catch (body handler : Step unit) : Step unit :=
  fun st =>
    match body st with
    | (Normal tt, st') => (Normal tt, st')
    | (Throw _, st') => handler st'
    end.

Definition when (b : bool) (c : Step unit) : Step unit :=
  if b then c else ret tt.

Declare Scope step_scope.
Delimit Scope step_scope with step.
Notation "x <- c ;; k" := (bind c (fun x => k))
  (at level 61, c at next level, right associativity) : step_scope.
Notation "c ;; k" := (bind c (fun _ => k))
  (at level 61, right associativity) : step_scope.
Local Open Scope step_scope.

Fixpoint for_each {A} (body : A -> Step unit) (l : list A) : Step unit :=
  match l with
  | [] => ret tt
  | x :: rest => body x ;; for_each body rest
  end.

(** ** Processing one line of the child's output

    The body of [for (const line of lines)], the same text in the three
    places where the module decodes lines. *)

Record Argv : Type := mkArgv {
  model : string;
  verbose : bool;
  resume : option string;
  fork : bool;
  url : string;
  attachLogs : bool
}.

(** Truthiness of an option of the command line that holds a string, or
    of a parameter that does. *)
Definition given (o : option string) : bool :=
  match o with
  | Some s => negb (String.eqb s EmptyString)
  | None => false
  end.

(** [v.k] on a value that is not [null]. *)
Definition field (v : json) (k : string) : option json :=
  match v with
  | JObj fields => obj_get k fields
  | _ => None
  end.

Section Lines.

Context {rt : Runtime}.

(** [data.k] on the parsed value: reading a property of [null] throws. *)
Definition prop (data : json) (k : string) : Step (option json) :=
  match data with
  | JNull => throw TypeError
  | _ => ret (field data k)
  end.

(** [const data = JSON.parse(line)] *)
Definition parse (line : string) : Step json :=
  match JSON_parse line with
  | Some data => ret data
  | None => throw SyntaxError
  end.

(** [if (!sessionId && data.session_id) { sessionId = data.session_id; ... }] *)
Definition captureSessionId (data : json) : Step unit :=
  sid <- gets sessionId ;;
  if truthy sid then ret tt
  else
    v <- prop data "session_id" ;;
    match v with
    | Some id =>
        when (truthy id)
          (modify (set_sessionId id) ;; log (LogSessionId id))
    | None => ret tt
    end.

(** [if (data.type === 'message') messageCount++;
     else if (data.type === 'tool_use') toolUseCount++;] *)
Definition trackCounts (data : json) : Step unit :=
  ty <- prop data "type" ;;
  if is_str "message" ty then modify incr_messageCount
  else if is_str "tool_use" ty then modify incr_toolUseCount
  else ret tt.

(** [data.error || JSON.stringify(data)] *)
Definition error_text (data : json) : json :=
  match field data "error" with
  | Some e => if truthy e then e else JStr (JSON_stringify data)
  | None => JStr (JSON_stringify data)
  end.

(** [data.output && data.output.length < 200] *)
Definition short_output (output : json) : bool :=
  truthy output &&
  match output with
  | JStr s => (String.length s <? 200)%nat
  | JArr items => (List.length items <? 200)%nat
  | JObj fields =>
      match obj_get "length" fields with
      | Some n => js_less_than n 200
      | None => false
      end
  | _ => false
  end.

(** The three verbose details of a tool use. *)
Definition toolDetail (name : json) (input : json) : Step unit :=
  if is_str "bash" (Some name) && truthy_opt (field input "command") then
    match field input "command" with
    | Some c => log (LogToolBash c)
    | None => ret tt
    end
  else if is_str "write" (Some name) && truthy_opt (field input "path") then
    match field input "path" with
    | Some p => log (LogToolWrite p)
    | None => ret tt
    end
  else if is_str "read" (Some name) && truthy_opt (field input "path") then
    match field input "path" with
    | Some p => log (LogToolRead p)
    | None => ret tt
    end
  else ret tt.

(** The verbose report of a tool result; [data.output.replace] exists on
    strings only. *)
Definition toolResult (data : json) : Step unit :=
  if truthy_opt (field data "error") then
    match field data "error" with
    | Some e => log (LogToolError e)
    | None => ret tt
    end
  else
    match field data "output" with
    | Some output =>
        if short_output output then
          match output with
          | JStr s => log (LogToolResult (replace_nl (str nl ++ "   ") s))
          | _ => throw TypeError
          end
        else ret tt
    | None => ret tt
    end.

(** The chain [if (data.type === 'text') ... else if ...]. *)
Definition formatOutput (argv : Argv) (data : json) : Step unit :=
  let ty := field data "type" in
  if is_str "text" ty then
    match field data "text" with
    | Some text =>
        when (truthy text)
          (log (LogClaude text) ;; modify (set_lastMessage text))
    | None => ret tt
    end
  else if is_str "tool_use" ty && truthy_opt (field data "name") then
    match field data "name" with
    | Some name =>
        log (LogTool name) ;;
        match field data "input" with
        | Some input =>
            when (verbose argv && truthy input) (toolDetail name input)
        | None => ret tt
        end
    | None => ret tt
    end
  else if is_str "tool_result" ty && verbose argv then toolResult data
  else if is_str "error" ty then
    log (LogError (error_text data)) ;;
    modify (set_lastMessage (error_text data))
  else if is_str "message" ty && is_str "assistant" (field data "role")
          && verbose argv then
    n <- gets messageCount ;;
    log (LogMeta n)
  else ret tt.

(** The [try] block. *)
Definition decodeLine (argv : Argv) (line : string) : Step unit :=
  data <- parse line ;;
  captureSessionId data ;;
  trackCounts data ;;
  formatOutput argv data.

(** The [catch] block: a line that is not JSON, or whose processing
    threw, is given out as it is. *)
Definition rawLine (line : string) : Step unit :=
  when (trim_nonempty line && negb (includes "node:internal" line))
    (log (LogRaw line) ;; modify (set_lastMessage (JStr line))).

(** One iteration of the loop.  The spawn variant skips blank lines by
    [if (!line.trim()) continue]; the command-stream variant has filtered
    them out before. *)
Definition decodeOrRaw (argv : Argv) (line : string) : Step unit :=
  try_catch (decodeLine argv line) (rawLine line).

Definition processLine (argv : Argv) (line : string) : Step unit :=
  if trim_nonempty line then decodeOrRaw argv line else ret tt.

Definition processLines (argv : Argv) (lines : list string) : Step unit :=
  for_each (processLine argv) lines.

(** ** Classifying the exit *)

(** [lastMessage.includes(marker)]: a method of strings and of arrays;
    calling it on any other value throws. *)
Definition js_includes (receiver : json) (marker : string) : Step bool :=
  match receiver with
  | JStr s => ret (includes marker s)
  | JArr items => ret (existsb (fun v => is_str marker (Some v)) items)
  | _ => throw TypeError
  end.

(** The condition of [// Check if we hit a rate limit]. *)
Definition hitRateLimit : Step bool :=
  m <- gets lastMessage ;;
  a <- js_includes m "rate_limit_exceeded" ;;
  if a then ret true
  else
    b <- js_includes m "You have exceeded your rate limit" ;;
    if b then ret true
    else js_includes m "rate limit".

(** The body of [if (code !== 0)], with the text that follows
    [exit code] in the last message: the code and, in the places that
    print it, the signal. *)
Definition classifyFailure (argv : Argv) (exitInfo : list json) : Step unit :=
  modify (set_commandFailed true) ;;
  limited <- hitRateLimit ;;
  if limited then
    modify (set_limitReached true) ;;
    log (LogNote "Rate limit reached. The session can be resumed later." []) ;;
    sid <- gets sessionId ;;
    when (truthy sid)
      (log (LogNote "Session ID for resuming:" [sid]) ;;
       log (LogNote "To continue when the rate limit resets, run:" []) ;;
       log (LogNote "--auto-continue" [JStr (url argv)]))
  else
    m <- gets lastMessage ;;
    overflow <- js_includes m "context_length_exceeded" ;;
    if overflow then
      log (LogNote "Context length exceeded. Try with a smaller issue or split the work." [])
    else
      log (LogNote "Claude command failed with exit code" exitInfo) ;;
      sid <- gets sessionId ;;
      when (truthy sid && negb (given (resume argv)))
        (log (LogNote "Session ID for resuming:" [sid]) ;;
         log (LogNote "To resume this session, run:" []) ;;
         log (LogNote "--resume" [JStr (url argv); sid])).

End Lines.

(** ** What both variants share around the child *)

(** The answer of [getResourceSnapshot()]. *)
Record Snapshot : Type := mkSnapshot {
  memory : string;
  load : string
}.

(** The parameter object of [executeClaudeCommand]; [getResourceSnapshot]
    is given by its answers, first call first. *)
Record Params : Type := mkParams {
  tempDir : string;
  branchName : string;
  prompt : string;
  systemPrompt : string;
  escapedPrompt : string;
  escapedSystemPrompt : string;
  argv : Argv;
  getResourceSnapshot : nat -> Snapshot;
  forkedRepo : option string;
  feedbackLines : option (list string);
  claudePath : string
}.

Definition quoted (s : string) : string := str dquote ++ s ++ str dquote.

(** A value interpolated into a template literal. *)
Definition interpolated (o : option string) : json :=
  match o with
  | Some s => JStr s
  | None => JStr "undefined"
  end.

Definition number (n : nat) : json := JNum (Z.of_nat n) 0.

(** [resources.memory.split('\n')[1]] and [resources.load] *)
Definition logResources (r : Snapshot) : Step unit :=
  log (LogNote "Memory:" [interpolated (nth_error (split_nl (memory r)) 1)]) ;;
  log (LogNote "Load:" [JStr (load r)]).

(** The lines logged before the command is built; the model is shown
    upper-cased. *)
Definition announce (p : Params) : Step unit :=
  log (LogNote "Executing Claude:" [JStr (model (argv p))]) ;;
  when (verbose (argv p))
    (log (LogNote "Model:"
            [JStr (if String.eqb (model (argv p)) "opus" then "opus" else "sonnet")]) ;;
     log (LogNote "Working directory:" [JStr (tempDir p)]) ;;
     log (LogNote "Branch:" [JStr (branchName p)]) ;;
     log (LogNote "Prompt length:" [number (String.length (prompt p))]) ;;
     log (LogNote "System prompt length:" [number (String.length (systemPrompt p))]) ;;
     match feedbackLines p with
     | Some (l :: ls) =>
         log (LogNote "Feedback info included: Yes" [number (List.length (l :: ls))])
     | _ => log (LogNote "Feedback info included: No" [])
     end) ;;
  log (LogNote "System resources before execution:" []) ;;
  logResources (getResourceSnapshot p 0).

(** [claudeArgs] before the prompts are added. *)
Definition baseArgs (p : Params) : string :=
  let flags :=
    "--output-format stream-json --verbose --dangerously-skip-permissions --model "
      ++ model (argv p) in
  match resume (argv p) with
  | Some r =>
      if String.eqb r EmptyString then flags
      else "--resume " ++ r ++ " " ++ flags
  | None => flags
  end.

Definition logResume (p : Params) : Step unit :=
  match resume (argv p) with
  | Some r =>
      when (negb (String.eqb r EmptyString))
        (log (LogNote "Resuming from session:" [JStr r]))
  | None => ret tt
  end.

Definition logCommandDetails (p : Params) : Step unit :=
  log (LogNote "Command details:" []) ;;
  log (LogNote "Working directory:" [JStr (tempDir p)]) ;;
  log (LogNote "Branch:" [JStr (branchName p)]) ;;
  log (LogNote "Model:" [JStr (model (argv p))]) ;;
  when (fork (argv p) && given (forkedRepo p))
    (log (LogNote "Fork:" [interpolated (forkedRepo p)])) ;;
  log (LogNote "Streaming output:" []).

(** The object literal returned by [executeClaudeCommand]. *)
Definition resultObject (success : bool) : Step json :=
  st <- gets (fun st => st) ;;
  ret (JObj [("success", JBool success);
             ("sessionId", sessionId st);
             ("limitReached", JBool (limitReached st));
             ("messageCount", number (messageCount st));
             ("toolUseCount", number (toolUseCount st))]).

(** From [// Check if command failed] to the end of the function. *)
Definition conclude (p : Params) : Step json :=
  failed <- gets commandFailed ;;
  if failed then
    log (LogNote "System resources after execution:" []) ;;
    logResources (getResourceSnapshot p 1) ;;
    sid <- gets sessionId ;;
    when (attachLogs (argv p) && truthy sid)
      (log (LogNote "Attempting to attach failure logs to PR/Issue..." [])) ;;
    resultObject false
  else
    log (LogNote "Claude command completed" []) ;;
    st <- gets (fun st => st) ;;
    log (LogNote "Total messages and tool uses:"
           [number (messageCount st); number (toolUseCount st)]) ;;
    resultObject true.

(** How a call of [executeClaudeCommand] ends. *)
Inductive Outcome : Type :=
| Returned (result : json)
| Thrown (e : JsError)
| Pending.

Definition outcome_of (c : Completion json * RunState) : Outcome * RunState :=
  match c with
  | (Normal r, st) => (Returned r, st)
  | (Throw e, st) => (Thrown e, st)
  end.

(** [code !== 0] *)
Definition nonzero (code : option Z) : bool :=
  match code with
  | Some c => negb (c =? 0)%Z
  | None => true
  end.

Definition code_value (code : option Z) : json :=
  match code with
  | Some c => JNum c 0
  | None => JNull
  end.

(** ** Async functions

    [executeClaudeCommand] and the listeners of the spawn variant are
    async functions.  At an [await] such a function stops; what is left
    of it runs later, after whatever else took its turn in between, and
    finds the variables as the others left them.  [Async] is what is left
    of an async function: its statements up to the next [await], and the
    rest. *)

Inductive Async (A : Type) : Type :=
| Ends (c : Completion A)                           (* it returns or throws *)
| Reads (k : RunState -> Async A)                   (* it reads the variables *)
| Writes (f : RunState -> RunState) (k : Async A)   (* it assigns, or calls [log] *)
| Awaits (k : Async A).                             (* [await]: it stops here *)
Arguments Ends {A} c.
Arguments Reads {A} k.
Arguments Writes {A} f k.
Arguments Awaits {A} k.

(** Where a function is after one turn. *)
Inductive Turn (A : Type) : Type :=
| Done (c : Completion A)
| Parked (k : Async A).
Arguments Done {A} c.
Arguments Parked {A} k.

(** One turn: the function runs to its next [await], or to its end. *)
Fixpoint advance {A} (t : Async A) (st : RunState) : Turn A * RunState :=
  match t with
  | Ends c => (Done c, st)
  | Reads k => advance (k st) st
  | Writes f k => advance k (f st)
  | Awaits k => (Parked k, st)
  end.

(** The function run to its end with nothing in between: every [await]
    returns at once. *)
Fixpoint finish {A} (t : Async A) (st : RunState) : Completion A * RunState :=
  match t with
  | Ends c => (c, st)
  | Reads k => finish (k st) st
  | Writes f k => finish k (f st)
  | Awaits k => finish k st
  end.

(** The statements of the module once more, as the async functions of the
    spawn variant run them: the same text as in [Step], with every
    [await] a place where the function stops. *)
Module Interleaved.

Definition ret {A} (a : A) : Async A := Ends (Normal a).

Definition throw {A} (e : JsError) : Async A := Ends (Throw e).

Fixpoint bind {A B} (t : Async A) (k : A -> Async B) : Async B :=
  match t with
  | Ends (Normal a) => k a
  | Ends (Throw e) => Ends (Throw e)
  | Reads r => Reads (fun st => bind (r st) k)
  | Writes f t' => Writes f (bind t' k)
  | Awaits t' => Awaits (bind t' k)
  end.

Definition gets {A} (f : RunState -> A) : Async A :=
  Reads (fun st => Ends (Normal (f st))).

Definition modify (f : RunState -> RunState) : Async unit :=
  Writes f (Ends (Normal tt)).

(** An [await] of something that touches no variable of the run. *)
Definition pause : Async unit := Awaits (Ends (Normal tt)).

(** [await log(...)]: the call reaches the sink, the function stops. *)
Definition log (m : LogMsg) : Async unit :=
  Writes (add_log m) pause.

(** [try { body } catch { handler }], also across the awaits of
    [body]. *)
Fixpoint try_catch (body handler : Async unit) : Async unit :=
  match body with
  | Ends (Normal tt) => Ends (Normal tt)
  | Ends (Throw _) => handler
  | Reads r => Reads (fun st => try_catch (r st) handler)
  | Writes f t' => Writes f (try_catch t' handler)
  | Awaits t' => Awaits (try_catch t' handler)
  end.

Definition when (b : bool) (c : Async unit) : Async unit :=
  if b then c else ret tt.

Declare Scope async_scope.
Delimit Scope async_scope with async.
Notation "x <- c ;; k" := (bind c (fun x => k))
  (at level 61, c at next level, right associativity) : async_scope.
Notation "c ;; k" := (bind c (fun _ => k))
  (at level 61, right associativity) : async_scope.
Local Open Scope async_scope.

Fixpoint for_each {A} (body : A -> Async unit) (l : list A) : Async unit :=
  match l with
  | [] => ret tt
  | x :: rest => body x ;; for_each body rest
  end.

Section Lines.

Context {rt : Runtime}.

Definition prop (data : json) (k : string) : Async (option json) :=
  match data with
  | JNull => throw TypeError
  | _ => ret (field data k)
  end.

Definition parse (line : string) : Async json :=
  match JSON_parse line with
  | Some data => ret data
  | None => throw SyntaxError
  end.

(** [sessionId] is tested and assigned in one go; the function stops at
    the [await log] that follows. *)
Definition captureSessionId (data : json) : Async unit :=
  sid <- gets sessionId ;;
  if truthy sid then ret tt
  else
    v <- prop data "session_id" ;;
    match v with
    | Some id =>
        when (truthy id)
          (modify (set_sessionId id) ;; log (LogSessionId id))
    | None => ret tt
    end.

Definition trackCounts (data : json) : Async unit :=
  ty <- prop data "type" ;;
  if is_str "message" ty then modify incr_messageCount
  else if is_str "tool_use" ty then modify incr_toolUseCount
  else ret tt.

Definition toolDetail (name : json) (input : json) : Async unit :=
  if is_str "bash" (Some name) && truthy_opt (field input "command") then
    match field input "command" with
    | Some c => log (LogToolBash c)
    | None => ret tt
    end
  else if is_str "write" (Some name) && truthy_opt (field input "path") then
    match field input "path" with
    | Some p => log (LogToolWrite p)
    | None => ret tt
    end
  else if is_str "read" (Some name) && truthy_opt (field input "path") then
    match field input "path" with
    | Some p => log (LogToolRead p)
    | None => ret tt
    end
  else ret tt.

Definition toolResult (data : json) : Async unit :=
  if truthy_opt (field data "error") then
    match field data "error" with
    | Some e => log (LogToolError e)
    | None => ret tt
    end
  else
    match field data "output" with
    | Some output =>
        if short_output output then
          match output with
          | JStr s => log (LogToolResult (replace_nl (str nl ++ "   ") s))
          | _ => throw TypeError
          end
        else ret tt
    | None => ret tt
    end.

(** [lastMessage] is assigned when the [await log] before it has
    returned. *)
Definition formatOutput (argv : Argv) (data : json) : Async unit :=
  let ty := field data "type" in
  if is_str "text" ty then
    match field data "text" with
    | Some text =>
        when (truthy text)
          (log (LogClaude text) ;; modify (set_lastMessage text))
    | None => ret tt
    end
  else if is_str "tool_use" ty && truthy_opt (field data "name") then
    match field data "name" with
    | Some name =>
        log (LogTool name) ;;
        match field data "input" with
        | Some input =>
            when (verbose argv && truthy input) (toolDetail name input)
        | None => ret tt
        end
    | None => ret tt
    end
  else if is_str "tool_result" ty && verbose argv then toolResult data
  else if is_str "error" ty then
    log (LogError (error_text data)) ;;
    modify (set_lastMessage (error_text data))
  else if is_str "message" ty && is_str "assistant" (field data "role")
          && verbose argv then
    n <- gets messageCount ;;
    log (LogMeta n)
  else ret tt.

Definition decodeLine (argv : Argv) (line : string) : Async unit :=
  data <- parse line ;;
  captureSessionId data ;;
  trackCounts data ;;
  formatOutput argv data.

Definition rawLine (line : string) : Async unit :=
  when (trim_nonempty line && negb (includes "node:internal" line))
    (log (LogRaw line) ;; modify (set_lastMessage (JStr line))).

Definition decodeOrRaw (argv : Argv) (line : string) : Async unit :=
  try_catch (decodeLine argv line) (rawLine line).

Definition processLine (argv : Argv) (line : string) : Async unit :=
  if trim_nonempty line then decodeOrRaw argv line else ret tt.

(** [for (const line of lines) { ... }] *)
Definition processLines (argv : Argv) (lines : list string) : Async unit :=
  for_each (processLine argv) lines.

Definition js_includes (receiver : json) (marker : string) : Async bool :=
  match receiver with
  | JStr s => ret (includes marker s)
  | JArr items => ret (existsb (fun v => is_str marker (Some v)) items)
  | _ => throw TypeError
  end.

Definition hitRateLimit : Async bool :=
  m <- gets lastMessage ;;
  a <- js_includes m "rate_limit_exceeded" ;;
  if a then ret true
  else
    b <- js_includes m "You have exceeded your rate limit" ;;
    if b then ret true
    else js_includes m "rate limit".

(** [lastMessage] is read as soon as the call has its turn; [sessionId]
    is read after the [await log] of the branch. *)
Definition classifyFailure (argv : Argv) (exitInfo : list json) : Async unit :=
  modify (set_commandFailed true) ;;
  limited <- hitRateLimit ;;
  if limited then
    modify (set_limitReached true) ;;
    log (LogNote "Rate limit reached. The session can be resumed later." []) ;;
    sid <- gets sessionId ;;
    when (truthy sid)
      (log (LogNote "Session ID for resuming:" [sid]) ;;
       log (LogNote "To continue when the rate limit resets, run:" []) ;;
       log (LogNote "--auto-continue" [JStr (url argv)]))
  else
    m <- gets lastMessage ;;
    overflow <- js_includes m "context_length_exceeded" ;;
    if overflow then
      log (LogNote "Context length exceeded. Try with a smaller issue or split the work." [])
    else
      log (LogNote "Claude command failed with exit code" exitInfo) ;;
      sid <- gets sessionId ;;
      when (truthy sid && negb (given (resume argv)))
        (log (LogNote "Session ID for resuming:" [sid]) ;;
         log (LogNote "To resume this session, run:" []) ;;
         log (LogNote "--resume" [JStr (url argv); sid])).

End Lines.

Definition logResources (r : Snapshot) : Async unit :=
  log (LogNote "Memory:" [interpolated (nth_error (split_nl (memory r)) 1)]) ;;
  log (LogNote "Load:" [JStr (load r)]).

(** The object literal is evaluated when the function returns. *)
Definition resultObject (success : bool) : Async json :=
  id <- gets sessionId ;;
  limit <- gets limitReached ;;
  messages <- gets messageCount ;;
  tools <- gets toolUseCount ;;
  ret (JObj [("success", JBool success);
             ("sessionId", id);
             ("limitReached", JBool limit);
             ("messageCount", number messages);
             ("toolUseCount", number tools)]).

(** From [// Check if command failed] to the end of the function; the
    pause is [await getResourceSnapshot()]. *)
Definition conclude (p : Params) : Async json :=
  failed <- gets commandFailed ;;
  if failed then
    pause ;;
    log (LogNote "System resources after execution:" []) ;;
    logResources (getResourceSnapshot p 1) ;;
    sid <- gets sessionId ;;
    when (attachLogs (argv p) && truthy sid)
      (log (LogNote "Attempting to attach failure logs to PR/Issue..." [])) ;;
    resultObject false
  else
    log (LogNote "Claude command completed" []) ;;
    messages <- gets messageCount ;;
    tools <- gets toolUseCount ;;
    log (LogNote "Total messages and tool uses:"
           [number messages; number tools]) ;;
    resultObject true.

End Interleaved.

(** ** The spawn variant: [src/solve.claude-execution.lib.mjs] *)

Module Spawn.

(** *** The command *)

(** [claudeArgs] once the two prompts are appended. *)
Definition claudeArgs (p : Params) : string :=
  baseArgs p ++ " -p " ++ quoted (escapedPrompt p)
    ++ " --append-system-prompt " ++ quoted (escapedSystemPrompt p).

(** The command as it is logged. *)
Definition fullCommand (p : Params) : string :=
  "(cd " ++ quoted (tempDir p) ++ " && " ++ claudePath p ++ " "
    ++ claudeArgs p ++ " | jq -c .)".

(** The command as it is run. *)
Definition shellCommand (p : Params) : string :=
  claudePath p ++ " " ++ claudeArgs p ++ " | jq -c .".

(** The call [spawn('sh', ['-c', shellCommand], { cwd: tempDir, ... })]. *)
Record SpawnCall : Type := mkSpawnCall {
  file : string;
  args : list string;
  cwd : string
}.

Definition spawnCall (p : Params) : SpawnCall :=
  {| file := "sh"; args := ["-c"; shellCommand p]; cwd := tempDir p |}.

(** *** The child *)

(** What takes its turn once the child is spawned.  The first five are
    the events the child handle emits; a chunk is the text
    [data.toString()] gives.  The last two are awaits that return:
    [Resumes n] gives the turn to the [n]-th of the listeners that are
    parked at an [await log(...)], oldest first; [Continues] gives it to
    the call itself, or to the close listener the call is waiting
    for. *)
Inductive ChildEvent : Type :=
| StdoutData (output : string)
| StderrData (errorOutput : string)
| Exit (code : option Z) (signal : option string)
| Close
| ChildError (message : string)
| Resumes (n : nat)
| Continues.

(** [spawn] throws at once, or hands out a child; the list tells what
    happens then, turn by turn. *)
Inductive Child : Type :=
| SpawnThrows (message : string)
| Spawned (events : list ChildEvent).

(** The [let] variables of the promise executor. *)
Record ProcState : Type := mkProcState {
  stdoutBuffer : string;
  stderrBuffer : string;
  exitCode : option Z;
  exitSignal : option string
}.

Definition initialProc : ProcState :=
  {| stdoutBuffer := EmptyString; stderrBuffer := EmptyString;
     exitCode := None; exitSignal := None |}.

(** The value the promise resolves with. *)
Record CommandResult : Type := mkCommandResult {
  code : option Z;
  signal : option string;
  stdout : string;
  stderr : string
}.

Section Handlers.

Context {rt : Runtime}.

(** The line framing of the stdout listener: the chunk is appended to the
    buffer, the buffer is split, the last piece is kept.  It gives the
    complete lines and the new buffer. *)
Definition frame (buffer output : string) : list string * string :=
  let lines := split_nl (buffer ++ output) in
  (removelast lines, last_or_empty lines).

(** [child.stdout.on('data', async (data) => ...)].  The buffer is
    framed at once; the loop over the complete lines is the async part,
    which stops at every [await log(...)].  Nobody awaits the listener:
    what it throws is lost, what it wrote stays. *)
Definition onStdoutData (a : Argv) (output : string) (ps : ProcState)
    : ProcState * Async unit :=
  let (lines, rest) := frame (stdoutBuffer ps) output in
  ({| stdoutBuffer := rest; stderrBuffer := stderrBuffer ps;
      exitCode := exitCode ps; exitSignal := exitSignal ps |},
   Interleaved.processLines a lines).

(** [child.stderr.on('data', async (data) => ...)] *)
Definition onStderrData (errorOutput : string) (ps : ProcState)
    : ProcState * Async unit :=
  ({| stdoutBuffer := stdoutBuffer ps;
      stderrBuffer := stderrBuffer ps ++ errorOutput;
      exitCode := exitCode ps; exitSignal := exitSignal ps |},
   Interleaved.when (negb (String.eqb errorOutput EmptyString))
     (Interleaved.log (LogStderr errorOutput))).

(** [child.on('exit', ...)] *)
Definition onExit (c : option Z) (sg : option string) (ps : ProcState)
    : ProcState :=
  {| stdoutBuffer := stdoutBuffer ps; stderrBuffer := stderrBuffer ps;
     exitCode := c; exitSignal := sg |}.

(** The [try] block of the close listener. *)
Definition decodeRest (buffer : string) : Async unit :=
  Interleaved.bind (Interleaved.parse buffer) (fun data =>
  Interleaved.bind (Interleaved.prop data "type") (fun ty =>
  if is_str "text" ty && truthy_opt (field data "text") then
    match field data "text" with
    | Some text =>
        Interleaved.bind (Interleaved.log (LogClaude text)) (fun _ =>
        Interleaved.modify (set_lastMessage text))
    | None => Interleaved.ret tt
    end
  else if is_str "error" ty then
    Interleaved.bind (Interleaved.log (LogError (error_text data))) (fun _ =>
    Interleaved.modify (set_lastMessage (error_text data)))
  else Interleaved.ret tt)).

(** [// Process any remaining buffered stdout] *)
Definition flushRest (buffer : string) : Async unit :=
  Interleaved.when (trim_nonempty buffer)
    (Interleaved.try_catch (decodeRest buffer) (Interleaved.rawLine buffer)).

(** The signal as the last message shows it. *)
Definition exitInfo (r : CommandResult) : list json :=
  if given (signal r)
  then [code_value (code r); interpolated (signal r)]
  else [code_value (code r)].

(** The [catch] around [await executeCommand()]. *)
Definition onRejected (message : string) : Async json :=
  Interleaved.bind
    (Interleaved.log (LogNote "Failed to execute Claude command:" [JStr message]))
    (fun _ => Interleaved.resultObject false).

(** What follows the resolved promise. *)
Definition onResolved (p : Params) (r : CommandResult) : Async json :=
  Interleaved.bind
    (Interleaved.when (nonzero (code r))
       (Interleaved.classifyFailure (argv p) (exitInfo r)))
    (fun _ => Interleaved.conclude p).

(** [child.on('close', async () => ...)]: the listener flushes the
    buffer and resolves the promise; with that [await executeCommand()]
    can return, and what is left is the call itself. *)
Definition onClose (p : Params) (ps : ProcState) : Async json :=
  Interleaved.bind (flushRest (stdoutBuffer ps)) (fun _ =>
  Awaits
    (onResolved p
       {| code := exitCode ps; signal := exitSignal ps;
          stdout := stdoutBuffer ps; stderr := stderrBuffer ps |})).

(** The lines logged between the resource snapshot and the spawn: no
    listener exists yet. *)
Definition prepare (p : Params) : Step unit :=
  announce p ;;
  logResume p ;;
  log (LogNote "Raw command:" []) ;;
  log (LogNote "command" [JStr (fullCommand p)]) ;;
  logCommandDetails p.

(** The call: it waits for the promise, it has its turn coming with what
    is left of it, or it has returned or thrown. *)
Inductive Call : Type :=
| Blocked
| Runnable (k : Async json)
| Completed (c : Completion json).

(** The executor's variables, the variables of the run, the listeners
    parked at an [await], and the call. *)
Record World : Type := mkWorld {
  proc : ProcState;
  vars : RunState;
  parked : list (Async unit);
  call : Call
}.

Definition spawned (st : RunState) : World :=
  {| proc := initialProc; vars := st; parked := []; call := Blocked |}.

(** What a listener leaves to be parked: nothing when it is through or
    when nothing follows its [await]. *)
Definition left_over (turn : Turn unit) : list (Async unit) :=
  match turn with
  | Done _ => []
  | Parked (Ends _) => []
  | Parked k => [k]
  end.

(** An event calls a listener: it runs to its first [await]. *)
Definition start (ps : ProcState) (t : Async unit) (w : World) : World :=
  let (turn, st) := advance t (vars w) in
  {| proc := ps; vars := st;
     parked := (parked w ++ left_over turn)%list;
     call := call w |}.

(** The [n]-th parked listener has its turn and keeps its place. *)
Definition takeTurn (n : nat) (w : World) : World :=
  match nth_error (parked w) n with
  | Some k =>
      let (turn, st) := advance k (vars w) in
      {| proc := proc w; vars := st;
         parked := (firstn n (parked w) ++ left_over turn
                      ++ skipn (S n) (parked w))%list;
         call := call w |}
  | None => w
  end.

Definition after (turn : Turn json) : Call :=
  match turn with
  | Done c => Completed c
  | Parked k => Runnable k
  end.

(** The call, or the close listener it waits for, has its turn. *)
Definition proceed (k : Async json) (w : World) : World :=
  let (turn, st) := advance k (vars w) in
  {| proc := proc w; vars := st; parked := parked w; call := after turn |}.

(** One turn.  The listeners run to their first [await] when their event
    arrives.  ['close'] is the last event of a child: its listener
    settles the promise, and the model follows no event of the child
    after it, nor after an ['error'] that rejected the promise.  Once the
    call has returned nothing is followed any more. *)
Definition step (p : Params) (w : World) (e : ChildEvent) : World :=
  match call w with
  | Blocked =>
      match e with
      | StdoutData output =>
          let (ps, t) := onStdoutData (argv p) output (proc w) in start ps t w
      | StderrData errorOutput =>
          let (ps, t) := onStderrData errorOutput (proc w) in start ps t w
      | Exit c sg =>
          {| proc := onExit c sg (proc w); vars := vars w;
             parked := parked w; call := Blocked |}
      | Close => proceed (onClose p (proc w)) w
      | ChildError message =>
          {| proc := proc w; vars := vars w; parked := parked w;
             call := Runnable (onRejected message) |}
      | Resumes n => takeTurn n w
      | Continues => w
      end
  | Runnable k =>
      match e with
      | Resumes n => takeTurn n w
      | Continues => proceed k w
      | _ => w
      end
  | Completed _ => w
  end.

(** [executeCommand()] and what follows it, turn by turn. *)
Definition executeCommand (p : Params) (events : list ChildEvent) (w : World)
    : World :=
  fold_left (step p) events w.

(** How the call ends.  When the list is through and the promise was
    never settled the call stays pending; when the call has its turn
    coming, it has it and goes on to its end. *)
Definition outcome (w : World) : Outcome * RunState :=
  match call w with
  | Blocked => (Pending, vars w)
  | Runnable k => outcome_of (finish k (vars w))
  | Completed c => outcome_of (c, vars w)
  end.

(** An exception of [spawn] inside the executor rejects the promise
    before any listener exists. *)
Definition executeClaudeCommand (p : Params) (child : Child)
    : Outcome * RunState :=
  let st1 := snd (prepare p initialState) in
  match child with
  | SpawnThrows message => outcome_of (finish (onRejected message) st1)
  | Spawned events => outcome (executeCommand p events (spawned st1))
  end.

(** *** Listeners that are not overtaken *)

Definition of_child (e : ChildEvent) : bool :=
  match e with
  | Resumes _ | Continues => false
  | _ => true
  end.

Definition none_parked (w : World) : bool :=
  match parked w with
  | [] => true
  | _ => false
  end.

(** No listener is parked when an event of the child arrives, nor when
    the list is through: every [await log(...)] has returned before the
    child goes on. *)
Fixpoint in_turn (p : Params) (events : list ChildEvent) (w : World) : bool :=
  match events with
  | [] => none_parked w
  | e :: rest =>
      (negb (of_child e) || none_parked w) && in_turn p rest (step p w e)
  end.

Definition unhurried (p : Params) (child : Child) : bool :=
  match child with
  | SpawnThrows _ => true
  | Spawned events => in_turn p events (spawned (snd (prepare p initialState)))
  end.

End Handlers.

(** *** The child, as the statements below speak of it *)

(** The complete lines a sequence of stdout chunks gives, and the
    buffer left at the end: [frame] chunk after chunk. *)
Fixpoint frames (buffer : string) (chunks : list string)
    : list string * string :=
  match chunks with
  | [] => ([], buffer)
  | output :: rest =>
      let (lines, kept) := frame buffer output in
      let (more, final) := frames kept rest in
      ((lines ++ more)%list, final)
  end.

(** The child fails: [spawn] throws, or ['error'] comes before
    ['close'].  It gives the message. *)
Fixpoint first_error (events : list ChildEvent) : option string :=
  match events with
  | [] => None
  | ChildError message :: _ => Some message
  | Close :: _ => None
  | _ :: rest => first_error rest
  end.

Definition failure (child : Child) : option string :=
  match child with
  | SpawnThrows message => Some message
  | Spawned events => first_error events
  end.

(** The child closes: ['close'] comes before any ['error'].  It gives the
    code and the signal of the last ['exit'] before it, starting from
    [c] and [sg]. *)
Fixpoint close_status (events : list ChildEvent) (c : option Z)
    (sg : option string) : option (option Z * option string) :=
  match events with
  | [] => None
  | Close :: _ => Some (c, sg)
  | ChildError _ :: _ => None
  | Exit c' sg' :: rest => close_status rest c' sg'
  | _ :: rest => close_status rest c sg
  end.

Definition exit_status (child : Child) : option (option Z * option string) :=
  match child with
  | SpawnThrows _ => None
  | Spawned events => close_status events None None
  end.

(** The chunks of stdout that arrive before the promise is settled. *)
Fixpoint stdout_chunks (events : list ChildEvent) : list string :=
  match events with
  | [] => []
  | StdoutData output :: rest => output :: stdout_chunks rest
  | Close :: _ => []
  | ChildError _ :: _ => []
  | _ :: rest => stdout_chunks rest
  end.

Definition stdout_text (child : Child) : string :=
  match child with
  | SpawnThrows _ => EmptyString
  | Spawned events => concat_all (stdout_chunks events)
  end.

End Spawn.

(** ** The command-stream variant

    The second copy of the function.  The caller's [$] is a parameter of
    its own here; in the source it is one more field of [params]. *)

Module CommandStream.

(** *** The command and the prompt files *)

Section Command.

Context {rt : Runtime}.

Definition promptFile (p : Params) : string :=
  path_join (tempDir p) ".claude-prompt.txt".

Definition systemPromptFile (p : Params) : string :=
  path_join (tempDir p) ".claude-system-prompt.txt".

(** The two calls of [fs.promises.writeFile]: path and content. *)
Definition writeFiles (p : Params) : list (string * string) :=
  [(promptFile p, prompt p); (systemPromptFile p, systemPrompt p)].

Definition claudeArgs (p : Params) : string :=
  baseArgs p ++ " --prompt-file " ++ quoted (promptFile p)
    ++ " --system-prompt-file " ++ quoted (systemPromptFile p).

(** The text interpolated in front of [| jq -c .]. *)
Definition fullClaudeCommand (p : Params) : string :=
  claudePath p ++ " " ++ claudeArgs p.

End Command.

(** *** The [$] of the caller *)

(** The value [await commandStream] gives; its outputs, when present,
    are strings. *)
Record Result : Type := mkResult {
  code : option Z;
  stdout : option string;
  stderr : option string
}.

(** One item of the iteration. *)
Record Chunk : Type := mkChunk {
  done : bool;
  chunk_code : option Z;
  chunk_signal : option string;
  chunk_stdout : option string;
  chunk_stderr : option string
}.

(** What the command made by [$] does: making it (or one of the two
    probes before it) throws; or it is awaited and resolves or rejects; or
    it is iterated and yields chunks until it ends or throws. *)
Inductive Stream : Type :=
| CreateThrows (message : string)
| AwaitResolves (result : Result)
| AwaitRejects (message : string)
| Iterates (chunks : list Chunk) (failure : option string).

Inductive Dollar : Type :=
| Missing
| NotAFunction
| Function (stream : Stream).

Section Run.

Context {rt : Runtime}.

(** [output.split('\n').filter(line => line.trim())] and the loop over
    it. *)
Definition processOutput (a : Argv) (output : string) : Step unit :=
  for_each (decodeOrRaw a) (filter trim_nonempty (split_nl output)).

Definition logStderr (errorOutput : option string) : Step unit :=
  match errorOutput with
  | Some e => when (negb (String.eqb e EmptyString)) (log (LogStderr e))
  | None => ret tt
  end.

Definition processStdout (a : Argv) (output : option string) : Step unit :=
  match output with
  | Some o => when (negb (String.eqb o EmptyString)) (processOutput a o)
  | None => ret tt
  end.

(** The [try] block around [await commandStream], after the await. *)
Definition processResult (a : Argv) (result : Result) : Step unit :=
  processStdout a (stdout result) ;;
  logStderr (stderr result) ;;
  when (nonzero (code result))
    (classifyFailure a [code_value (code result)]).

(** Its [catch (execError)]. *)
Definition onExecError (message : string) : Step unit :=
  modify (set_commandFailed true) ;;
  log (LogNote "Claude command failed:" [JStr message]).

Definition message_of (e : JsError) : string :=
  match e with
  | SyntaxError => "SyntaxError"
  | TypeError => "TypeError"
  | Error m => m
  end.

(** The branch of a command that is not async-iterable. *)
Definition awaitCommand (a : Argv) (result : Result) : Step unit :=
  fun st =>
    match processResult a result st with
    | (Normal tt, st') => (Normal tt, st')
    | (Throw e, st') => onExecError (message_of e) st'
    end.

Definition chunkExitInfo (c : Chunk) : list json :=
  if given (chunk_signal c)
  then [code_value (chunk_code c); interpolated (chunk_signal c)]
  else [code_value (chunk_code c)].

(** The body of [for await (const chunk of commandStream)]; a [done]
    chunk ends the loop, and what the iterator throws is not caught. *)
Fixpoint iterate (a : Argv) (chunks : list Chunk) (failure : option string)
    : Step unit :=
  match chunks with
  | [] =>
      match failure with
      | Some message => throw (Error message)
      | None => ret tt
      end
  | c :: rest =>
      if done c then
        when (nonzero (chunk_code c)) (classifyFailure a (chunkExitInfo c))
      else
        logStderr (chunk_stderr c) ;;
        processStdout a (chunk_stdout c) ;;
        iterate a rest failure
  end.

Definition prepare (p : Params) : Step unit :=
  announce p ;;
  logResume p ;;
  logCommandDetails p.

Definition run (p : Params) (dollar : Dollar) : Step json :=
  prepare p ;;
  match dollar with
  | Missing => throw (Error "Command stream ($) is not available")
  | NotAFunction => throw (Error "Command stream ($) is not a function")
  | Function (CreateThrows message) =>
      throw (Error ("Failed to create command stream: " ++ message))
  | Function (AwaitResolves result) =>
      awaitCommand (argv p) result ;; conclude p
  | Function (AwaitRejects message) =>
      onExecError message ;; conclude p
  | Function (Iterates chunks failure) =>
      iterate (argv p) chunks failure ;; conclude p
  end.

(** The call: the files it has written, how it ends, and the state it
    ends in. *)
Definition executeClaudeCommand (p : Params) (dollar : Dollar)
    : list (string * string) * (Outcome * RunState) :=
  (writeFiles p, outcome_of (run p dollar initialState)).

End Run.

(** *** The command, as the statements below speak of it *)

(** The code the loop ends with, when it reaches a [done] chunk. *)
Fixpoint done_code (chunks : list Chunk) : option (option Z) :=
  match chunks with
  | [] => None
  | c :: rest => if done c then Some (chunk_code c) else done_code rest
  end.

(** The command ends with a code: it is awaited and resolves, or it is
    iterated up to a [done] chunk. *)
Definition exit_code (dollar : Dollar) : option (option Z) :=
  match dollar with
  | Function (AwaitResolves result) => Some (code result)
  | Function (Iterates chunks _) => done_code chunks
  | _ => None
  end.

End CommandStream.

(** ** A reference runtime

    An executable [Runtime], to run the scenarios: a JSON reader and
    writer for texts whose code points are below 256, the comparison for
    the values whose conversion to a number is a decimal literal, and
    [path.join] for a directory and a file name. *)

Module Reference.

Definition is_json_space (c : ascii) : bool :=
  let n := nat_of_ascii c in
  (n =? 32)%nat || (n =? 9)%nat || (n =? 10)%nat || (n =? 13)%nat.

Fixpoint skip_space (s : string) : string :=
  match s with
  | String c r => if is_json_space c then skip_space r else s
  | EmptyString => s
  end.

Definition digit_of (c : ascii) : option Z :=
  let n := nat_of_ascii c in
  if (48 <=? n)%nat && (n <=? 57)%nat then Some (Z.of_nat (n - 48)) else None.

Definition hex_of (c : ascii) : option nat :=
  let n := nat_of_ascii c in
  if (48 <=? n)%nat && (n <=? 57)%nat then Some (n - 48)%nat
  else if (65 <=? n)%nat && (n <=? 70)%nat then Some (n - 55)%nat
  else if (97 <=? n)%nat && (n <=? 102)%nat then Some (n - 87)%nat
  else None.

(** Digits read into an accumulator; it gives the value, the number of
    digits and the rest. *)
Fixpoint digits (s : string) (acc : Z) (count : nat) : Z * nat * string :=
  match s with
  | String c r =>
      match digit_of c with
      | Some d => digits r (acc * 10 + d)%Z (S count)
      | None => (acc, count, s)
      end
  | EmptyString => (acc, count, s)
  end.

(** The integer part: a single [0], or digits that do not start with
    [0]. *)
Definition int_part (s : string) : option (Z * string) :=
  match s with
  | String c r =>
      match digit_of c with
      | Some 0%Z => Some (0%Z, r)
      | Some _ =>
          let '(v, _, rest) := digits s 0 0 in Some (v, rest)
      | None => None
      end
  | EmptyString => None
  end.

Definition frac_part (s : string) (m : Z) : option (Z * Z * string) :=
  match s with
  | String "." r =>
      let '(v, count, rest) := digits r m 0 in
      if (count =? 0)%nat then None else Some (v, Z.of_nat count, rest)
  | _ => Some (m, 0%Z, s)
  end.

Definition exp_digits (s : string) (sign : Z) : option (Z * string) :=
  let '(v, count, rest) := digits s 0 0 in
  if (count =? 0)%nat then None else Some ((sign * v)%Z, rest).

Definition exp_part (s : string) : option (Z * string) :=
  match s with
  | String c r =>
      if Ascii.eqb c "e" || Ascii.eqb c "E" then
        match r with
        | String "+" r' => exp_digits r' 1
        | String "-" r' => exp_digits r' (-1)
        | _ => exp_digits r 1
        end
      else Some (0%Z, s)
  | EmptyString => Some (0%Z, s)
  end.

(** A JSON number. *)
Definition number_lit (s : string) : option (json * string) :=
  let (sign, s1) :=
    match s with
    | String "-" r => ((-1)%Z, r)
    | _ => (1%Z, s)
    end in
  match int_part s1 with
  | Some (i, s2) =>
      match frac_part s2 i with
      | Some (m, scale, s3) =>
          match exp_part s3 with
          | Some (e, s4) => Some (JNum (sign * m) (e - scale), s4)
          | None => None
          end
      | None => None
      end
  | None => None
  end.

(** The characters of a string literal after its opening quote. *)
Fixpoint string_lit (s : string) : option (string * string) :=
  match s with
  | EmptyString => None
  | String c r =>
      if Ascii.eqb c dquote then Some (EmptyString, r)
      else if Ascii.eqb c "\" then
        match r with
        | String e r' =>
            let continue (ch : ascii) (rest : string) :=
              match string_lit rest with
              | Some (body, tail) => Some (String ch body, tail)
              | None => None
              end in
            if Ascii.eqb e dquote then continue dquote r'
            else if Ascii.eqb e "\" then continue "\"%char r'
            else if Ascii.eqb e "/" then continue "/"%char r'
            else if Ascii.eqb e "b" then continue "008"%char r'
            else if Ascii.eqb e "f" then continue "012"%char r'
            else if Ascii.eqb e "n" then continue "010"%char r'
            else if Ascii.eqb e "r" then continue "013"%char r'
            else if Ascii.eqb e "t" then continue "009"%char r'
            else if Ascii.eqb e "u" then
              match r' with
              | String h1 (String h2 (String h3 (String h4 r''))) =>
                  match hex_of h1, hex_of h2, hex_of h3, hex_of h4 with
                  | Some 0%nat, Some 0%nat, Some a, Some b =>
                      continue (ascii_of_nat (16 * a + b)) r''
                  | _, _, _, _ => None
                  end
              | _ => None
              end
            else None
        | EmptyString => None
        end
      else if (nat_of_ascii c <? 32)%nat then None
      else
        match string_lit r with
        | Some (body, tail) => Some (String c body, tail)
        | None => None
        end
  end.

Definition keyword (word : string) (v : json) (s : string)
    : option (json * string) :=
  if starts_with word s
  then Some (v, substring (String.length word) (String.length s) s)
  else None.

(** A JSON value and the text after it; [fuel] bounds the number of
    nested calls. *)
Fixpoint value (fuel : nat) (s : string) : option (json * string) :=
  match fuel with
  | O => None
  | S fuel' =>
      match skip_space s with
      | EmptyString => None
      | String c r =>
          if Ascii.eqb c dquote then
            match string_lit r with
            | Some (body, rest) => Some (JStr body, rest)
            | None => None
            end
          else if Ascii.eqb c "[" then
            match skip_space r with
            | String "]" rest => Some (JArr [], rest)
            | _ => elements fuel' r []
            end
          else if Ascii.eqb c "{" then
            match skip_space r with
            | String "}" rest => Some (JObj [], rest)
            | _ => members fuel' r []
            end
          else if Ascii.eqb c "n" then keyword "null" JNull (String c r)
          else if Ascii.eqb c "t" then keyword "true" (JBool true) (String c r)
          else if Ascii.eqb c "f" then keyword "false" (JBool false) (String c r)
          else number_lit (String c r)
      end
  end

with elements (fuel : nat) (s : string) (acc : list json)
    : option (json * string) :=
  match fuel with
  | O => None
  | S fuel' =>
      match value fuel' s with
      | Some (v, rest) =>
          match skip_space rest with
          | String "," rest' => elements fuel' rest' (acc ++ [v])%list
          | String "]" rest' => Some (JArr (acc ++ [v])%list, rest')
          | _ => None
          end
      | None => None
      end
  end

with members (fuel : nat) (s : string) (acc : list (string * json))
    : option (json * string) :=
  match fuel with
  | O => None
  | S fuel' =>
      match skip_space s with
      | String c r =>
          if Ascii.eqb c dquote then
            match string_lit r with
            | Some (key, rest) =>
                match skip_space rest with
                | String ":" rest' =>
                    match value fuel' rest' with
                    | Some (v, rest'') =>
                        match skip_space rest'' with
                        | String "," tail =>
                            members fuel' tail (acc ++ [(key, v)])%list
                        | String "}" tail =>
                            Some (JObj (acc ++ [(key, v)])%list, tail)
                        | _ => None
                        end
                    | None => None
                    end
                | _ => None
                end
            | None => None
            end
          else None
      | EmptyString => None
      end
  end.

(** [JSON.parse]: one value, with nothing but white space around it. *)
Definition parse_json (s : string) : option json :=
  match value (2 * String.length s + 2) s with
  | Some (v, rest) =>
      match skip_space rest with
      | EmptyString => Some v
      | _ => None
      end
  | None => None
  end.

(** Decimal digits of a natural number. *)
Fixpoint nat_digits (fuel n : nat) (acc : string) : string :=
  match fuel with
  | O => acc
  | S fuel' =>
      let acc' := String (ascii_of_nat (48 + n mod 10)) acc in
      if (n <? 10)%nat then acc' else nat_digits fuel' (n / 10) acc'
  end.

Definition nat_text (n : nat) : string := nat_digits (S n) n EmptyString.

Fixpoint zeros (n : nat) : string :=
  match n with
  | O => EmptyString
  | S k => String "0" (zeros k)
  end.

(** A number as a plain decimal. *)
Definition number_text (m e : Z) : string :=
  let sign := if (m <? 0)%Z then "-" else EmptyString in
  let ds := nat_text (Z.to_nat (Z.abs m)) in
  if (m =? 0)%Z then "0"
  else if (0 <=? e)%Z then sign ++ ds ++ zeros (Z.to_nat e)
  else
    let k := Z.to_nat (- e) in
    let n := String.length ds in
    if (k <? n)%nat
    then sign ++ substring 0 (n - k) ds ++ "." ++ substring (n - k) k ds
    else sign ++ "0." ++ zeros (k - n) ++ ds.

Definition hex_digit (n : nat) : ascii :=
  if (n <? 10)%nat then ascii_of_nat (48 + n) else ascii_of_nat (87 + n).

Fixpoint escape (s : string) : string :=
  match s with
  | EmptyString => EmptyString
  | String c r =>
      let n := nat_of_ascii c in
      (if Ascii.eqb c dquote then "\" ++ str dquote
       else if Ascii.eqb c "\" then "\\"
       else if (n =? 8)%nat then "\b"
       else if (n =? 12)%nat then "\f"
       else if (n =? 10)%nat then "\n"
       else if (n =? 13)%nat then "\r"
       else if (n =? 9)%nat then "\t"
       else if (n <? 32)%nat
            then "\u00" ++ str (hex_digit (n / 16)) ++ str (hex_digit (n mod 16))
       else str c) ++ escape r
  end.

Definition string_text (s : string) : string := quoted (escape s).

Definition join_comma (l : list string) : string :=
  match l with
  | [] => EmptyString
  | x :: rest => fold_left (fun acc y => acc ++ "," ++ y) rest x
  end.

(** [JSON.stringify] without indentation. *)
Fixpoint stringify (v : json) : string :=
  match v with
  | JNull => "null"
  | JBool true => "true"
  | JBool false => "false"
  | JNum m e => number_text m e
  | JStr s => string_text s
  | JArr items => "[" ++ join_comma (map stringify items) ++ "]"
  | JObj fields =>
      "{" ++ join_comma
               (map (fun kv => string_text (fst kv) ++ ":" ++ stringify (snd kv))
                  fields)
          ++ "}"
  end.

(** [m * 10 ^ e < n] *)
Definition decimal_lt (m e n : Z) : bool :=
  if (0 <=? e)%Z then (m * 10 ^ e <? n)%Z else (m <? n * 10 ^ (- e))%Z.

Fixpoint trim_start (s : string) : string :=
  match s with
  | String c r => if is_space c then trim_start r else s
  | EmptyString => s
  end.

(** A string compared as a number: blank counts as 0, a decimal literal
    as its value, anything else as NaN. *)
Definition text_lt (s : string) (n : Z) : bool :=
  match trim_start s with
  | EmptyString => (0 <? n)%Z
  | t =>
      match number_lit t with
      | Some (JNum m e, rest) =>
          if trim_nonempty rest then false else decimal_lt m e n
      | _ => false
      end
  end.

Fixpoint less_than (v : json) (n : Z) : bool :=
  match v with
  | JNull => (0 <? n)%Z
  | JBool b => ((if b then 1 else 0) <? n)%Z
  | JNum m e => decimal_lt m e n
  | JStr s => text_lt s n
  | JArr [] => (0 <? n)%Z
  | JArr [JBool _] => false
  | JArr [JObj _] => false
  | JArr [w] => less_than w n
  | JArr _ => false
  | JObj _ => false
  end.

Definition ends_with_slash (s : string) : bool :=
  match get (String.length s - 1) s with
  | Some c => Ascii.eqb c "/"
  | None => false
  end.

Definition join_path (dir name : string) : string :=
  if String.eqb dir EmptyString then name
  else if ends_with_slash dir then dir ++ name
  else dir ++ "/" ++ name.

End Reference.

#[export] Instance RefRuntime : Runtime :=
  {| JSON_parse := Reference.parse_json;
     JSON_stringify := Reference.stringify;
     js_less_than := Reference.less_than;
     path_join := Reference.join_path |}.

(** ** Notions used in the statements *)

(** The variables of the run without the trace. *)
Definition core (st : RunState)
    : bool * json * bool * nat * nat * json :=
  (commandFailed st, sessionId st, limitReached st,
   messageCount st, toolUseCount st, lastMessage st).

(** The text contains one of the three rate-limit markers. *)
Definition rate_limit_marker (s : string) : bool :=
  includes "rate_limit_exceeded" s
  || includes "You have exceeded your rate limit" s
  || includes "rate limit" s.

(** The text contains the context-overflow marker. *)
Definition context_marker (s : string) : bool :=
  includes "context_length_exceeded" s.

(** The number of raw events in a trace. *)
Definition raw_events (trace : list LogMsg) : nat :=
  List.length (filter is_raw trace).

(** The number of times a session id was announced; the announcement
    follows the one assignment [sessionId = data.session_id]. *)
Definition is_session_announcement (m : LogMsg) : bool :=
  match m with
  | LogSessionId _ => true
  | _ => false
  end.

Definition announcements (trace : list LogMsg) : nat :=
  List.length (filter is_session_announcement trace).

(** The non-empty [session_id] of the event a line decodes to. *)
Definition carried {rt : Runtime} (line : string) : option json :=
  if trim_nonempty line then
    match JSON_parse line with
    | Some data =>
        match field data "session_id" with
        | Some id => if truthy id then Some id else None
        | None => None
        end
    | None => None
    end
  else None.

Fixpoint first_carried {rt : Runtime} (lines : list string) : option json :=
  match lines with
  | [] => None
  | line :: rest =>
      match carried line with
      | Some id => Some id
      | None => first_carried rest
      end
  end.

(** The session id a decoded event sets in a state that has none, with
    the count of announcements after it. *)
Definition capture (data : json) (st : RunState) : json * nat :=
  match field data "session_id" with
  | Some id =>
      if truthy id then (id, S (announcements (logged st)))
      else (sessionId st, announcements (logged st))
  | None => (sessionId st, announcements (logged st))
  end.

(** The returned object, read off a state. *)
Definition result_of (success : bool) (st : RunState) : json :=
  JObj [("success", JBool success);
        ("sessionId", sessionId st);
        ("limitReached", JBool (limitReached st));
        ("messageCount", number (messageCount st));
        ("toolUseCount", number (toolUseCount st))].

(** The message of the context-overflow branch. *)
Definition contextNote : LogMsg :=
  LogNote "Context length exceeded. Try with a smaller issue or split the work." [].

(** Views of the state: the session id and how often one was announced;
    the two flags of the outcome; what a run counts and has seen of the
    session; what the classification leaves alone. *)
Definition session_view (st : RunState) : json * nat :=
  (sessionId st, announcements (logged st)).

Definition flags (st : RunState) : bool * bool :=
  (commandFailed st, limitReached st).

Definition tally (st : RunState) : json * nat * nat :=
  (sessionId st, messageCount st, toolUseCount st).

Definition observed (st : RunState) : json * nat * nat * json :=
  (sessionId st, messageCount st, toolUseCount st, lastMessage st).

(** However a block ends, the state it ends in is related by [R] to the
    state it started in. *)
Definition respects (R : RunState -> RunState -> Prop) {A} (c : Step A)
    : Prop :=
  forall st, R st (snd (c st)).

(** A block keeps a view of the state. *)
Definition keeps {A} (f : RunState -> A) : RunState -> RunState -> Prop :=
  fun st st' => f st' = f st.

(** The trace only grows. *)
Definition trace_grows : RunState -> RunState -> Prop :=
  fun st st' => exists more, logged st' = (logged st ++ more)%list.

(** The call returns, and the object holds the boolean [b] under
    [key]. *)
Definition says (key : string) (b : bool) (o : Outcome) : Prop :=
  exists r, o = Returned r /\ field r key = Some (JBool b).

(** A raised limit flag comes with a failed command: the relation of a
    block that keeps it so. *)
Definition limit_needs_failure : RunState -> RunState -> Prop :=
  fun st st' =>
    (limitReached st = true -> commandFailed st = true) ->
    (limitReached st' = true -> commandFailed st' = true).

(** ** Scenarios *)

Module Scenario.

Definition sampleArgv : Argv :=
  {| model := "sonnet"; verbose := false; resume := None; fork := false;
     url := "https://github.com/owner/repo/issues/1"; attachLogs := false |}.

Definition sample : Params :=
  {| tempDir := "/tmp/work"; branchName := "issue-1";
     prompt := "Solve the issue"; systemPrompt := "Be careful";
     escapedPrompt := "Solve the issue"; escapedSystemPrompt := "Be careful";
     argv := sampleArgv;
     getResourceSnapshot := fun _ => {| memory := "Mem: 1"; load := "0.1" |};
     forkedRepo := None; feedbackLines := None; claudePath := "claude" |}.

(** The same call with a prompt that holds a command substitution. *)
Definition injected : Params :=
  {| tempDir := tempDir sample; branchName := branchName sample;
     prompt := "Explain `touch injected`"; systemPrompt := systemPrompt sample;
     escapedPrompt := "Explain `touch injected`";
     escapedSystemPrompt := escapedSystemPrompt sample;
     argv := argv sample; getResourceSnapshot := getResourceSnapshot sample;
     forkedRepo := forkedRepo sample; feedbackLines := feedbackLines sample;
     claudePath := claudePath sample |}.

(** One member [key: value] of an object, both written as strings. *)
Definition member (key value : string) : string :=
  quoted key ++ ":" ++ quoted value.

Definition line (text : string) : string := text ++ str nl.

(** The event [{type: message}]. *)
Definition messageEvent : string := "{" ++ member "type" "message" ++ "}".

(** The event [{type: tool_use, name: bash}]. *)
Definition toolUseEvent : string :=
  "{" ++ member "type" "tool_use" ++ "," ++ member "name" "bash" ++ "}".

(** The event [{type: text, text: ...}]. *)
Definition textEvent (text : string) : string :=
  "{" ++ member "type" "text" ++ "," ++ member "text" text ++ "}".

(** The event [{type: message, session_id: ...}]. *)
Definition sessionEvent (id : string) : string :=
  "{" ++ member "type" "message" ++ "," ++ member "session_id" id ++ "}".

(** The truncated fragment: an opening brace, the key [type], a colon,
    and the first three letters of the value [error] after its opening
    quote. *)
Definition truncated : string := "{" ++ quoted "type" ++ ":" ++ str dquote ++ "err".

Definition rateLimitText : string := "Error: You have exceeded your rate limit".

(** The spawned child says the rate-limit text and exits with [c]; the
    listener has had its turn when the child exits. *)
Definition rateLimited (c : Z) : Spawn.Child :=
  Spawn.Spawned [Spawn.StdoutData (line (textEvent rateLimitText));
                 Spawn.Resumes 0;
                 Spawn.Exit (Some c) None; Spawn.Close].

(** The same child with a sink that is slow: the listener is still
    parked at [await log(...)] when the child closes, and has its turn
    after the call has looked at the last message. *)
Definition rateLimitedInHaste : Spawn.Child :=
  Spawn.Spawned [Spawn.StdoutData (line (textEvent rateLimitText));
                 Spawn.Exit (Some 1%Z) None; Spawn.Close;
                 Spawn.Continues; Spawn.Resumes 0].

(** What the call returns for [rateLimited 1]. *)
Definition limitedResult : json :=
  JObj [("success", JBool false); ("sessionId", JNull);
        ("limitReached", JBool true); ("messageCount", JNum 0 0);
        ("toolUseCount", JNum 0 0)].

(** The spawned child says the context-overflow marker and exits with 1. *)
Definition overflowed : Spawn.Child :=
  Spawn.Spawned [Spawn.StdoutData (line (textEvent "context_length_exceeded"));
                 Spawn.Resumes 0;
                 Spawn.Exit (Some 1%Z) None; Spawn.Close].

Definition usageText : string := "You are close to your rate limit".

(** The spawned child says [usageText], then the context-overflow
    marker, and exits with 1; the listener is parked at the
    [await log(...)] of the second text when the child closes. *)
Definition overflowedInHaste : Spawn.Child :=
  Spawn.Spawned [Spawn.StdoutData (line (textEvent usageText)
                                     ++ line (textEvent "context_length_exceeded"));
                 Spawn.Resumes 0;
                 Spawn.Exit (Some 1%Z) None; Spawn.Close;
                 Spawn.Continues; Spawn.Resumes 0].

(** The spawned child emits a message and a tool use and exits with 0. *)
Definition twoEvents : Spawn.Child :=
  Spawn.Spawned [Spawn.StdoutData (line messageEvent ++ line toolUseEvent);
                 Spawn.Resumes 0;
                 Spawn.Exit (Some 0%Z) None; Spawn.Close].

(** The line of [messageEvent], cut in the middle of the word
    [message]. *)
Definition firstHalf : string :=
  "{" ++ quoted "type" ++ ":" ++ str dquote ++ "mess".

(** The spawned child announces a session, uses a tool, begins a message
    and exits with 0 before the message is complete. *)
Definition cutShort : Spawn.Child :=
  Spawn.Spawned [Spawn.StdoutData (line (sessionEvent "abc"));
                 Spawn.Resumes 0;
                 Spawn.StdoutData (line toolUseEvent);
                 Spawn.StdoutData firstHalf;
                 Spawn.Exit (Some 0%Z) None; Spawn.Close].

(** The spawned child announces a session, says what happened to it and
    is killed by a signal. *)
Definition crashed : Spawn.Child :=
  Spawn.Spawned [Spawn.StdoutData (line (sessionEvent "abc"));
                 Spawn.Resumes 0;
                 Spawn.StdoutData (line (textEvent "Segmentation fault"));
                 Spawn.Resumes 0;
                 Spawn.Exit None (Some "SIGSEGV"); Spawn.Close].

Definition secondHalf : string := "age" ++ str dquote ++ "}" ++ str nl.

Definition outputChunk (output : string) : CommandStream.Chunk :=
  {| CommandStream.done := false; CommandStream.chunk_code := None;
     CommandStream.chunk_signal := None;
     CommandStream.chunk_stdout := Some output;
     CommandStream.chunk_stderr := None |}.

Definition doneChunk (c : Z) : CommandStream.Chunk :=
  {| CommandStream.done := true; CommandStream.chunk_code := Some c;
     CommandStream.chunk_signal := None;
     CommandStream.chunk_stdout := None;
     CommandStream.chunk_stderr := None |}.

(** The command yields the outputs one by one and is done with code 0. *)
Definition iterated (outputs : list string) : CommandStream.Dollar :=
  CommandStream.Function
    (CommandStream.Iterates (map outputChunk outputs ++ [doneChunk 0])%list None).

Definition stateOf (run : list (string * string) * (Outcome * RunState))
    : RunState := snd (snd run).

End Scenario.

(** ** More notions: lines, framing and counters *)

(** A text without line feed. *)
Fixpoint one_line (s : string) : bool :=
  match s with
  | EmptyString => true
  | String c r => negb (Ascii.eqb c nl) && one_line r
  end.

(** The text the child wrote when it wrote the [lines], each ended by a
    line feed, and then [rest]. *)
Definition written (lines : list string) (rest : string) : string :=
  concat_all (map (fun l => l ++ str nl) lines) ++ rest.

(** The [type] of the event a line decodes to. *)
Definition event_type {rt : Runtime} (line : string) : option json :=
  if trim_nonempty line then
    match JSON_parse line with
    | Some data => field data "type"
    | None => None
    end
  else None.

(** The number of lines that decode to an event of type [ty]. *)
Definition events_of_type {rt : Runtime} (ty : string) (lines : list string)
    : nat :=
  List.length (filter (fun l => is_str ty (event_type l)) lines).

(** The two counters of the run. *)
Definition counters (st : RunState) : nat * nat :=
  (messageCount st, toolUseCount st).

(** A line the loop passes over without a trace: it is blank, or it is
    not JSON and mentions [node:internal]. *)
Definition passed_over {rt : Runtime} (line : string) : bool :=
  negb (trim_nonempty line)
  || match JSON_parse line with
     | Some _ => false
     | None => includes "node:internal" line
     end.

(** What one event adds to the counters. *)
Definition counted (ty : option json) (c : nat * nat) : nat * nat :=
  ((if is_str "message" ty then 1 else 0) + fst c,
   (if is_str "tool_use" ty then 1 else 0) + snd c).

(** The event [{type: error, error: {message: Overloaded}}]: its error is
    an object. *)
Definition errorObjectEvent : string :=
  "{" ++ Scenario.member "type" "error" ++ "," ++ quoted "error" ++ ":{"
    ++ Scenario.member "message" "Overloaded" ++ "}}".

(** The spawned child reports an error object and exits with 1. *)
Definition overloaded : Spawn.Child :=
  Spawn.Spawned [Spawn.StdoutData (Scenario.line errorObjectEvent);
                 Spawn.Resumes 0;
                 Spawn.Exit (Some 1%Z) None; Spawn.Close].

(** What an entry of the trace shows of the child's own words: the text
    of a [text] event, the error of an [error] event, a raw line. *)
Definition shown (m : LogMsg) : option json :=
  match m with
  | LogClaude text => Some text
  | LogError error => Some error
  | LogRaw line => Some (JStr line)
  | _ => None
  end.

(** The last of them in a trace, [before] when there is none. *)
Fixpoint last_shown (trace : list LogMsg) (before : json) : json :=
  match trace with
  | [] => before
  | m :: rest =>
      last_shown rest (match shown m with Some v => v | None => before end)
  end.

(** The relation of a block that leaves [lastMessage] at the last of the
    child's words it has logged. *)
Definition tells : RunState -> RunState -> Prop :=
  fun st st' =>
    exists more,
      logged st' = (logged st ++ more)%list
      /\ lastMessage st' = last_shown more (lastMessage st).

(** The events of a child without what it wrote on stderr. *)
Definition without_stderr (events : list Spawn.ChildEvent)
    : list Spawn.ChildEvent :=
  filter (fun e => match e with Spawn.StderrData _ => false | _ => true end)
    events.

(** The value has a method [includes]: it is a string or an array. *)
Definition has_includes (v : json) : bool :=
  match v with
  | JStr _ | JArr _ => true
  | _ => false
  end.

(** The last message of the branch [else] of the classification. *)
Definition failureNote (info : list json) : LogMsg :=
  LogNote "Claude command failed with exit code" info.

(** The code and, when there is one, the signal, as that message shows
    them. *)
Definition exit_info (c : option Z) (sg : option string) : list json :=
  if given sg then [code_value c; interpolated sg] else [code_value c].

(** The three lines that tell how to resume the session. *)
Definition resumeHint (a : Argv) (sid : json) : list LogMsg :=
  [LogNote "Session ID for resuming:" [sid];
   LogNote "To resume this session, run:" [];
   LogNote "--resume" [JStr (url a); sid]].

(** ** Notions for the async functions *)

(** Run without a break, [t] is the block [c]. *)
Definition agrees {A} (t : Async A) (c : Step A) : Prop :=
  forall st, finish t st = c st.

(** No assignment of [t] changes [f]. *)
Fixpoint leaves {A B} (f : RunState -> B) (t : Async A) : Prop :=
  match t with
  | Ends _ => True
  | Reads k => forall st, leaves f (k st)
  | Writes g k => (forall st, f (g st) = f st) /\ leaves f k
  | Awaits k => leaves f k
  end.

(** Started in [st], and whatever takes its turn at the awaits of [t] as
    long as it leaves [f] alone: when [t] ends, [post] holds of the
    variables and of the way it ends. *)
Fixpoint ensures {A B} (f : RunState -> B)
    (post : RunState -> Completion A -> Prop) (t : Async A) (st : RunState)
    : Prop :=
  match t with
  | Ends c => post st c
  | Reads k => ensures f post (k st) st
  | Writes g k => ensures f post k (g st)
  | Awaits k => forall st', f st' = f st -> ensures f post k st'
  end.

(** [t] reads nothing but the [core] of the state, what it assigns to
    the core depends on the core alone, and each of its statements
    appends the same entries to the trace whatever the trace holds: the
    trace is written, never read. *)
Fixpoint unaware {A} (t : Async A) : Prop :=
  match t with
  | Ends _ => True
  | Reads k =>
      (forall st st', core st = core st' -> k st = k st')
      /\ forall st, unaware (k st)
  | Writes g k =>
      (forall st st', core st = core st' -> core (g st) = core (g st'))
      /\ (exists more, forall st, logged (g st) = (logged st ++ more)%list)
      /\ unaware k
  | Awaits k => unaware k
  end.

(** The variables once the parked listener, if there is one, is through. *)
Definition ahead (w : Spawn.World) : RunState :=
  match Spawn.parked w with
  | k :: _ => snd (finish k (Spawn.vars w))
  | [] => Spawn.vars w
  end.

(** [t] never throws. *)
Fixpoint harmless {A} (t : Async A) : Prop :=
  match t with
  | Ends (Normal _) => True
  | Ends (Throw _) => False
  | Reads k => forall st, harmless (k st)
  | Writes _ k => harmless k
  | Awaits k => harmless k
  end.

(** How the call ends after ['close']: with the object whose [success]
    tells that the exit code was 0, the limit flag down when it was; it
    throws only after a non-zero code. *)
Definition closes_with (failed : bool) (st : RunState) (c : Completion json)
    : Prop :=
  match c with
  | Normal r =>
      r = result_of (negb failed) st
      /\ (failed = false -> limitReached st = false)
  | Throw _ => failed = true
  end.

(** How the call ends at all: what it returns is read off the variables,
    and a raised limit flag comes with [success = false]. *)
Definition ends_well (st : RunState) (c : Completion json) : Prop :=
  match c with
  | Normal r =>
      exists b, r = result_of b st /\ (limitReached st = true -> b = false)
  | Throw _ => True
  end.

(** The promise is pending: the flags are down, and no parked listener
    will touch them. *)
Definition waits (w : Spawn.World) : Prop :=
  Spawn.call w = Spawn.Blocked
  /\ flags (Spawn.vars w) = (false, false)
  /\ Forall (leaves flags) (Spawn.parked w).

(** The promise is settled: no parked listener will touch the flags, and
    the call, whenever it has its turns, ends as [post] says. *)
Definition settles (post : RunState -> Completion json -> Prop)
    (w : Spawn.World) : Prop :=
  Forall (leaves flags) (Spawn.parked w)
  /\ match Spawn.call w with
     | Spawn.Blocked => False
     | Spawn.Runnable k =>
         forall st, flags st = flags (Spawn.vars w) -> ensures flags post k st
     | Spawn.Completed c => post (Spawn.vars w) c
     end.

(** What follows the resolved promise when nothing else has a turn; [c]
    and [sg] are the code and the signal the promise resolved with. *)
Definition resolved {rt : Runtime} (p : Params) (c : option Z)
    (sg : option string) : Step json :=
  when (nonzero c) (classifyFailure (argv p) (exit_info c sg)) ;;
  conclude p.

(** At most one listener is parked. *)
Definition one_at_most (w : Spawn.World) : Prop :=
  Spawn.parked w = [] \/ exists k, Spawn.parked w = [k].

(** Two traces that differ at most in the chunks of stderr they hold. *)
Definition same_but_stderr (t t' : list LogMsg) : Prop :=
  forall keep,
    (forall e, keep (LogStderr e) = false) -> filter keep t = filter keep t'.

(** Two worlds that differ at most in the stderr collected and in the
    trace; what is parked, and what is left of the call, never reads the
    trace. *)
Definition same_but_trace (w w' : Spawn.World) : Prop :=
  Spawn.stdoutBuffer (Spawn.proc w) = Spawn.stdoutBuffer (Spawn.proc w')
  /\ Spawn.exitCode (Spawn.proc w) = Spawn.exitCode (Spawn.proc w')
  /\ Spawn.exitSignal (Spawn.proc w) = Spawn.exitSignal (Spawn.proc w')
  /\ core (Spawn.vars w) = core (Spawn.vars w')
  /\ Spawn.parked w = Spawn.parked w'
  /\ Forall unaware (Spawn.parked w)
  /\ match Spawn.call w, Spawn.call w' with
     | Spawn.Blocked, Spawn.Blocked => True
     | Spawn.Runnable k, Spawn.Runnable k' => k = k' /\ unaware k
     | Spawn.Completed c, Spawn.Completed c' => c = c'
     | _, _ => False
     end.

(** ** Committing what Claude left: [checkForUncommittedChanges]

    The function closes both copies of the module, with the same
    statements; the copies differ in how a command is run. *)

(** [s.trim()] *)
Fixpoint trim_start (s : string) : string :=
  match s with
  | EmptyString => EmptyString
  | String c r => if is_space c then trim_start r else s
  end.

Fixpoint trim_end (s : string) : string :=
  match s with
  | EmptyString => EmptyString
  | String c r =>
      match trim_end r with
      | EmptyString => if is_space c then EmptyString else str c
      | kept => String c kept
      end
  end.

Definition trim (s : string) : string := trim_end (trim_start s).

Module Git.

(** The four commands, in the order of the source. *)
Inductive Command : Type :=
| Status
| Add
| Commit
| Push (branchName : string).

Definition commitMessage : string :=
  "Auto-commit: Changes made by Claude during problem-solving session".

(** The command line [execCommand] is given in the spawn variant. *)
Definition text (c : Command) : string :=
  match c with
  | Status => "git status --porcelain 2>&1"
  | Add => "git add -A"
  | Commit => "git commit -m " ++ quoted commitMessage
  | Push branchName => "git push origin " ++ branchName
  end.

(** The strings and the values the tag [$({ cwd })] is given in the
    command-stream variant. *)
Definition template (c : Command) : list string * list string :=
  match c with
  | Status => (["git status --porcelain 2>&1"], [])
  | Add => (["git add -A"], [])
  | Commit => (["git commit -m " ++ str dquote; str dquote], [commitMessage])
  | Push branchName => (["git push origin "; EmptyString], [branchName])
  end.

(** What a command resolves with. *)
Record Result : Type := mkResult {
  code : option Z;
  stdout : string;
  stderr : string
}.

(** How the promise of a command settles. *)
Inductive Settled : Type :=
| Resolves (r : Result)
| Rejects (message : string)
| Hangs.

(** *** [execCommand] *)

(** What the child of [execCommand] emits; ['close'] carries the exit
    code. *)
Inductive Event : Type :=
| OnStdout (data : string)
| OnStderr (data : string)
| OnClose (code : option Z)
| OnError (message : string).

Inductive Process : Type :=
| SpawnThrows (message : string)
| Spawned (events : list Event).

(** The listeners: the two outputs are collected until ['close'] or
    ['error'] resolves the promise; nothing rejects it. *)
Fixpoint collect (events : list Event) (out err : string) : Settled :=
  match events with
  | [] => Hangs
  | OnStdout data :: rest => collect rest (out ++ data) err
  | OnStderr data :: rest => collect rest out (err ++ data)
  | OnClose c :: _ => Resolves {| code := c; stdout := out; stderr := err |}
  | OnError message :: _ =>
      Resolves {| code := Some 1%Z; stdout := EmptyString; stderr := message |}
  end.

(** The call [spawn('sh', ['-c', command], { cwd, ... })]. *)
Definition shCall (command cwd : string) : Spawn.SpawnCall :=
  {| Spawn.file := "sh"; Spawn.args := ["-c"; command]; Spawn.cwd := cwd |}.

(** [execCommand(command, cwd)], given what [spawn] does for a call; an
    exception of [spawn] inside the executor rejects the promise. *)
Definition execCommand (spawn : Spawn.SpawnCall -> Process)
    (command cwd : string) : Settled :=
  match spawn (shCall command cwd) with
  | SpawnThrows message => Rejects message
  | Spawned events => collect events EmptyString EmptyString
  end.

(** *** The statements of the function *)

(** What the function does, in order: the commands it has run and the
    calls of [log]. *)
Inductive Entry : Type :=
| Ran (c : Command)
| Said (m : LogMsg).

(** How a block ends: normally, by an exception, or never when a command
    it awaits never settles. *)
Inductive Ending (A : Type) : Type :=
| Finished (a : A)
| Raised (message : string)
| Waiting.
Arguments Finished {A} a.
Arguments Raised {A} message.
Arguments Waiting {A}.

Definition Job (A : Type) : Type := Ending A * list Entry.

Definition done {A} (a : A) : Job A := (Finished a, []).

Definition andThen {A B} (j : Job A) (k : A -> Job B) : Job B :=
  match j with
  | (Finished a, t) => let (e, t') := k a in (e, (t ++ t')%list)
  | (Raised message, t) => (Raised message, t)
  | (Waiting, t) => (Waiting, t)
  end.

(** [await log(...)] *)
Definition say (label : string) (values : list json) : Job unit :=
  (Finished tt, [Said (LogNote label values)]).

(** [await] of a command. *)
Definition await (run : Command -> Settled) (c : Command) : Job Result :=
  match run c with
  | Resolves r => (Finished r, [Ran c])
  | Rejects message => (Raised message, [Ran c])
  | Hangs => (Waiting, [Ran c])
  end.

(** [try { body } catch (gitError) { handler }] *)
Definition catch (body : Job unit) (handler : string -> Job unit) : Job unit :=
  match body with
  | (Raised message, t) => let (e, t') := handler message in (e, (t ++ t')%list)
  | other => other
  end.

Fixpoint sayEach (label : string) (lines : list string) : Job unit :=
  match lines with
  | [] => done tt
  | l :: rest => andThen (say label [JStr l]) (fun _ => sayEach label rest)
  end.

(** [result.code === 0] *)
Definition ok (r : Result) : bool := negb (nonzero (code r)).

Definition warn (what : string) (r : Result) : Job unit :=
  say what [JStr (trim (stderr r))].

(** The body of the function, given how a command is run. *)
Definition check (run : Command -> Settled) (branchName : string) : Job unit :=
  andThen (say "Checking for uncommitted changes..." []) (fun _ =>
  catch
    (andThen (await run Status) (fun gitStatusResult =>
     if ok gitStatusResult then
       let statusOutput := trim (stdout gitStatusResult) in
       if negb (String.eqb statusOutput EmptyString) then
         andThen (say "Found uncommitted changes" []) (fun _ =>
         andThen (say "Changes:" []) (fun _ =>
         andThen (sayEach "   " (split_nl statusOutput)) (fun _ =>
         andThen (say "Committing changes automatically..." []) (fun _ =>
         andThen (await run Add) (fun addResult =>
         if ok addResult then
           andThen (await run Commit) (fun commitResult =>
           if ok commitResult then
             andThen (say "Changes committed successfully" []) (fun _ =>
             andThen (say "Pushing changes to remote..." []) (fun _ =>
             andThen (await run (Push branchName)) (fun pushResult =>
             if ok pushResult then say "Changes pushed successfully" []
             else warn "Warning: Could not push changes:" pushResult)))
           else warn "Warning: Could not commit changes:" commitResult)
         else warn "Warning: Could not stage changes:" addResult)))))
       else say "No uncommitted changes found" []
     else warn "Warning: Could not check git status:" gitStatusResult))
    (fun message =>
       say "Warning: Error checking for uncommitted changes:" [JStr message])).

(** The function of [src/solve.claude-execution.lib.mjs]: every command
    goes through [execCommand] in [tempDir]. *)
Definition checkForUncommittedChanges (spawn : Spawn.SpawnCall -> Process)
    (tempDir branchName : string) : Job unit :=
  check (fun c => execCommand spawn (text c) tempDir) branchName.

(** The function of the command-stream copy: every command is the tagged
    template [$({ cwd: tempDir })]; calling it may throw as well. *)
Definition checkForUncommittedChangesStream
    (dollar : string -> list string * list string -> Settled)
    (tempDir branchName : string) : Job unit :=
  check (fun c => dollar tempDir (template c)) branchName.

(** *** The function, as the statements below speak of it *)

Definition commands (t : list Entry) : list Command :=
  flat_map (fun e => match e with Ran c => [c] | Said _ => [] end) t.

Definition said (t : list Entry) : list LogMsg :=
  flat_map (fun e => match e with Said m => [m] | Ran _ => [] end) t.

(** A command resolves with code 0. *)
Definition succeeds (run : Command -> Settled) (c : Command) : bool :=
  match run c with
  | Resolves r => ok r
  | _ => false
  end.

(** [git status] succeeds and prints more than white space. *)
Definition dirty (run : Command -> Settled) : bool :=
  match run Status with
  | Resolves r => ok r && trim_nonempty (stdout r)
  | _ => false
  end.

Definition is_warning (m : LogMsg) : bool :=
  match m with
  | LogNote label _ => starts_with "Warning:" label
  | _ => false
  end.

(** The number of warnings in what the function has logged. *)
Definition warnings (t : list Entry) : nat :=
  List.length (filter is_warning (said t)).

(** No command the function can run hangs. *)
Definition all_settle (run : Command -> Settled) (branchName : string) : bool :=
  forallb (fun c => match run c with Hangs => false | _ => true end)
    [Status; Add; Commit; Push branchName].

End Git.

(** A chunk of output of the child of [execCommand]: on stdout ([true])
    or on stderr. *)
Definition chunk_event (chunk : bool * string) : Git.Event :=
  if fst chunk then Git.OnStdout (snd chunk) else Git.OnStderr (snd chunk).

(** The text written on one of the two streams. *)
Definition written_on (stream : bool) (chunks : list (bool * string)) : string :=
  concat_all (map snd (filter (fun c => Bool.eqb (fst c) stream) chunks)).

(** The four commands succeed on a tree that has changes. *)
Definition pushed (run : Git.Command -> Git.Settled) (branchName : string)
    : bool :=
  Git.dirty run && Git.succeeds run Git.Add && Git.succeeds run Git.Commit
  && Git.succeeds run (Git.Push branchName).

(** [git status] succeeds and prints nothing but white space. *)
Definition clean (run : Git.Command -> Git.Settled) : bool :=
  Git.succeeds run Git.Status && negb (Git.dirty run).

(** A [$] whose [git] finds one changed file and whose remote refuses
    the push. *)
Definition refusingRemote (cwd : string) (command : list string * list string)
    : Git.Settled :=
  match command with
  | ("git status --porcelain 2>&1" :: _, _) =>
      Git.Resolves {| Git.code := Some 0%Z;
                      Git.stdout := " M README.md" ++ str nl;
                      Git.stderr := EmptyString |}
  | ("git push origin " :: _, _) =>
      Git.Resolves {| Git.code := Some 1%Z; Git.stdout := EmptyString;
                      Git.stderr := "rejected" ++ str nl |}
  | _ =>
      Git.Resolves {| Git.code := Some 0%Z; Git.stdout := EmptyString;
                      Git.stderr := EmptyString |}
  end.

(** A [spawn] whose children all fail to start, as in a directory that
    does not exist. *)
Definition noSuchDirectory (call : Spawn.SpawnCall) : Git.Process :=
  Git.Spawned [Git.OnError "spawn sh ENOENT"; Git.OnClose (Some (-2)%Z)].

(** ** Issue ids: [youtrack.lib.mjs] *)

Module YouTrack.

(** *** Characters *)

Definition code_between (lo hi : nat) (c : ascii) : bool :=
  let n := nat_of_ascii c in ((lo <=? n)%nat && (n <=? hi)%nat).

(** [\d] *)
Definition is_digit (c : ascii) : bool := code_between 48 57 c.

Definition is_upper (c : ascii) : bool := code_between 65 90 c.

Definition is_lower (c : ascii) : bool := code_between 97 122 c.

(** [[A-Z0-9]] under the flag [i]: the letters of both cases. *)
Definition is_alnum (c : ascii) : bool := is_digit c || is_upper c || is_lower c.

(** [\w], the characters between which [\b] finds no boundary. *)
Definition is_word (c : ascii) : bool :=
  is_alnum c || Ascii.eqb c "_"%char.

(** [toUpperCase] on one code unit; the ids it is applied to hold letters
    of the basic alphabet, digits and hyphens only. *)
Definition upper_char (c : ascii) : ascii :=
  if is_lower c then ascii_of_nat (nat_of_ascii c - 32) else c.

Fixpoint toUpperCase (s : string) : string :=
  match s with
  | EmptyString => EmptyString
  | String c r => String (upper_char c) (toUpperCase r)
  end.

Definition not_slash (c : ascii) : bool := negb (Ascii.eqb c "/").

(** Every code unit of the string satisfies [p]. *)
Fixpoint all (p : ascii -> bool) (s : string) : bool :=
  match s with
  | EmptyString => true
  | String c r => p c && all p r
  end.

(** *** The three patterns *)

(** The longest prefix whose code units satisfy [p], and what follows:
    a greedy [[...]*]. *)
Fixpoint span (p : ascii -> bool) (s : string) : string * string :=
  match s with
  | EmptyString => (EmptyString, EmptyString)
  | String c r =>
      if p c then let (taken, rest) := span p r in (String c taken, rest)
      else (EmptyString, s)
  end.

(** The group [([A-Z0-9][A-Z0-9]*-\d+)] at the start of [s]: the text it
    captures and what follows.  Both repetitions are greedy, and giving
    back a character never helps: after a shorter run of letters and
    digits comes a letter or digit, not the hyphen. *)
Definition id_at (s : string) : option (string * string) :=
  let (project, afterProject) := span is_alnum s in
  match project, afterProject with
  | String _ _, String "-" afterHyphen =>
      let (number, rest) := span is_digit afterHyphen in
      match number with
      | String _ _ => Some (project ++ "-" ++ number, rest)
      | EmptyString => None
      end
  | _, _ => None
  end.

(** [/^([A-Z0-9][A-Z0-9]*-\d+)$/i] *)
Definition directId (s : string) : option string :=
  match id_at s with
  | Some (id, EmptyString) => Some id
  | _ => None
  end.

(** [s] starts with [literal], letters compared without case. *)
Fixpoint starts_with_ci (literal s : string) : bool :=
  match literal, s with
  | EmptyString, _ => true
  | String _ _, EmptyString => false
  | String a l, String b r =>
      Ascii.eqb (upper_char a) (upper_char b) && starts_with_ci l r
  end.

Fixpoint skip (n : nat) (s : string) : string :=
  match n, s with
  | O, _ => s
  | S _, EmptyString => EmptyString
  | S n', String _ r => skip n' r
  end.

(** [/\/issue\/([A-Z0-9][A-Z0-9]*-\d+)/i]: the first place where the
    pattern matches. *)
Fixpoint urlId (s : string) : option string :=
  match s with
  | EmptyString => None
  | String _ r =>
      if starts_with_ci "/issue/" s then
        match id_at (skip 7 s) with
        | Some (id, _) => Some id
        | None => urlId r
        end
      else urlId r
  end.

(** [\b] after the group: the text ends or goes on with a character
    that is not of [\w]. *)
Definition boundary (rest : string) : bool :=
  match rest with
  | EmptyString => true
  | String c _ => negb (is_word c)
  end.

(** [/\b([A-Z0-9][A-Z0-9]*-\d+)\b/i]: the first place where the pattern
    matches; [afterWord] tells whether the character before is of [\w]. *)
Fixpoint textId (afterWord : bool) (s : string) : option string :=
  match s with
  | EmptyString => None
  | String c r =>
      if afterWord then textId (is_word c) r
      else
        match id_at s with
        | Some (id, rest) =>
            if boundary rest then Some id else textId (is_word c) r
        | None => textId (is_word c) r
        end
  end.

(** [parseYouTrackIssueId(input)]; [None] is [null]. *)
Definition parseYouTrackIssueId (input : json) : option string :=
  match input with
  | JStr s =>
      if String.eqb s EmptyString then None
      else
        match directId s with
        | Some id => Some (toUpperCase id)
        | None =>
            match urlId s with
            | Some id => Some (toUpperCase id)
            | None =>
                match textId false s with
                | Some id => Some (toUpperCase id)
                | None => None
                end
            end
        end
  | _ => None
  end.

(** *** [convertYouTrackIssueForGitHub] *)

(** The issue in the format of this module; a date is kept as the value
    it was read from. *)
Record Issue : Type := mkIssue {
  id : string;
  summary : json;
  description : json;
  stage : json;
  url : string;
  reporter : json;
  assignee : json
}.

Record GitHubIssue : Type := mkGitHubIssue {
  gh_url : string;
  gh_title : json;
  gh_body : json;
  gh_number : string;
  gh_youtrack : string * string * json * json * json;
  gh_repoUrl : string
}.

Definition convertYouTrackIssueForGitHub (issue : Issue) (githubRepoUrl : string)
    : GitHubIssue :=
  {| gh_url := "youtrack://" ++ id issue;
     gh_title := summary issue;
     gh_body := description issue;
     gh_number := id issue;
     gh_youtrack :=
       (id issue, url issue, stage issue, reporter issue, assignee issue);
     gh_repoUrl := githubRepoUrl |}.

(** *** Ids, as the statements below speak of them *)

(** An id: a project code of letters and digits, a hyphen, a number. *)
Definition is_issue_id (project number : string) : bool :=
  negb (String.eqb project EmptyString) && all is_alnum project
  && negb (String.eqb number EmptyString) && all is_digit number.

(** The text does not go on with a digit. *)
Definition no_digit_next (rest : string) : bool :=
  match rest with
  | EmptyString => true
  | String c _ => negb (is_digit c)
  end.

End YouTrack.

(** ** The project mapping: [parseProjectMapping] *)

(** [s.split(sep)] for a separator of one code unit: never empty. *)
Fixpoint split_on (sep : ascii) (s : string) : list string :=
  match s with
  | EmptyString => [EmptyString]
  | String c r =>
      if Ascii.eqb c sep then EmptyString :: split_on sep r
      else match split_on sep r with
           | h :: t => String c h :: t
           | [] => [str c]
           end
  end.

(** [pieces.join(sep)] *)
Fixpoint join_with (sep : string) (pieces : list string) : string :=
  match pieces with
  | [] => EmptyString
  | [p] => p
  | p :: rest => p ++ sep ++ join_with sep rest
  end.

(** The code unit is not the separator. *)
Definition differs (sep : ascii) (c : ascii) : bool := negb (Ascii.eqb c sep).

Module ProjectMap.

(** [mapping[key] = value] on an object made by a literal: the property
    is added, or replaced when there is one; assigning a string to
    [__proto__] goes to the setter of [Object.prototype], which ignores
    it.  An object is the list of its members where the last one of a
    key counts. *)
Definition assign (key : string) (value : json)
    (fields : list (string * json)) : list (string * json) :=
  if String.eqb key "__proto__" then fields
  else (fields ++ [(key, value)])%list.

(** The body of [for (const pair of pairs)]:
    [const [project, repo] = pair.trim().split(':')]. *)
Definition addPair (fields : list (string * json)) (pair : string)
    : list (string * json) :=
  match split_on ":" (trim pair) with
  | project :: repo :: _ =>
      if negb (String.eqb project EmptyString)
         && negb (String.eqb repo EmptyString)
      then assign (trim project) (JStr (trim repo)) fields
      else fields
  | _ => fields
  end.

Section Parse.

Context {rt : Runtime}.

(** [parseProjectMapping(projectMapStr)]: the mapping, and whether the
    [catch] has reported a failure on [console.error].  A value that is
    not a string has no [startsWith]: the call throws inside the [try]. *)
Definition parseProjectMapping (projectMapStr : json) : json * bool :=
  if truthy projectMapStr then
    match projectMapStr with
    | JStr s =>
        if starts_with "{" s then
          match JSON_parse s with
          | Some mapping => (mapping, false)
          | None => (JObj [], true)
          end
        else (JObj (fold_left addPair (split_on "," s) []), false)
    | _ => (JObj [], true)
    end
  else (JObj [], false).

End Parse.

(** *** The mapping, as the statements below speak of it *)

(** A project code or a repository as the format means them: not empty,
    without white space, comma or colon. *)
Definition plain_char (c : ascii) : bool :=
  negb (is_space c) && negb (Ascii.eqb c ",") && negb (Ascii.eqb c ":").

Definition plain (s : string) : bool :=
  negb (String.eqb s EmptyString) && YouTrack.all plain_char s.

(** A project code that can be a key: plain, not starting with a brace,
    and not [__proto__]. *)
Definition plain_key (s : string) : bool :=
  plain s && negb (starts_with "{" s) && negb (String.eqb s "__proto__").

(** The text [KEY:VALUE,KEY:VALUE,...] of a list of pairs. *)
Definition format (pairs : list (string * string)) : string :=
  join_with "," (map (fun kv => fst kv ++ ":" ++ snd kv) pairs).

(** The value of the last pair with the key. *)
Fixpoint last_of (key : string) (pairs : list (string * string))
    : option string :=
  match pairs with
  | [] => None
  | (k, v) :: rest =>
      match last_of key rest with
      | Some w => Some w
      | None => if String.eqb key k then Some v else None
      end
  end.

End ProjectMap.

(** ** Requests to YouTrack: [youtrack.lib.mjs] *)

Module Api.

(** What the module takes from outside: [new URL(text)] does not throw;
    [cleanErrorMessage] of [./lib.mjs]; [Object.keys]. *)
Class Platform : Type := {
  url_parses : string -> bool;
  cleanErrorMessage : JsError -> string;
  object_keys : json -> list string
}.

(** The configuration object; a property is a string or [undefined]. *)
Record Config : Type := mkConfig {
  url : option string;
  apiKey : option string;
  projectMap : option string;
  stage : option string
}.

(** A value in a template literal. *)
Definition shown_as (o : option string) : string :=
  match o with
  | Some s => s
  | None => "undefined"
  end.

(** [createYouTrackConfigFromEnv()], given [process.env]; [None] is
    [null]. *)
Definition createYouTrackConfigFromEnv (env : string -> option string)
    : option Config :=
  let config :=
    {| url := env "YOUTRACK_URL"; apiKey := env "YOUTRACK_API_KEY";
       projectMap := env "YOUTRACK_PROJECT_MAP";
       stage := env "YOUTRACK_STAGE" |} in
  if negb (given (url config)) || negb (given (apiKey config))
     || negb (given (projectMap config)) || negb (given (stage config))
  then None
  else Some config.

Section Validate.

Context {pf : Platform}.

(** [validateYouTrackConfig(config)]: it returns or throws. *)
Definition validateYouTrackConfig (config : option Config) : Completion unit :=
  match config with
  | None => Throw (Error "YouTrack configuration is required")
  | Some c =>
      if negb (given (url c)) then Throw (Error "YOUTRACK_URL is required")
      else if negb (given (apiKey c)) then
        Throw (Error "YOUTRACK_API_KEY is required")
      else if negb (given (projectMap c)) then
        Throw (Error ("YOUTRACK_PROJECT_MAP is required (format: "
                        ++ quoted "PROJECT:owner/repo" ++ " or "
                        ++ quoted "PROJ1:owner/repo1,PROJ2:owner/repo2" ++ ")"))
      else if negb (given (stage c)) then
        Throw (Error "YOUTRACK_STAGE is required")
      else if negb (url_parses (shown_as (url c))) then
        Throw (Error ("Invalid YOUTRACK_URL format: " ++ shown_as (url c)))
      else if negb (includes ".youtrack." (shown_as (url c))) then
        Throw (Error ("YouTrack URL should contain '.youtrack.': "
                        ++ shown_as (url c)))
      else Normal tt
  end.

End Validate.

(** *** [makeYouTrackRequest] *)

(** [s.endsWith('/')] *)
Fixpoint ends_with_slash (s : string) : bool :=
  match s with
  | EmptyString => false
  | String c EmptyString => Ascii.eqb c "/"
  | String _ r => ends_with_slash r
  end.

(** [s.slice(0, -1)] *)
Fixpoint drop_last (s : string) : string :=
  match s with
  | EmptyString => EmptyString
  | String _ EmptyString => EmptyString
  | String c r => String c (drop_last r)
  end.

Definition baseUrl (url : string) : string :=
  if ends_with_slash url then drop_last url else url.

Definition fullUrl (url endpoint : string) : string :=
  baseUrl url ++ "/api"
    ++ (if starts_with "/" endpoint then endpoint else "/" ++ endpoint).

(** The argument [options]: [method] when given, [body] ([null] when
    not), [headers]. *)
Record Options : Type := mkOptions {
  method : option string;
  body : json;
  headers : list (string * string)
}.

Definition noOptions : Options :=
  {| method := None; body := JNull; headers := [] |}.

(** The call [fetch(fullUrl, requestOptions)]; of a header given twice
    the last one counts. *)
Record Request : Type := mkRequest {
  req_url : string;
  req_method : string;
  req_headers : list (string * string);
  req_body : option string
}.

(** What a promise of the platform settles with: a value, or an error
    with its message. *)
Inductive Answer (A : Type) : Type :=
| Gives (a : A)
| FailsWith (message : string).
Arguments Gives {A} a.
Arguments FailsWith {A} message.

(** What the module reads of a response: [ok], [status], [text()],
    [headers.get('content-type')] and [json()]. *)
Record Response : Type := mkResponse {
  ok : bool;
  status : nat;
  text : Answer string;
  contentType : option string;
  parsed : Answer json
}.

(** The calls of [log], in order. *)
Definition Task (A : Type) : Type := Completion A * list LogMsg.

Definition finish {A} (a : A) : Task A := (Normal a, []).

Definition raise {A} (e : JsError) : Task A := (Throw e, []).

Definition next {A B} (t : Task A) (k : A -> Task B) : Task B :=
  match t with
  | (Normal a, said) => let (c, more) := k a in (c, (said ++ more)%list)
  | (Throw e, said) => (Throw e, said)
  end.

Definition note (label : string) (values : list json) : Task unit :=
  (Normal tt, [LogNote label values]).

(** [try { body } catch (error) { handler }] *)
Definition attempt {A} (body : Task A) (handler : JsError -> Task A) : Task A :=
  match body with
  | (Throw e, said) => let (c, more) := handler e in (c, (said ++ more)%list)
  | other => other
  end.

(** [error.message]; the errors caught in this module are made by
    [new Error(message)] or come from [fetch] and the response, and are
    kept by their message. *)
Definition message (e : JsError) : string :=
  match e with
  | Error m => m
  | SyntaxError => "SyntaxError"
  | TypeError => "TypeError"
  end.

Section Request.

Context {rt : Runtime} {pf : Platform}.

Variable verboseMode : bool.
Variable fetch : Request -> Answer Response.

Definition isWrite (m : string) : bool :=
  String.eqb m "POST" || String.eqb m "PUT" || String.eqb m "PATCH".

Definition requestOf (endpoint : string) (config : Config) (options : Options)
    : Request :=
  let m := match method options with Some m => m | None => "GET" end in
  {| req_url := fullUrl (shown_as (url config)) endpoint;
     req_method := m;
     req_headers :=
       app [("Authorization", "Bearer " ++ shown_as (apiKey config));
            ("Accept", "application/json");
            ("Content-Type", "application/json")] (headers options);
     req_body :=
       if truthy (body options) && isWrite m then
         Some (match body options with
               | JStr s => s
               | other => JSON_stringify other
               end)
       else None |}.

(** The [try] block. *)
Definition exchange (request : Request) : Completion json :=
  match fetch request with
  | FailsWith m => Throw (Error m)
  | Gives response =>
      if negb (ok response) then
        match text response with
        | Gives errorText =>
            Throw (Error ("YouTrack API error ("
                            ++ Reference.nat_text (status response) ++ "): "
                            ++ errorText))
        | FailsWith m => Throw (Error m)
        end
      else
        match contentType response with
        | Some ct =>
            if negb (String.eqb ct EmptyString)
               && includes "application/json" ct
            then match parsed response with
                 | Gives v => Normal v
                 | FailsWith m => Throw (Error m)
                 end
            else Normal (JObj [])
        | None => Normal (JObj [])
        end
  end.

(** The [catch] block. *)
Definition relabel (config : Config) (e : JsError) : JsError :=
  if includes "fetch" (message e) then
    Error ("Failed to connect to YouTrack at " ++ shown_as (url config)
             ++ ": " ++ message e)
  else e.

(** [makeYouTrackRequest(endpoint, config, options)]; a configuration
    without [url] makes [config.url.endsWith] throw before anything. *)
Definition makeYouTrackRequest (endpoint : string) (config : Config)
    (options : Options) : Task json :=
  match url config with
  | None => raise TypeError
  | Some _ =>
      let request := requestOf endpoint config options in
      next (if verboseMode
            then note "YouTrack API call:"
                   [JStr (req_method request); JStr (req_url request)]
            else finish tt)
        (fun _ =>
           match exchange request with
           | Normal v => finish v
           | Throw e => raise (relabel config e)
           end)
  end.

(** *** The exported calls *)

Definition validate (config : option Config) : Task unit :=
  (validateYouTrackConfig config, []).

(** [config.url] in the [catch] of [testYouTrackConnection]: reading a
    property of [null] throws. *)
Definition readUrl (config : option Config) : Task string :=
  match config with
  | Some c => finish (shown_as (url c))
  | None => raise TypeError
  end.

Definition testYouTrackConnection (config : option Config) : Task bool :=
  attempt
    (next (validate config) (fun _ =>
     match config with
     | None => raise TypeError
     | Some c =>
         next (note "Testing YouTrack connection to:"
                 [JStr (shown_as (url c))]) (fun _ =>
         let projectMapping :=
           fst (ProjectMap.parseProjectMapping
                  (match projectMap c with
                   | Some s => JStr s
                   | None => JNull
                   end)) in
         next (note "Projects:"
                 [JStr (join_with ", " (object_keys projectMapping))]) (fun _ =>
         next (note "Stage:" [JStr (shown_as (stage c))]) (fun _ =>
         next (makeYouTrackRequest "/users/me" c noOptions) (fun _ =>
         next (note "YouTrack connection successful:"
                 [JStr (shown_as (url c))]) (fun _ =>
         finish true)))))
     end))
    (fun error =>
       next (note "YouTrack connection failed:"
               [JStr (cleanErrorMessage error)]) (fun _ =>
       next (readUrl config) (fun u =>
       next (note "URL:" [JStr u]) (fun _ =>
       next (note "Endpoint tested: /api/users/me" []) (fun _ =>
       finish false))))).

(** The body of the two calls that post: validate, log, post, log. *)
Definition post (config : option Config) (endpoint : string) (data : json)
    (before after : LogMsg) (failed : JsError -> LogMsg) : Task bool :=
  attempt
    (next (validate config) (fun _ =>
     match config with
     | None => raise TypeError
     | Some c =>
         next (Normal tt, [before]) (fun _ =>
         next (makeYouTrackRequest endpoint c
                 {| method := Some "POST"; body := data; headers := [] |})
           (fun _ =>
         next (Normal tt, [after]) (fun _ =>
         finish true)))
     end))
    (fun error => next (Normal tt, [failed error]) (fun _ => finish false)).

Definition updateData (newStage : string) : json :=
  JObj [("customFields",
         JArr [JObj [("$type", JStr "StateIssueCustomField");
                     ("name", JStr "Stage");
                     ("value",
                      JObj [("$type", JStr "StateBundleElement");
                            ("name", JStr newStage)])]])].

Definition updateYouTrackIssueStage (issueId newStage : string)
    (config : option Config) : Task bool :=
  post config ("/issues/" ++ issueId) (updateData newStage)
    (LogNote "Updating YouTrack issue stage" [JStr issueId; JStr newStage])
    (LogNote "Updated YouTrack issue stage" [JStr issueId; JStr newStage])
    (fun error =>
       LogNote "Error updating YouTrack issue stage:"
         [JStr issueId; JStr (cleanErrorMessage error)]).

Definition commentData (comment : string) : json :=
  JObj [("text", JStr comment); ("usesMarkdown", JBool true)].

Definition addYouTrackComment (issueId comment : string)
    (config : option Config) : Task bool :=
  post config ("/issues/" ++ issueId ++ "/comments") (commentData comment)
    (LogNote "Adding comment to YouTrack issue" [JStr issueId])
    (LogNote "Added comment to YouTrack issue" [JStr issueId])
    (fun error =>
       LogNote "Error adding comment to YouTrack issue:"
         [JStr issueId; JStr (cleanErrorMessage error)]).

End Request.

(** *** The calls, as the statements below speak of them *)

(** The configuration passes [validateYouTrackConfig]. *)
Definition valid {pf : Platform} (config : option Config) : bool :=
  match validateYouTrackConfig config with
  | Normal _ => true
  | Throw _ => false
  end.

(** The request the call makes is answered without error. *)
Definition answered {rt : Runtime} {pf : Platform}
    (fetch : Request -> Answer Response) (request : Request) : bool :=
  match exchange fetch request with
  | Normal _ => true
  | Throw _ => false
  end.

End Api.

(** A platform for the examples: it takes for a URL what starts with
    [http://] or [https://], shows an error by its message and lists the
    keys of an object in the order of its members. *)
#[export] Instance SamplePlatform : Api.Platform :=
  {| Api.url_parses :=
       fun s => starts_with "http://" s || starts_with "https://" s;
     Api.cleanErrorMessage := Api.message;
     Api.object_keys :=
       fun v => match v with
                | JObj fields => map fst fields
                | _ => []
                end |}.

Definition sampleConfig : Api.Config :=
  {| Api.url := Some "https://acme.youtrack.cloud";
     Api.apiKey := Some "perm:token";
     Api.projectMap := Some "PAG:acme/web";
     Api.stage := Some "Ready" |}.

(** A server that answers every request with status 502 and a text that
    mentions [fetch]. *)
Definition badGateway (request : Api.Request) : Api.Answer Api.Response :=
  Api.Gives {| Api.ok := false; Api.status := 502;
               Api.text := Api.Gives "upstream fetch timed out";
               Api.contentType := Some "text/plain";
               Api.parsed := Api.FailsWith "Unexpected token u in JSON" |}.

(** The environment that sets the four variables of [sampleConfig]. *)
Definition sampleEnv (name : string) : option string :=
  if String.eqb name "YOUTRACK_URL" then Api.url sampleConfig
  else if String.eqb name "YOUTRACK_API_KEY" then Api.apiKey sampleConfig
  else if String.eqb name "YOUTRACK_PROJECT_MAP" then Api.projectMap sampleConfig
  else if String.eqb name "YOUTRACK_STAGE" then Api.stage sampleConfig
  else None.

(** ** One issue: [getYouTrackIssue] *)

Module IssueApi.

Import Api.

(** [a || b] on two values that may be [undefined]. *)
Definition or_else (a b : option json) : option json :=
  if truthy_opt a then a else b.

(** [a || 'text'] *)
Definition or_text (a : option json) (text : string) : json :=
  match a with
  | Some v => if truthy v then v else JStr text
  | None => JStr text
  end.

(** [new Date(value)] and [new Date()]. *)
Inductive DateValue : Type :=
| DateOf (value : json)
| Now.

(** The object the call returns; [d_reporter] may be [undefined]. *)
Record Details : Type := mkDetails {
  d_id : option json;
  d_idReadable : option json;
  d_summary : json;
  d_description : json;
  d_stage : json;
  d_url : string;
  d_reporter : option json;
  d_assignee : option json;
  d_created : DateValue;
  d_updated : DateValue
}.

(** [customFields.find(field => field.name === 'State' ||
    field.name === 'Stage')]: reading [name] of a [null] element
    throws. *)
Fixpoint findState (items : list json) : Completion (option json) :=
  match items with
  | [] => Normal None
  | item :: rest =>
      match item with
      | JNull => Throw TypeError
      | _ =>
          if is_str "State" (field item "name")
             || is_str "Stage" (field item "name")
          then Normal (Some item)
          else findState rest
      end
  end.

(** [stateField && stateField.value && stateField.value.name], when it
    is truthy. *)
Definition stageName (stateField : option json) : option json :=
  match stateField with
  | Some item =>
      match field item "value" with
      | Some value =>
          if truthy value then
            match field value "name" with
            | Some name => if truthy name then Some name else None
            | None => None
            end
          else None
      | None => None
      end
  | None => None
  end.

(** [let currentStage = 'Unknown'; if (...) { ... }] *)
Definition currentStage (issue : json) : Completion json :=
  match field issue "customFields" with
  | Some (JArr items) =>
      match findState items with
      | Normal stateField =>
          Normal (match stageName stateField with
                  | Some name => name
                  | None => JStr "Unknown"
                  end)
      | Throw e => Throw e
      end
  | _ => Normal (JStr "Unknown")
  end.

(** [issue.reporter ? (issue.reporter.fullName || issue.reporter.login)
    : otherwise] *)
Definition person (who : option json) (otherwise : json) : option json :=
  match who with
  | Some w =>
      if truthy w then or_else (field w "fullName") (field w "login")
      else Some otherwise
  | None => Some otherwise
  end.

Definition dateOf (value : option json) : DateValue :=
  match value with
  | Some v => if truthy v then DateOf v else Now
  | None => Now
  end.

Definition fieldsQuery : string :=
  "?fields=id,idReadable,summary,description,created,updated,"
    ++ "reporter(login,fullName),assignee(login,fullName),"
    ++ "customFields(name,value(name))".

Section Get.

Context {rt : Runtime} {pf : Platform}.

Variable verboseMode : bool.
Variable fetch : Request -> Answer Response.
(** [String(value)], as a template literal shows a value. *)
Variable to_text : json -> string.

Definition shown_id (v : option json) : string :=
  match v with
  | Some (JStr s) => s
  | Some other => to_text other
  | None => "undefined"
  end.

(** The object literal [transformedIssue]. *)
Definition transform (c : Config) (issue stage : json) : Details :=
  let readable := or_else (field issue "idReadable") (field issue "id") in
  {| d_id := readable;
     d_idReadable := readable;
     d_summary := or_text (field issue "summary") "No title";
     d_description := or_text (field issue "description") EmptyString;
     d_stage := stage;
     d_url := shown_as (url c) ++ "/issue/" ++ shown_id readable;
     d_reporter := person (field issue "reporter") (JStr "Unknown");
     d_assignee := person (field issue "assignee") JNull;
     d_created := dateOf (field issue "created");
     d_updated := dateOf (field issue "updated") |}.

(** [getYouTrackIssue(issueId, config)]; [None] is [null]. *)
Definition getYouTrackIssue (issueId : string) (config : option Config)
    : Task (option Details) :=
  attempt
    (next (validate config) (fun _ =>
     match config with
     | None => raise TypeError
     | Some c =>
         next (note "Fetching YouTrack issue details:" [JStr issueId]) (fun _ =>
         next (makeYouTrackRequest verboseMode fetch
                 ("/issues/" ++ issueId ++ fieldsQuery) c noOptions)
           (fun issue =>
         if negb (truthy issue) || negb (truthy_opt (field issue "id")) then
           next (note "YouTrack issue not found:" [JStr issueId]) (fun _ =>
           finish None)
         else
           next (currentStage issue, []) (fun stage =>
           let transformedIssue := transform c issue stage in
           next (note "Retrieved YouTrack issue:"
                   [JStr (shown_id (d_id transformedIssue));
                    d_summary transformedIssue]) (fun _ =>
           finish (Some transformedIssue)))))
     end))
    (fun error =>
       next (note "Error fetching YouTrack issue:"
               [JStr issueId; JStr (cleanErrorMessage error)]) (fun _ =>
       finish None)).

End Get.

(** *** The call, as the statements below speak of it *)

(** [s] contains [literal], letters compared without case. *)
Fixpoint includes_ci (literal s : string) : bool :=
  YouTrack.starts_with_ci literal s
  || match s with
     | EmptyString => false
     | String _ r => includes_ci literal r
     end.

End IssueApi.

(** The server answers every request with the issue [pag-45], whose
    state is [Open]. *)
Definition oneIssue (request : Api.Request) : Api.Answer Api.Response :=
  Api.Gives
         {| Api.ok := true; Api.status := 200; Api.text := Api.Gives EmptyString;
            Api.contentType := Some "application/json;charset=UTF-8";
            Api.parsed :=
              Api.Gives (JObj [("id", JStr "2-45"); ("idReadable", JStr "pag-45");
                            ("summary", JStr "Fix login");
                            ("customFields",
                             JArr [JObj [("name", JStr "Priority");
                                         ("value", JObj [("name", JStr "Major")])];
                                   JObj [("name", JStr "State");
                                         ("value", JObj [("name", JStr "Open")])]])]) |}.

(** * Proofs *)

(** ** Splitting and framing *)

Lemma split_nl_not_nil (s : string) : split_nl s <> [].
Proof.
  destruct s as [|c r]; simpl; [discriminate|].
  destruct (Ascii.eqb c nl); [discriminate|].
  destruct (split_nl r); discriminate.
Qed.

Lemma split_nl_cons (c : ascii) (r : string) :
  Ascii.eqb c nl = false ->
  split_nl (String c r) = String c (hd EmptyString (split_nl r)) :: tl (split_nl r).
Proof.
  intros H. simpl. rewrite H.
  destruct (split_nl r) eqn:E; [now apply split_nl_not_nil in E|reflexivity].
Qed.

(** Splitting a concatenation: the complete lines of the first part, then
    the split of its last piece followed by the second part. *)
Lemma split_nl_app (a b : string) :
  split_nl (a ++ b) =
  (removelast (split_nl a) ++ split_nl (last_or_empty (split_nl a) ++ b))%list.
Proof.
  unfold last_or_empty.
  induction a as [|c r IH]; [reflexivity|].
  change (String c r ++ b) with (String c (r ++ b)).
  destruct (Ascii.eqb c nl) eqn:Hc.
  - simpl. rewrite Hc.
    destruct (split_nl r) as [|h t] eqn:E; [now apply split_nl_not_nil in E|].
    rewrite IH. reflexivity.
  - rewrite !split_nl_cons by assumption. rewrite IH.
    destruct (split_nl r) as [|h t] eqn:E; [now apply split_nl_not_nil in E|].
    destruct t as [|x t'].
    + cbn [removelast last hd tl app].
      change (String c h ++ b) with (String c (h ++ b)).
      rewrite split_nl_cons by assumption. reflexivity.
    + cbn [removelast last hd tl app]. reflexivity.
Qed.

Lemma append_assoc (a b c : string) : (a ++ b) ++ c = a ++ (b ++ c).
Proof. induction a as [|x a IH]; simpl; [reflexivity|now rewrite IH]. Qed.

Lemma append_empty_r (a : string) : a ++ EmptyString = a.
Proof. induction a as [|x a IH]; simpl; [reflexivity|now rewrite IH]. Qed.

Lemma removelast_app_not_nil {A} (l l' : list A) :
  l' <> [] -> removelast (l ++ l') = (l ++ removelast l')%list.
Proof. intros H. now apply removelast_app. Qed.

Lemma last_app_not_nil {A} (l l' : list A) (d : A) :
  l' <> [] -> last (l ++ l') d = last l' d.
Proof.
  intros H. induction l as [|x l IH]; [reflexivity|].
  simpl. destruct (l ++ l')%list eqn:E.
  - apply app_eq_nil in E. now destruct E.
  - exact IH.
Qed.

Lemma frames_cons (rest : list string) (output buffer : string) :
  Spawn.frames buffer (output :: rest) =
  (removelast (split_nl (buffer ++ concat_all (output :: rest))),
   last_or_empty (split_nl (buffer ++ concat_all (output :: rest)))).
Proof.
  revert output buffer.
  induction rest as [|c rest IH]; intros output buffer.
  - simpl. rewrite append_empty_r, app_nil_r. reflexivity.
  - change (Spawn.frames buffer (output :: c :: rest))
      with (let (lines, kept) := Spawn.frame buffer output in
            let (more, final) := Spawn.frames kept (c :: rest) in
            ((lines ++ more)%list, final)).
    unfold Spawn.frame. cbv zeta. rewrite IH.
    change (concat_all (output :: c :: rest))
      with (output ++ concat_all (c :: rest)).
    rewrite <- append_assoc.
    rewrite (split_nl_app (buffer ++ output)).
    rewrite removelast_app_not_nil by apply split_nl_not_nil.

    unfold last_or_empty.
    rewrite last_app_not_nil by apply split_nl_not_nil.
    reflexivity.
Qed.

(** From an empty buffer the spawn variant frames, chunk by chunk, what
    [split] gives on the whole text. *)
Lemma frames_split (chunks : list string) :
  Spawn.frames EmptyString chunks =
  (removelast (split_nl (concat_all chunks)),
   last_or_empty (split_nl (concat_all chunks))).
Proof.
  destruct chunks as [|c rest]; [reflexivity|].
  apply (frames_cons rest c EmptyString).
Qed.

(** ** Substrings *)

Lemma starts_with_app (x rest : string) : starts_with x (x ++ rest) = true.
Proof.
  induction x as [|c x IH]; [reflexivity|].
  simpl. now rewrite Ascii.eqb_refl, IH.
Qed.

(** A text includes what it starts with. *)
Lemma includes_front (x rest : string) : includes x (x ++ rest) = true.
Proof.
  destruct x as [|c x]; [destruct rest; reflexivity|].
  change (String c x ++ rest) with (String c (x ++ rest)).
  unfold includes; fold includes.
  change (String c (x ++ rest)) with (String c x ++ rest).
  now rewrite starts_with_app.
Qed.

(** A text includes what the text after a prefix includes. *)
Lemma includes_after (x before s : string) :
  includes x s = true -> includes x (before ++ s) = true.
Proof.
  intros H. induction before as [|c b IH]; [exact H|].
  simpl. rewrite IH. apply orb_true_r.
Qed.

(** ** A program logic for [Step] *)

Section Respects.

Context (R : RunState -> RunState -> Prop) {R_preorder : PreOrder R}.

Lemma respects_ret {A} (a : A) : respects R (ret a).
Proof. intros st. reflexivity. Qed.

Lemma respects_throw {A} (e : JsError) : respects R (@throw A e).
Proof. intros st. reflexivity. Qed.

Lemma respects_gets {A} (f : RunState -> A) : respects R (gets f).
Proof. intros st. reflexivity. Qed.

Lemma respects_modify (f : RunState -> RunState) :
  (forall st, R st (f st)) -> respects R (modify f).
Proof. intros H st. apply H. Qed.

Lemma respects_log (m : LogMsg) :
  (forall st, R st (add_log m st)) -> respects R (log m).
Proof. intros H st. apply H. Qed.

Lemma respects_bind {A B} (c : Step A) (k : A -> Step B) :
  respects R c -> (forall a, respects R (k a)) -> respects R (bind c k).
Proof.
  intros Hc Hk st. unfold bind.
  specialize (Hc st). destruct (c st) as [[a|e] st']; simpl in *.
  - etransitivity; [exact Hc|apply Hk].
  - exact Hc.
Qed.

Lemma respects_try_catch (body handler : Step unit) :
  respects R body -> respects R handler ->
  respects R (try_catch body handler).
Proof.
  intros Hb Hh st. unfold try_catch.
  specialize (Hb st). destruct (body st) as [[[]|e] st']; simpl in *.
  - exact Hb.
  - etransitivity; [exact Hb|apply Hh].
Qed.

Lemma respects_when (b : bool) (c : Step unit) :
  respects R c -> respects R (when b c).
Proof. intros H. destruct b; [exact H|apply respects_ret]. Qed.

Lemma respects_for_each {A} (body : A -> Step unit) (l : list A) :
  (forall x, respects R (body x)) -> respects R (for_each body l).
Proof.
  intros H. induction l as [|x l IH]; simpl.
  - apply respects_ret.
  - apply respects_bind; [apply H|intros _; exact IH].
Qed.

End Respects.

(** One rule of the logic, or a case distinction on what the block
    branches on. *)
Ltac respects_step :=
  lazymatch goal with
  | |- PreOrder _ => exact _
  | |- respects _ (bind _ _) => apply respects_bind; [exact _| |intros]
  | |- respects _ (ret _) => apply respects_ret; exact _
  | |- respects _ (throw _) => apply respects_throw; exact _
  | |- respects _ (gets _) => apply respects_gets; exact _
  | |- respects _ (when _ _) => apply respects_when; [exact _|]
  | |- respects _ (try_catch _ _) => apply respects_try_catch; [exact _| |]
  | |- respects _ (for_each _ _) => apply respects_for_each; [exact _|intros]
  | |- respects _ (if ?b then _ else _) => destruct b
  | |- respects _ (match ?x with _ => _ end) => destruct x
  end.

#[local] Instance keeps_preorder {A} (f : RunState -> A) : PreOrder (keeps f).
Proof.
  split.
  - intros st. reflexivity.
  - intros a b c Hab Hbc. unfold keeps in *. congruence.
Qed.

#[local] Instance trace_grows_preorder : PreOrder trace_grows.
Proof.
  split.
  - intros st. exists []. now rewrite app_nil_r.
  - intros a b c [m1 H1] [m2 H2]. exists (m1 ++ m2)%list.
    now rewrite H2, H1, app_assoc.
Qed.

#[local] Instance limit_needs_failure_preorder : PreOrder limit_needs_failure.
Proof.
  split.
  - intros st H. exact H.
  - intros a b c Hab Hbc H. apply Hbc, Hab, H.
Qed.

Ltac grows_tac :=
  repeat respects_step;
  try (apply respects_modify; intros st; exists []; simpl;
       now rewrite app_nil_r);
  try (apply respects_log; intros st; eexists; reflexivity).

Lemma announcements_add_log (m : LogMsg) (st : RunState) :
  announcements (logged (add_log m st)) =
  (if is_session_announcement m then 1 else 0) + announcements (logged st).
Proof.
  unfold announcements. simpl. rewrite filter_app, length_app. simpl.
  destruct (is_session_announcement m); simpl; lia.
Qed.

Lemma raw_events_add_log (m : LogMsg) (st : RunState) :
  raw_events (logged (add_log m st)) =
  (if is_raw m then 1 else 0) + raw_events (logged st).
Proof.
  unfold raw_events. simpl. rewrite filter_app, length_app. simpl.
  destruct (is_raw m); simpl; lia.
Qed.

Lemma session_view_add_log (m : LogMsg) (st : RunState) :
  is_session_announcement m = false ->
  session_view (add_log m st) = session_view st.
Proof.
  intros H. unfold session_view. rewrite announcements_add_log, H. reflexivity.
Qed.

(** Breaks a block into the rules of the logic and closes what the
    assignments and the calls of [log] leave. *)
Ltac keeps_tac :=
  repeat respects_step;
  try (apply respects_modify; intros; reflexivity);
  try (apply respects_log; intros;
       first [reflexivity | apply session_view_add_log; reflexivity]).

Section LinesFacts.

Context {rt : Runtime}.

(** *** What the processing of a line leaves alone *)

Lemma decodeOrRaw_keeps_flags (a : Argv) (line : string) :
  respects (keeps flags) (decodeOrRaw a line).
Proof.
  unfold decodeOrRaw, decodeLine, rawLine, parse,
    captureSessionId, trackCounts, formatOutput, toolDetail, toolResult, prop.
  keeps_tac.
Qed.

Lemma processLines_keeps_flags (a : Argv) (lines : list string) :
  respects (keeps flags) (processLines a lines).
Proof.
  unfold processLines, processLine. keeps_tac. apply decodeOrRaw_keeps_flags.
Qed.

Lemma rawLine_keeps_session (line : string) :
  respects (keeps session_view) (rawLine line).
Proof. unfold rawLine. keeps_tac. Qed.

Lemma rawLine_keeps_tally (line : string) :
  respects (keeps tally) (rawLine line).
Proof. unfold rawLine. keeps_tac. Qed.

Lemma trackCounts_keeps_session (data : json) :
  respects (keeps session_view) (trackCounts data).
Proof. unfold trackCounts, prop. keeps_tac. Qed.

Lemma formatOutput_keeps_session (a : Argv) (data : json) :
  respects (keeps session_view) (formatOutput a data).
Proof. unfold formatOutput, toolDetail, toolResult. keeps_tac. Qed.

(** *** Nothing escapes the processing of a line *)

Lemma rawLine_normal (line : string) (st : RunState) :
  fst (rawLine line st) = Normal tt.
Proof.
  unfold rawLine.
  destruct (trim_nonempty line && negb (includes "node:internal" line));
    reflexivity.
Qed.

Lemma decodeOrRaw_normal (a : Argv) (line : string) (st : RunState) :
  fst (decodeOrRaw a line st) = Normal tt.
Proof.
  unfold decodeOrRaw, try_catch.
  destruct (decodeLine a line st) as [[[]|e] st']; [reflexivity|].
  apply rawLine_normal.
Qed.

Lemma processLine_normal (a : Argv) (line : string) (st : RunState) :
  fst (processLine a line st) = Normal tt.
Proof.
  unfold processLine. destruct (trim_nonempty line); [|reflexivity].
  apply decodeOrRaw_normal.
Qed.

Lemma for_each_normal {A} (body : A -> Step unit) (l : list A) :
  (forall x st, fst (body x st) = Normal tt) ->
  forall st, fst (for_each body l st) = Normal tt.
Proof.
  intros H. induction l as [|x l IH]; intros st; [reflexivity|].
  simpl. unfold bind. specialize (H x st).
  destruct (body x st) as [[[]|e] st']; simpl in H; [apply IH|discriminate].
Qed.

Lemma for_each_app {A} (body : A -> Step unit) (l l' : list A) :
  (forall x st, fst (body x st) = Normal tt) ->
  forall st,
    snd (for_each body (l ++ l')%list st) =
    snd (for_each body l' (snd (for_each body l st))).
Proof.
  intros H. induction l as [|x l IH]; intros st; [reflexivity|].
  simpl. unfold bind. specialize (H x st).
  destruct (body x st) as [[[]|e] st']; simpl in H; [apply IH|discriminate].
Qed.

Lemma processLines_normal (a : Argv) (lines : list string) (st : RunState) :
  fst (processLines a lines st) = Normal tt.
Proof. apply for_each_normal. apply processLine_normal. Qed.

Lemma processLines_app (a : Argv) (l l' : list string) (st : RunState) :
  snd (processLines a (l ++ l')%list st) =
  snd (processLines a l' (snd (processLines a l st))).
Proof. apply for_each_app. apply processLine_normal. Qed.

(** *** The session id *)

Lemma keeps_after_bind {A B C} (f : RunState -> C) (c : Step A)
    (k : A -> Step B) :
  (forall a, respects (keeps f) (k a)) ->
  forall st, f (snd (bind c k st)) = f (snd (c st)).
Proof.
  intros H st. unfold bind. destruct (c st) as [[a|e] st']; [|reflexivity].
  apply H.
Qed.

Lemma keeps_after_try_catch {C} (f : RunState -> C) (body handler : Step unit) :
  respects (keeps f) handler ->
  forall st, f (snd (try_catch body handler st)) = f (snd (body st)).
Proof.
  intros H st. unfold try_catch.
  destruct (body st) as [[[]|e] st']; [reflexivity|]. apply H.
Qed.

Lemma captureSessionId_session (data : json) (st : RunState) :
  session_view (snd (captureSessionId data st)) =
  if truthy (sessionId st) then session_view st else capture data st.
Proof.
  unfold captureSessionId, capture, bind, gets, prop.
  destruct (truthy (sessionId st)) eqn:Hsid; [reflexivity|].
  destruct data; try reflexivity.
  simpl. destruct (obj_get "session_id" fields) as [id|]; [|reflexivity].
  destruct (truthy id); [|reflexivity].
  unfold when, bind, modify, log, session_view. simpl. f_equal.
  change (logged st ++ [LogSessionId id])%list
    with (logged (add_log (LogSessionId id) st)).
  apply announcements_add_log.
Qed.

Lemma decodeOrRaw_session (a : Argv) (line : string) (st : RunState) :
  session_view (snd (decodeOrRaw a line st)) =
  if truthy (sessionId st) then session_view st
  else match JSON_parse line with
       | Some data => capture data st
       | None => session_view st
       end.
Proof.
  unfold decodeOrRaw.
  rewrite keeps_after_try_catch by apply rawLine_keeps_session.
  unfold decodeLine, parse.
  destruct (JSON_parse line) as [data|].
  - unfold bind at 1. simpl.
    rewrite keeps_after_bind.
    + apply captureSessionId_session.
    + intros _. apply respects_bind; [exact _| |intros _].
      * apply trackCounts_keeps_session.
      * apply formatOutput_keeps_session.
  - simpl. destruct (truthy (sessionId st)); reflexivity.
Qed.

Lemma processLine_session (a : Argv) (line : string) (st : RunState) :
  session_view (snd (processLine a line st)) =
  if truthy (sessionId st) then session_view st
  else match carried line with
       | Some id => (id, S (announcements (logged st)))
       | None => session_view st
       end.
Proof.
  unfold processLine, carried.
  destruct (trim_nonempty line).
  - rewrite decodeOrRaw_session. unfold capture.
    destruct (truthy (sessionId st)); [reflexivity|].
    destruct (JSON_parse line) as [data|]; [|reflexivity].
    destruct (field data "session_id") as [id|]; [|reflexivity].
    destruct (truthy id); reflexivity.
  - simpl. destruct (truthy (sessionId st)); reflexivity.
Qed.

Lemma carried_truthy (line : string) (id : json) :
  carried line = Some id -> truthy id = true.
Proof.
  unfold carried. destruct (trim_nonempty line); [|discriminate].
  destruct (JSON_parse line) as [data|]; [|discriminate].
  destruct (field data "session_id") as [v|]; [|discriminate].
  destruct (truthy v) eqn:Hv; [|discriminate].
  intros H. injection H as <-. exact Hv.
Qed.

Lemma processLines_session (a : Argv) (lines : list string) (st : RunState) :
  session_view (snd (processLines a lines st)) =
  if truthy (sessionId st) then session_view st
  else match first_carried lines with
       | Some id => (id, S (announcements (logged st)))
       | None => session_view st
       end.
Proof.
  revert st. induction lines as [|line rest IH]; intros st.
  - simpl. destruct (truthy (sessionId st)); reflexivity.
  - change (processLines a (line :: rest))
      with (bind (processLine a line) (fun _ => processLines a rest)).
    unfold bind.
    pose proof (processLine_normal a line st) as Hn.
    pose proof (processLine_session a line st) as Hs.
    destruct (processLine a line st) as [[[]|e] st1]; simpl in Hn, Hs;
      [|discriminate].
    rewrite IH. simpl first_carried.
    destruct (truthy (sessionId st)) eqn:Hsid.
    + unfold session_view in Hs. injection Hs as Hs1 Hs2.
      rewrite Hs1, Hsid. unfold session_view. now rewrite Hs1, Hs2.
    + destruct (carried line) as [id|] eqn:Hc.
      * unfold session_view in Hs. injection Hs as Hs1 Hs2.
        rewrite Hs1, (carried_truthy _ _ Hc).
        unfold session_view. now rewrite Hs1, Hs2.
      * unfold session_view in Hs. injection Hs as Hs1 Hs2.
        rewrite Hs1, Hsid. unfold session_view.
        destruct (first_carried rest); now rewrite ?Hs1, ?Hs2.
Qed.


End LinesFacts.

(** ** The end of the function *)

Lemma result_of_core (b : bool) (st st' : RunState) :
  core st' = core st -> result_of b st' = result_of b st.
Proof.
  unfold core, result_of. intros H. injection H as _ H2 H3 H4 H5 _.
  now rewrite H2, H3, H4, H5.
Qed.

Lemma resultObject_spec (b : bool) (st : RunState) :
  resultObject b st = (Normal (result_of b st), st).
Proof. reflexivity. Qed.

Lemma logResources_spec (r : Snapshot) (st : RunState) :
  exists st', logResources r st = (Normal tt, st') /\ core st' = core st.
Proof. eexists. split; reflexivity. Qed.

(** [conclude] returns: failure when [commandFailed] is set, success
    otherwise; it changes the trace only. *)
Lemma conclude_spec (p : Params) (st : RunState) :
  exists st',
    conclude p st = (Normal (result_of (negb (commandFailed st)) st), st')
    /\ core st' = core st.
Proof.
  unfold conclude, bind, gets. simpl.
  destruct (commandFailed st) eqn:Hf; simpl.
  - destruct (attachLogs (argv p) && truthy (sessionId st));
      simpl; eexists; (split; [reflexivity|]);
      unfold core; simpl; rewrite Hf; reflexivity.
  - eexists. split; [reflexivity|]. unfold core; simpl. rewrite Hf. reflexivity.
Qed.

Lemma conclude_grows (p : Params) : respects trace_grows (conclude p).
Proof. unfold conclude, logResources, resultObject. grows_tac. Qed.

Lemma conclude_keeps_raw (p : Params) :
  respects (keeps (fun st => raw_events (logged st))) (conclude p).
Proof.
  unfold conclude, logResources, resultObject.
  repeat respects_step;
    try (apply respects_modify; intros; reflexivity);
    apply respects_log; intros st; unfold keeps;
    rewrite raw_events_add_log; reflexivity.
Qed.

Lemma conclude_keeps_last (p : Params) (st : RunState) :
  lastMessage (snd (conclude p st)) = lastMessage st.
Proof.
  destruct (conclude_spec p st) as (st' & E & H). rewrite E. simpl.
  unfold core in H. now injection H as _ _ _ _ _ H6.
Qed.

(** Whatever runs before it, [conclude] returns an object of the five
    fields, read off the state the call ends in. *)
Lemma then_conclude (c : Step unit) (p : Params) (st st' : RunState)
    (r : json) :
  outcome_of (bind c (fun _ => conclude p) st) = (Returned r, st') ->
  exists b, r = result_of b st'.
Proof.
  unfold bind. destruct (c st) as [[[]|e] st1]; [|discriminate].
  destruct (conclude_spec p st1) as (st2 & E & Hc). rewrite E. simpl.
  intros H. injection H as <- <-.
  eexists. symmetry. apply result_of_core. exact Hc.
Qed.

Lemma announce_spec (p : Params) (st : RunState) :
  exists st', announce p st = (Normal tt, st') /\ core st' = core st.
Proof.
  unfold announce, bind, when, log, modify, logResources. simpl.
  destruct (verbose (argv p)); simpl.
  - destruct (feedbackLines p) as [[|l ls]|]; simpl;
      eexists; split; reflexivity.
  - eexists; split; reflexivity.
Qed.

Lemma logResume_spec (p : Params) (st : RunState) :
  exists st', logResume p st = (Normal tt, st') /\ core st' = core st.
Proof.
  unfold logResume. destruct (resume (argv p)) as [r|].
  - destruct (negb (String.eqb r EmptyString)); eexists; split; reflexivity.
  - eexists; split; reflexivity.
Qed.

Lemma logCommandDetails_spec (p : Params) (st : RunState) :
  exists st', logCommandDetails p st = (Normal tt, st') /\ core st' = core st.
Proof.
  unfold logCommandDetails, bind, log, modify. simpl.
  destruct (fork (argv p) && given (forkedRepo p)); eexists; split; reflexivity.
Qed.

(** ** The classification *)

Section ClassifyFacts.

Context {rt : Runtime}.

Lemma classifyFailure_sets_failed (a : Argv) (info : list json) (st : RunState) :
  commandFailed (snd (classifyFailure a info st)) = true
  /\ observed (snd (classifyFailure a info st)) = observed st.
Proof.
  pose (f := fun st => (commandFailed st, observed st)).
  assert (H : f (snd (classifyFailure a info st)) = (true, observed st)).
  { unfold classifyFailure.
    rewrite (keeps_after_bind f); [reflexivity|].
    intros _. unfold hitRateLimit, js_includes. keeps_tac. }
  unfold f in H. now apply pair_equal_spec in H.
Qed.

(** On a last message that is a string the classification completes; the
    limit flag is raised exactly for the rate-limit markers, and the
    context-overflow marker is looked for only without them. *)
Lemma classifyFailure_string (a : Argv) (info : list json) (st : RunState)
    (s : string) :
  lastMessage st = JStr s ->
  exists st',
    classifyFailure a info st = (Normal tt, st')
    /\ limitReached st' = (rate_limit_marker s || limitReached st)
    /\ (rate_limit_marker s = false -> context_marker s = true ->
        logged st' = (logged st ++ [contextNote])%list).
Proof.
  intros Hs. unfold classifyFailure, hitRateLimit, bind, gets, modify.
  simpl. rewrite Hs. unfold js_includes, ret, rate_limit_marker, context_marker.
  destruct (includes "rate_limit_exceeded" s); simpl.
  { destruct (truthy (sessionId st)); simpl;
      eexists; (split; [reflexivity|]); split;
      [reflexivity|discriminate|reflexivity|discriminate]. }
  destruct (includes "You have exceeded your rate limit" s); simpl.
  { destruct (truthy (sessionId st)); simpl;
      eexists; (split; [reflexivity|]); split;
      [reflexivity|discriminate|reflexivity|discriminate]. }
  destruct (includes "rate limit" s); simpl.
  { destruct (truthy (sessionId st)); simpl;
      eexists; (split; [reflexivity|]); split;
      [reflexivity|discriminate|reflexivity|discriminate]. }
  rewrite Hs.
  destruct (includes "context_length_exceeded" s); simpl.
  { eexists. split; [reflexivity|]. split; [reflexivity|]. reflexivity. }
  destruct (truthy (sessionId st) && negb (given (resume a))); simpl;
    eexists; (split; [reflexivity|]); split;
    [reflexivity|discriminate|reflexivity|discriminate].
Qed.

Lemma classifyFailure_keeps_last (a : Argv) (info : list json) (st : RunState) :
  lastMessage (snd (classifyFailure a info st)) = lastMessage st.
Proof.
  pose proof (classifyFailure_sets_failed a info st) as [_ H].
  unfold observed in H. now injection H as _ _ _ H4.
Qed.

Lemma classifyFailure_limit (a : Argv) (info : list json) :
  respects limit_needs_failure (classifyFailure a info).
Proof.
  intros st _ _. apply classifyFailure_sets_failed.
Qed.

Lemma classifyFailure_keeps_raw (a : Argv) (info : list json) :
  respects (keeps (fun st => raw_events (logged st))) (classifyFailure a info).
Proof.
  unfold classifyFailure, hitRateLimit, js_includes.
  repeat respects_step;
    try (apply respects_modify; intros; reflexivity);
    apply respects_log; intros st; unfold keeps;
    rewrite raw_events_add_log; reflexivity.
Qed.

(** A completed classification of a text with a rate-limit marker has
    raised the limit flag. *)
Lemma classified_rate_limit (a : Argv) (info : list json) (st st1 : RunState)
    (s : string) :
  lastMessage st = JStr s ->
  classifyFailure a info st = (Normal tt, st1) ->
  rate_limit_marker s = true ->
  limitReached st1 = true.
Proof.
  intros Hlast E1 Hm.
  destruct (classifyFailure_string a info st s Hlast) as (st1' & E1' & Hlim & _).
  rewrite E1 in E1'. injection E1' as <-. now rewrite Hlim, Hm.
Qed.

(** A completed classification of a text with the context-overflow
    marker and no rate-limit marker has left the limit flag down and has
    logged the context-overflow message. *)
Lemma classified_context (a : Argv) (info : list json) (st st1 : RunState)
    (s : string) :
  lastMessage st = JStr s ->
  limitReached st = false ->
  classifyFailure a info st = (Normal tt, st1) ->
  rate_limit_marker s = false ->
  context_marker s = true ->
  limitReached st1 = false /\ In contextNote (logged st1).
Proof.
  intros Hlast Hl E1 Hm Hctx.
  destruct (classifyFailure_string a info st s Hlast)
    as (st1' & E1' & Hlim & Hlog).
  rewrite E1 in E1'. injection E1' as <-. split.
  - now rewrite Hlim, Hm, Hl.
  - rewrite (Hlog Hm Hctx). apply in_or_app. right. now left.
Qed.

End ClassifyFacts.

(** ** Async functions run without a break *)

Lemma finish_advance {A} (t : Async A) (st : RunState) :
  finish t st =
  match advance t st with
  | (Done c, st') => (c, st')
  | (Parked k, st') => finish k st'
  end.
Proof.
  revert st. induction t as [c|k IH|f k IH|k IH]; intros st; simpl; auto.
Qed.

Lemma finish_bind {A B} (t : Async A) (k : A -> Async B) (st : RunState) :
  finish (Interleaved.bind t k) st = bind (finish t) (fun a => finish (k a)) st.
Proof.
  revert st. induction t as [[a|e]|r IH|f t IH|t IH]; intros st; simpl;
    try reflexivity.
  - apply IH.
  - apply IH.
  - apply IH.
Qed.

Lemma finish_try_catch (body handler : Async unit) (st : RunState) :
  finish (Interleaved.try_catch body handler) st
  = try_catch (finish body) (finish handler) st.
Proof.
  revert st. induction body as [[[]|e]|r IH|f t IH|t IH]; intros st; simpl;
    try reflexivity.
  - apply IH.
  - apply IH.
  - apply IH.
Qed.

Section Agrees.

Lemma agrees_ret {A} (a : A) : agrees (Interleaved.ret a) (ret a).
Proof. intros st. reflexivity. Qed.

Lemma agrees_throw {A} (e : JsError) :
  agrees (@Interleaved.throw A e) (throw e).
Proof. intros st. reflexivity. Qed.

Lemma agrees_gets {A} (f : RunState -> A) : agrees (Interleaved.gets f) (gets f).
Proof. intros st. reflexivity. Qed.

Lemma agrees_modify (f : RunState -> RunState) :
  agrees (Interleaved.modify f) (modify f).
Proof. intros st. reflexivity. Qed.

Lemma agrees_log (m : LogMsg) : agrees (Interleaved.log m) (log m).
Proof. intros st. reflexivity. Qed.

Lemma agrees_bind {A B} (t : Async A) (k : A -> Async B) (c : Step A)
    (k' : A -> Step B) :
  agrees t c -> (forall a, agrees (k a) (k' a)) ->
  agrees (Interleaved.bind t k) (bind c k').
Proof.
  intros Ht Hk st. rewrite finish_bind. unfold bind. rewrite Ht.
  destruct (c st) as [[a|e] st']; [apply Hk|reflexivity].
Qed.

Lemma agrees_after_pause {A} (t : Async A) (c : Step A) :
  agrees t c -> agrees (Interleaved.bind Interleaved.pause (fun _ => t)) c.
Proof. intros H st. apply H. Qed.

Lemma agrees_try_catch (body handler : Async unit) (c h : Step unit) :
  agrees body c -> agrees handler h ->
  agrees (Interleaved.try_catch body handler) (try_catch c h).
Proof.
  intros Hb Hh st. rewrite finish_try_catch. unfold try_catch. rewrite Hb.
  destruct (c st) as [[[]|e] st']; [reflexivity|apply Hh].
Qed.

Lemma agrees_when (b : bool) (t : Async unit) (c : Step unit) :
  agrees t c -> agrees (Interleaved.when b t) (when b c).
Proof. intros H. destruct b; [exact H|apply agrees_ret]. Qed.

Lemma agrees_for_each {A} (body : A -> Async unit) (body' : A -> Step unit)
    (l : list A) :
  (forall x, agrees (body x) (body' x)) ->
  agrees (Interleaved.for_each body l) (for_each body' l).
Proof.
  intros H. induction l as [|x l IH]; simpl.
  - apply agrees_ret.
  - apply agrees_bind; [apply H|intros _; exact IH].
Qed.

End Agrees.

(** One rule for [agrees], or a case distinction on what both sides
    branch on. *)
Ltac agrees_step :=
  lazymatch goal with
  | |- agrees (Interleaved.bind Interleaved.pause _) _ =>
      apply agrees_after_pause
  | |- agrees (Interleaved.bind _ _) _ => apply agrees_bind; [|intros]
  | |- agrees (Interleaved.ret _) _ => apply agrees_ret
  | |- agrees (Interleaved.throw _) _ => apply agrees_throw
  | |- agrees (Interleaved.gets _) _ => apply agrees_gets
  | |- agrees (Interleaved.modify _) _ => apply agrees_modify
  | |- agrees (Interleaved.log _) _ => apply agrees_log
  | |- agrees (Interleaved.when _ _) _ => apply agrees_when
  | |- agrees (Interleaved.try_catch _ _) _ => apply agrees_try_catch
  | |- agrees (Interleaved.for_each _ _) _ => apply agrees_for_each; intros
  | |- agrees (if ?b then _ else _) _ => destruct b
  | |- agrees (match ?x with _ => _ end) _ => destruct x
  end.

Section SameText.

Context {rt : Runtime}.

Lemma decodeOrRaw_agrees (a : Argv) (line : string) :
  agrees (Interleaved.decodeOrRaw a line) (decodeOrRaw a line).
Proof.
  unfold Interleaved.decodeOrRaw, Interleaved.decodeLine, Interleaved.rawLine,
    Interleaved.parse, Interleaved.captureSessionId, Interleaved.trackCounts,
    Interleaved.formatOutput, Interleaved.toolDetail, Interleaved.toolResult,
    Interleaved.prop,
    decodeOrRaw, decodeLine, rawLine, parse, captureSessionId, trackCounts,
    formatOutput, toolDetail, toolResult, prop.
  repeat agrees_step.
Qed.

Lemma processLines_agrees (a : Argv) (lines : list string) :
  agrees (Interleaved.processLines a lines) (processLines a lines).
Proof.
  unfold Interleaved.processLines, Interleaved.processLine,
    processLines, processLine.
  repeat agrees_step. apply decodeOrRaw_agrees.
Qed.

Lemma classifyFailure_agrees (a : Argv) (info : list json) :
  agrees (Interleaved.classifyFailure a info) (classifyFailure a info).
Proof.
  unfold Interleaved.classifyFailure, Interleaved.hitRateLimit,
    Interleaved.js_includes, classifyFailure, hitRateLimit, js_includes.
  repeat agrees_step.
Qed.

End SameText.

Lemma logResources_agrees (r : Snapshot) :
  agrees (Interleaved.logResources r) (logResources r).
Proof. unfold Interleaved.logResources, logResources. repeat agrees_step. Qed.

Lemma resultObject_agrees (b : bool) :
  agrees (Interleaved.resultObject b) (resultObject b).
Proof. intros st. reflexivity. Qed.

Lemma conclude_agrees (p : Params) :
  agrees (Interleaved.conclude p) (conclude p).
Proof.
  intros st. unfold Interleaved.conclude, conclude.
  rewrite finish_bind. unfold bind at 1 2. simpl finish at 1.
  unfold gets at 1. destruct (commandFailed st).
  - apply agrees_after_pause.
    repeat agrees_step;
      first [apply logResources_agrees | apply resultObject_agrees].
  - reflexivity.
Qed.

(** ** What an async function leaves alone *)

Section Leaves.

Context {B : Type} (f : RunState -> B).

Lemma leaves_bind {A C} (t : Async A) (k : A -> Async C) :
  leaves f t -> (forall a, leaves f (k a)) -> leaves f (Interleaved.bind t k).
Proof.
  intros Ht Hk. induction t as [[a|e]|r IH|g t IH|t IH]; simpl in *.
  - apply Hk.
  - exact I.
  - intros st. apply IH, Ht.
  - destruct Ht as [Hg Ht]. split; [exact Hg|apply IH, Ht].
  - apply IH, Ht.
Qed.

Lemma leaves_try_catch (body handler : Async unit) :
  leaves f body -> leaves f handler ->
  leaves f (Interleaved.try_catch body handler).
Proof.
  intros Hb Hh. induction body as [[[]|e]|r IH|g t IH|t IH]; simpl in *.
  - exact I.
  - exact Hh.
  - intros st. apply IH, Hb.
  - destruct Hb as [Hg Hb]. split; [exact Hg|apply IH, Hb].
  - apply IH, Hb.
Qed.

Lemma leaves_when (b : bool) (t : Async unit) :
  leaves f t -> leaves f (Interleaved.when b t).
Proof. intros H. destruct b; [exact H|exact I]. Qed.

Lemma leaves_for_each {A} (body : A -> Async unit) (l : list A) :
  (forall x, leaves f (body x)) -> leaves f (Interleaved.for_each body l).
Proof.
  intros H. induction l as [|x l IH]; simpl.
  - exact I.
  - apply leaves_bind; [apply H|intros _; exact IH].
Qed.

Lemma leaves_modify (g : RunState -> RunState) :
  (forall st, f (g st) = f st) -> leaves f (Interleaved.modify g).
Proof. intros H. split; [exact H|exact I]. Qed.

Lemma leaves_log (m : LogMsg) :
  (forall st, f (add_log m st) = f st) -> leaves f (Interleaved.log m).
Proof. intros H. split; [exact H|exact I]. Qed.

Lemma advance_leaves {A} (t : Async A) (st : RunState) :
  leaves f t ->
  f (snd (advance t st)) = f st
  /\ match fst (advance t st) with
     | Parked k => leaves f k
     | Done _ => True
     end.
Proof.
  revert st. induction t as [c|r IH|g t IH|t IH]; intros st H; simpl in *.
  - split; [reflexivity|exact I].
  - apply IH, H.
  - destruct H as [Hg H]. destruct (IH (g st) H) as [E K].
    split; [now rewrite E|exact K].
  - split; [reflexivity|exact H].
Qed.

Lemma finish_leaves {A} (t : Async A) (st : RunState) :
  leaves f t -> f (snd (finish t st)) = f st.
Proof.
  revert st. induction t as [c|r IH|g t IH|t IH]; intros st H; simpl in *.
  - reflexivity.
  - apply IH, H.
  - destruct H as [Hg H]. now rewrite IH.
  - apply IH, H.
Qed.

End Leaves.

Ltac leaves_step :=
  lazymatch goal with
  | |- leaves _ (Interleaved.bind _ _) => apply leaves_bind; [|intros]
  | |- leaves _ (Interleaved.ret _) => exact I
  | |- leaves _ (Interleaved.throw _) => exact I
  | |- leaves _ (Interleaved.gets _) => intro; exact I
  | |- leaves _ Interleaved.pause => exact I
  | |- leaves _ (Interleaved.when _ _) => apply leaves_when
  | |- leaves _ (Interleaved.try_catch _ _) => apply leaves_try_catch
  | |- leaves _ (Interleaved.for_each _ _) => apply leaves_for_each; intros
  | |- leaves _ (Interleaved.modify _) => apply leaves_modify; intros; reflexivity
  | |- leaves _ (Interleaved.log _) => apply leaves_log; intros; reflexivity
  | |- leaves _ (if ?b then _ else _) => destruct b
  | |- leaves _ (match ?x with _ => _ end) => destruct x
  end.

Ltac leaves_tac := repeat leaves_step.

(** ** Async functions that never throw *)

Lemma harmless_bind {A B} (t : Async A) (k : A -> Async B) :
  harmless t -> (forall a, harmless (k a)) -> harmless (Interleaved.bind t k).
Proof.
  intros Ht Hk. induction t as [[a|e]|r IH|g t IH|t IH]; simpl in *.
  - apply Hk.
  - exact Ht.
  - intros st. apply IH, Ht.
  - apply IH, Ht.
  - apply IH, Ht.
Qed.

Lemma harmless_try_catch (body handler : Async unit) :
  harmless handler -> harmless (Interleaved.try_catch body handler).
Proof.
  intros Hh. induction body as [[[]|e]|r IH|g t IH|t IH]; simpl.
  - exact I.
  - exact Hh.
  - intros st. apply IH.
  - exact IH.
  - exact IH.
Qed.

Lemma harmless_when (b : bool) (t : Async unit) :
  harmless t -> harmless (Interleaved.when b t).
Proof. intros H. destruct b; [exact H|exact I]. Qed.

Lemma harmless_for_each {A} (body : A -> Async unit) (l : list A) :
  (forall x, harmless (body x)) -> harmless (Interleaved.for_each body l).
Proof.
  intros H. induction l as [|x l IH]; simpl.
  - exact I.
  - apply harmless_bind; [apply H|intros _; exact IH].
Qed.

Lemma finish_harmless {A} (t : Async A) (st : RunState) :
  harmless t -> exists a, fst (finish t st) = Normal a.
Proof.
  revert st. induction t as [[a|e]|r IH|g t IH|t IH]; intros st H; simpl in *.
  - now exists a.
  - contradiction.
  - apply IH, H.
  - apply IH, H.
  - apply IH, H.
Qed.

Ltac harmless_step :=
  lazymatch goal with
  | |- harmless (Interleaved.bind _ _) => apply harmless_bind; [|intros]
  | |- harmless (Interleaved.ret _) => exact I
  | |- harmless (Interleaved.gets _) => intro; exact I
  | |- harmless (Interleaved.modify _) => exact I
  | |- harmless (Interleaved.log _) => exact I
  | |- harmless Interleaved.pause => exact I
  | |- harmless (Interleaved.when _ _) => apply harmless_when
  | |- harmless (Interleaved.try_catch _ _) => apply harmless_try_catch
  | |- harmless (Interleaved.for_each _ _) => apply harmless_for_each; intros
  | |- harmless (if ?b then _ else _) => destruct b
  | |- harmless (match ?x with _ => _ end) => destruct x
  end.

Ltac harmless_tac := repeat harmless_step.

(** ** What an async function ensures, whatever runs at its awaits *)

Section Ensures.

Context {B : Type} (f : RunState -> B).

Lemma ensures_weaken {A} (P Q : RunState -> Completion A -> Prop)
    (t : Async A) (st : RunState) :
  (forall st' c, P st' c -> Q st' c) ->
  ensures f P t st -> ensures f Q t st.
Proof.
  intros HPQ. revert st.
  induction t as [c|r IH|g t IH|t IH]; intros st H; simpl in *.
  - apply HPQ, H.
  - apply IH, H.
  - apply IH, H.
  - intros st' E. apply IH, H, E.
Qed.

Lemma ensures_and {A} (P Q : RunState -> Completion A -> Prop)
    (t : Async A) (st : RunState) :
  ensures f P t st -> ensures f Q t st ->
  ensures f (fun st' c => P st' c /\ Q st' c) t st.
Proof.
  revert st. induction t as [c|r IH|g t IH|t IH]; intros st HP HQ; simpl in *.
  - split; assumption.
  - apply IH; assumption.
  - apply IH; assumption.
  - intros st' E. apply IH; [apply HP, E|apply HQ, E].
Qed.

Lemma ensures_bind {A C} (Q : RunState -> Completion A -> Prop)
    (post : RunState -> Completion C -> Prop) (t : Async A)
    (k : A -> Async C) (st : RunState) :
  ensures f Q t st ->
  (forall a st', Q st' (Normal a) -> ensures f post (k a) st') ->
  (forall e st', Q st' (Throw e) -> post st' (Throw e)) ->
  ensures f post (Interleaved.bind t k) st.
Proof.
  intros Ht Hk He. revert st Ht.
  induction t as [[a|e]|r IH|g t IH|t IH]; intros st Ht; simpl in *.
  - apply Hk, Ht.
  - apply He, Ht.
  - apply IH, Ht.
  - apply IH, Ht.
  - intros st' E. apply IH, Ht, E.
Qed.

Lemma leaves_ensures {A} (t : Async A) (st : RunState) (x : B) :
  leaves f t -> f st = x -> ensures f (fun st' _ => f st' = x) t st.
Proof.
  revert st. induction t as [c|r IH|g t IH|t IH]; intros st H E; simpl in *.
  - exact E.
  - apply IH; [apply H|exact E].
  - destruct H as [Hg H]. apply IH; [exact H|now rewrite Hg].
  - intros st' E'. apply IH; [exact H|now rewrite E'].
Qed.

Lemma harmless_ensures {A} (t : Async A) (st : RunState) :
  harmless t -> ensures f (fun _ c => exists a, c = Normal a) t st.
Proof.
  revert st. induction t as [[a|e]|r IH|g t IH|t IH]; intros st H; simpl in *.
  - now exists a.
  - contradiction.
  - apply IH, H.
  - apply IH, H.
  - intros st' _. apply IH, H.
Qed.

Lemma advance_ensures {A} (post : RunState -> Completion A -> Prop)
    (t : Async A) (st : RunState) :
  ensures f post t st ->
  match advance t st with
  | (Done c, st') => post st' c
  | (Parked k, st') => forall st'', f st'' = f st' -> ensures f post k st''
  end.
Proof.
  revert st. induction t as [c|r IH|g t IH|t IH]; intros st H; simpl in *.
  - exact H.
  - apply IH, H.
  - apply IH, H.
  - exact H.
Qed.

Lemma finish_ensures {A} (post : RunState -> Completion A -> Prop)
    (t : Async A) (st : RunState) :
  ensures f post t st -> post (snd (finish t st)) (fst (finish t st)).
Proof.
  revert st. induction t as [c|r IH|g t IH|t IH]; intros st H; simpl in *.
  - exact H.
  - apply IH, H.
  - apply IH, H.
  - apply IH, H. reflexivity.
Qed.

End Ensures.

(** ** Async functions that never read the trace *)

Lemma unaware_bind {A B} (t : Async A) (k : A -> Async B) :
  unaware t -> (forall a, unaware (k a)) -> unaware (Interleaved.bind t k).
Proof.
  intros Ht Hk. induction t as [[a|e]|r IH|g t IH|t IH]; simpl in *.
  - apply Hk.
  - exact I.
  - destruct Ht as [Hr Ht]. split.
    + intros st st' E. now rewrite (Hr st st' E).
    + intros st. apply IH, Ht.
  - destruct Ht as (Hg & Hl & Ht). repeat split; [exact Hg|exact Hl|].
    apply IH, Ht.
  - apply IH, Ht.
Qed.

Lemma unaware_try_catch (body handler : Async unit) :
  unaware body -> unaware handler ->
  unaware (Interleaved.try_catch body handler).
Proof.
  intros Hb Hh. induction body as [[[]|e]|r IH|g t IH|t IH]; simpl in *.
  - exact I.
  - exact Hh.
  - destruct Hb as [Hr Hb]. split.
    + intros st st' E. now rewrite (Hr st st' E).
    + intros st. apply IH, Hb.
  - destruct Hb as (Hg & Hl & Hb). repeat split; [exact Hg|exact Hl|].
    apply IH, Hb.
  - apply IH, Hb.
Qed.

Lemma unaware_when (b : bool) (t : Async unit) :
  unaware t -> unaware (Interleaved.when b t).
Proof. intros H. destruct b; [exact H|exact I]. Qed.

Lemma unaware_for_each {A} (body : A -> Async unit) (l : list A) :
  (forall x, unaware (body x)) -> unaware (Interleaved.for_each body l).
Proof.
  intros H. induction l as [|x l IH]; simpl.
  - exact I.
  - apply unaware_bind; [apply H|intros _; exact IH].
Qed.

Lemma unaware_gets {A} (f : RunState -> A) :
  (forall st st', core st = core st' -> f st = f st') ->
  unaware (Interleaved.gets f).
Proof.
  intros H. split; [|intros st; exact I].
  intros st st' E. now rewrite (H st st' E).
Qed.

Lemma unaware_modify (g : RunState -> RunState) :
  (forall st st', core st = core st' -> core (g st) = core (g st')) ->
  (forall st, logged (g st) = logged st) ->
  unaware (Interleaved.modify g).
Proof.
  intros H Hl. repeat split; [exact H|].
  exists []. intros st. now rewrite Hl, app_nil_r.
Qed.

Lemma unaware_log (m : LogMsg) : unaware (Interleaved.log m).
Proof.
  repeat split.
  - intros st st' E. exact E.
  - exists [m]. reflexivity.
Qed.

Lemma advance_unaware {A} (t : Async A) (st st' : RunState) :
  unaware t -> core st = core st' ->
  fst (advance t st) = fst (advance t st')
  /\ core (snd (advance t st)) = core (snd (advance t st'))
  /\ match fst (advance t st) with
     | Parked k => unaware k
     | Done _ => True
     end.
Proof.
  revert st st'.
  induction t as [c|r IH|g t IH|t IH]; intros st st' H E; simpl in *.
  - repeat split. exact E.
  - destruct H as [Hr H]. rewrite (Hr st st' E). apply IH; [apply H|exact E].
  - destruct H as (Hg & _ & H). apply IH; [exact H|apply Hg, E].
  - repeat split; [exact E|exact H].
Qed.

Lemma finish_unaware {A} (t : Async A) (st st' : RunState) :
  unaware t -> core st = core st' ->
  fst (finish t st) = fst (finish t st')
  /\ core (snd (finish t st)) = core (snd (finish t st')).
Proof.
  revert st st'.
  induction t as [c|r IH|g t IH|t IH]; intros st st' H E; simpl in *.
  - split; [reflexivity|exact E].
  - destruct H as [Hr H]. rewrite (Hr st st' E). apply IH; [apply H|exact E].
  - destruct H as (Hg & _ & H). apply IH; [exact H|apply Hg, E].
  - apply IH; [exact H|exact E].
Qed.

(** From two states with the same core it appends the same entries. *)
Lemma finish_unaware_trace {A} (t : Async A) (st st' : RunState) :
  unaware t -> core st = core st' ->
  exists more,
    logged (snd (finish t st)) = (logged st ++ more)%list
    /\ logged (snd (finish t st')) = (logged st' ++ more)%list.
Proof.
  revert st st'.
  induction t as [c|r IH|g t IH|t IH]; intros st st' H E; simpl in *.
  - exists []. now rewrite !app_nil_r.
  - destruct H as [Hr H]. rewrite (Hr st st' E). apply IH; [apply H|exact E].
  - destruct H as (Hg & [m1 Hl] & H).
    destruct (IH (g st) (g st') H (Hg _ _ E)) as (m2 & E1 & E2).
    exists (m1 ++ m2)%list. now rewrite E1, E2, !Hl, !app_assoc.
  - apply IH; [exact H|exact E].
Qed.

Ltac unaware_step :=
  lazymatch goal with
  | |- unaware (Interleaved.bind _ _) => apply unaware_bind; [|intros]
  | |- unaware (Interleaved.ret _) => exact I
  | |- unaware (Interleaved.throw _) => exact I
  | |- unaware Interleaved.pause => exact I
  | |- unaware (Interleaved.log _) => apply unaware_log
  | |- unaware (Interleaved.when _ _) => apply unaware_when
  | |- unaware (Interleaved.try_catch _ _) => apply unaware_try_catch
  | |- unaware (Interleaved.for_each _ _) => apply unaware_for_each; intros
  | |- unaware (Interleaved.gets _) =>
      apply unaware_gets;
      let H := fresh in
      intros ? ? H; unfold core in H; injection H; intros; congruence
  | |- unaware (Interleaved.modify _) =>
      apply unaware_modify;
      [ let H := fresh in
        intros ? ? H; unfold core in *; simpl; injection H; intros; congruence
      | intros; reflexivity ]
  | |- unaware (if ?b then _ else _) => destruct b
  | |- unaware (match ?x with _ => _ end) => destruct x
  end.

Ltac unaware_tac := repeat unaware_step.

(** ** The async functions of the module *)

Section AsyncLines.

Context {rt : Runtime}.

Lemma processLines_leaves_flags (a : Argv) (lines : list string) :
  leaves flags (Interleaved.processLines a lines).
Proof.
  unfold Interleaved.processLines, Interleaved.processLine,
    Interleaved.decodeOrRaw, Interleaved.decodeLine, Interleaved.rawLine,
    Interleaved.parse, Interleaved.captureSessionId, Interleaved.trackCounts,
    Interleaved.formatOutput, Interleaved.toolDetail, Interleaved.toolResult,
    Interleaved.prop.
  leaves_tac.
Qed.

Lemma processLines_unaware (a : Argv) (lines : list string) :
  unaware (Interleaved.processLines a lines).
Proof.
  unfold Interleaved.processLines, Interleaved.processLine,
    Interleaved.decodeOrRaw, Interleaved.decodeLine, Interleaved.rawLine,
    Interleaved.parse, Interleaved.captureSessionId, Interleaved.trackCounts,
    Interleaved.formatOutput, Interleaved.toolDetail, Interleaved.toolResult,
    Interleaved.prop.
  unaware_tac.
Qed.

Lemma classifyFailure_unaware (a : Argv) (info : list json) :
  unaware (Interleaved.classifyFailure a info).
Proof.
  unfold Interleaved.classifyFailure, Interleaved.hitRateLimit,
    Interleaved.js_includes.
  unaware_tac.
Qed.

End AsyncLines.

Lemma resultObject_unaware (b : bool) : unaware (Interleaved.resultObject b).
Proof. unfold Interleaved.resultObject. unaware_tac. Qed.

Lemma conclude_unaware (p : Params) : unaware (Interleaved.conclude p).
Proof.
  unfold Interleaved.conclude, Interleaved.logResources.
  unaware_tac; apply resultObject_unaware.
Qed.

Section SpawnFacts.

Context {rt : Runtime}.

Import Spawn.

Lemma prepare_spec (p : Params) (st : RunState) :
  exists st', prepare p st = (Normal tt, st') /\ core st' = core st.
Proof.
  unfold prepare, bind.
  destruct (announce_spec p st) as (st1 & -> & H1).
  destruct (logResume_spec p st1) as (st2 & -> & H2).
  unfold log at 1, modify at 1. unfold log at 1, modify at 1.
  destruct (logCommandDetails_spec p
              (add_log (LogNote "command" [JStr (fullCommand p)])
                 (add_log (LogNote "Raw command:" []) st2))) as (st3 & -> & H3).
  eexists. split; [reflexivity|].
  rewrite H3. unfold core in *. simpl. congruence.
Qed.

Lemma prepared_core (p : Params) :
  core (snd (prepare p initialState)) = core initialState.
Proof.
  destruct (prepare_spec p initialState) as (st & E & H). now rewrite E.
Qed.

Lemma prepared_flags (p : Params) :
  flags (snd (prepare p initialState)) = (false, false).
Proof.
  pose proof (prepared_core p) as H. unfold core, flags in *.
  simpl in H. congruence.
Qed.

(** *** The listeners *)

Ltac unfold_flush :=
  unfold flushRest, decodeRest, Interleaved.rawLine, Interleaved.parse,
    Interleaved.prop.

(** The listeners touch neither [commandFailed] nor [limitReached]. *)
Lemma flushRest_leaves_flags (buffer : string) :
  leaves flags (flushRest buffer).
Proof. unfold_flush. leaves_tac. Qed.

(** The flush at close sets neither the session id nor a counter. *)
Lemma flushRest_leaves_tally (buffer : string) :
  leaves tally (flushRest buffer).
Proof. unfold_flush. leaves_tac. Qed.

Lemma flushRest_harmless (buffer : string) : harmless (flushRest buffer).
Proof. unfold flushRest, Interleaved.rawLine. harmless_tac. Qed.

Lemma flushRest_unaware (buffer : string) : unaware (flushRest buffer).
Proof. unfold_flush. unaware_tac. Qed.

Lemma onStdoutData_leaves_flags (a : Argv) (output : string) (ps : ProcState) :
  leaves flags (snd (onStdoutData a output ps)).
Proof.
  unfold onStdoutData. destruct (frame (stdoutBuffer ps) output).
  apply processLines_leaves_flags.
Qed.

Lemma onStderrData_leaves_core (e : string) (ps : ProcState) :
  leaves core (snd (onStderrData e ps)).
Proof. unfold onStderrData. cbn [snd]. leaves_tac. Qed.

Lemma onStderrData_leaves_flags (e : string) (ps : ProcState) :
  leaves flags (snd (onStderrData e ps)).
Proof. unfold onStderrData. cbn [snd]. leaves_tac. Qed.

(** Nothing is left of the stderr listener after its one [await]. *)
Lemma onStderrData_left_over (e : string) (ps : ProcState) (st : RunState) :
  left_over (fst (advance (snd (onStderrData e ps)) st)) = [].
Proof.
  unfold onStderrData. cbn [snd].
  destruct (negb (String.eqb e EmptyString)); reflexivity.
Qed.

(** *** The call once the promise is settled *)

(** The [catch] returns the failure object. *)
Lemma onRejected_ensures (message : string) (st : RunState) :
  ensures flags (fun st' c => c = Normal (result_of false st'))
    (onRejected message) st.
Proof. simpl. intros st' _. reflexivity. Qed.

(** Runs an async function turn by turn, with a case distinction on what
    it branches on. *)
Ltac ensures_run :=
  repeat first
    [ progress (simpl; intros)
    | progress unfold Interleaved.when
    | match goal with
      | |- ensures _ _ ?t _ =>
          match t with
          | context [if ?b then _ else _] => destruct b eqn:?
          | context [match ?x with _ => _ end] => destruct x eqn:?
          end
      end ].

Ltac flags_chain :=
  unfold flags in *; simpl in *; repeat split; congruence.

Lemma conclude_ensures (p : Params) (st : RunState) (b : bool) :
  commandFailed st = b ->
  ensures flags
    (fun st' c =>
       c = Normal (result_of (negb b) st') /\ flags st' = flags st)
    (Interleaved.conclude p) st.
Proof.
  intros Hb. unfold Interleaved.conclude. simpl. rewrite Hb.
  destruct b; ensures_run; (split; [reflexivity|flags_chain]).
Qed.

Lemma classifyFailure_ensures (a : Argv) (info : list json) (st : RunState) :
  ensures flags (fun st' _ => commandFailed st' = true)
    (Interleaved.classifyFailure a info) st.
Proof.
  unfold Interleaved.classifyFailure, Interleaved.hitRateLimit,
    Interleaved.js_includes.
  ensures_run; flags_chain.
Qed.

Lemma onResolved_ensures (p : Params) (r : CommandResult) (st : RunState) :
  flags st = (false, false) ->
  ensures flags (closes_with (nonzero (code r))) (onResolved p r) st.
Proof.
  intros Hf. unfold onResolved. destruct (nonzero (code r)).
  - apply (ensures_bind flags (fun st' _ => commandFailed st' = true)).
    + apply classifyFailure_ensures.
    + intros _ st' H'.
      apply (ensures_weaken flags
               (fun st'' c =>
                  c = Normal (result_of (negb true) st'')
                  /\ flags st'' = flags st')).
      * intros st'' c [-> _]. split; [reflexivity|discriminate].
      * now apply conclude_ensures.
    + intros e st' _. reflexivity.
  - change (ensures flags (closes_with false) (Interleaved.conclude p) st).
    assert (Hc : commandFailed st = false) by flags_chain.
    apply (ensures_weaken flags
             (fun st'' c =>
                c = Normal (result_of (negb false) st'')
                /\ flags st'' = flags st)).
    + intros st'' c [-> H]. split; [reflexivity|].
      intros _. flags_chain.
    + now apply conclude_ensures.
Qed.

Lemma flushRest_ensures (buffer : string) (st : RunState) (x : bool * bool) :
  flags st = x ->
  ensures flags (fun st' c => c = Normal tt /\ flags st' = x)
    (flushRest buffer) st.
Proof.
  intros Hx.
  apply (ensures_weaken flags
           (fun st' c => (exists a, c = Normal a) /\ flags st' = x)).
  - intros st' c [[[] ->] H]. split; [reflexivity|exact H].
  - apply ensures_and.
    + apply harmless_ensures, flushRest_harmless.
    + apply leaves_ensures; [apply flushRest_leaves_flags|exact Hx].
Qed.

Lemma onClose_ensures (p : Params) (ps : ProcState) (st : RunState) :
  flags st = (false, false) ->
  ensures flags (closes_with (nonzero (exitCode ps))) (onClose p ps) st.
Proof.
  intros Hf. unfold onClose.
  set (r := {| code := exitCode ps; signal := exitSignal ps;
               stdout := stdoutBuffer ps; stderr := stderrBuffer ps |}).
  apply (ensures_bind flags
           (fun st' c => c = Normal tt /\ flags st' = (false, false))).
  - now apply flushRest_ensures.
  - intros [] st' [_ H]. simpl. intros st'' E.
    apply (onResolved_ensures p r st''). now rewrite E.
  - intros e st' [H _]. discriminate.
Qed.

Lemma closes_with_ends_well (failed : bool) (st : RunState)
    (c : Completion json) :
  closes_with failed st c -> ends_well st c.
Proof.
  destruct c as [r|e]; [|intros _; exact I]. intros [-> H].
  exists (negb failed). split; [reflexivity|].
  intros Hl. destruct failed; [reflexivity|].
  rewrite (H eq_refl) in Hl. discriminate.
Qed.

(** *** Turn by turn *)

Lemma Forall_first {A} (P : A -> Prop) (n : nat) (l : list A) :
  Forall P l -> Forall P (firstn n l).
Proof.
  intros H. revert n. induction H as [|x l Hx Hl IH]; intros [|n]; simpl;
    constructor; auto.
Qed.

Lemma Forall_skip {A} (P : A -> Prop) (n : nat) (l : list A) :
  Forall P l -> Forall P (skipn n l).
Proof.
  intros H. revert n. induction H as [|x l Hx Hl IH]; intros [|n]; simpl;
    auto.
Qed.

Lemma Forall_nth {A} (P : A -> Prop) (n : nat) (l : list A) (x : A) :
  Forall P l -> nth_error l n = Some x -> P x.
Proof.
  intros H E. apply nth_error_In in E. rewrite Forall_forall in H. auto.
Qed.

Lemma left_over_Forall (P : Async unit -> Prop) (turn : Turn unit) :
  match turn with
  | Parked k => P k
  | Done _ => True
  end ->
  Forall P (left_over turn).
Proof.
  destruct turn as [c|[c|r|g k|k]]; simpl; intros H; repeat constructor;
    exact H.
Qed.

Lemma start_spec (ps : ProcState) (t : Async unit) (w : World) :
  leaves flags t -> Forall (leaves flags) (parked w) ->
  Forall (leaves flags) (parked (start ps t w))
  /\ flags (vars (start ps t w)) = flags (vars w)
  /\ call (start ps t w) = call w
  /\ proc (start ps t w) = ps.
Proof.
  intros Ht Hp. unfold start.
  destruct (advance_leaves flags t (vars w) Ht) as [E K].
  destruct (advance t (vars w)) as [turn st]. cbn [fst snd] in E, K.
  cbn [parked vars call proc]. repeat split; [|exact E].
  apply Forall_app. split; [exact Hp|now apply left_over_Forall].
Qed.

Lemma takeTurn_spec (n : nat) (w : World) :
  Forall (leaves flags) (parked w) ->
  Forall (leaves flags) (parked (takeTurn n w))
  /\ flags (vars (takeTurn n w)) = flags (vars w)
  /\ call (takeTurn n w) = call w
  /\ proc (takeTurn n w) = proc w.
Proof.
  intros Hp. unfold takeTurn.
  destruct (nth_error (parked w) n) as [k|] eqn:En;
    [|repeat split; exact Hp].
  pose proof (Forall_nth _ _ _ _ Hp En) as Hk.
  destruct (advance_leaves flags k (vars w) Hk) as [E K].
  destruct (advance k (vars w)) as [turn st]. cbn [fst snd] in E, K.
  cbn [parked vars call proc]. repeat split; [|exact E].
  apply Forall_app. split; [now apply Forall_first|].
  apply Forall_app. split; [now apply left_over_Forall|now apply Forall_skip].
Qed.

Section Settled.

Context (p : Params) (post : RunState -> Completion json -> Prop).

Lemma proceed_settles (k : Async json) (w : World) :
  Forall (leaves flags) (parked w) ->
  ensures flags post k (vars w) ->
  settles post (proceed k w).
Proof.
  intros Hp Hk. unfold proceed.
  pose proof (advance_ensures flags post k (vars w) Hk) as H.
  destruct (advance k (vars w)) as [[c|k'] st]; split; cbn; assumption.
Qed.

Lemma step_settles (w : World) (e : ChildEvent) :
  settles post w -> settles post (step p w e).
Proof.
  intros [Hp Hc]. unfold step.
  destruct (call w) as [|k|c] eqn:Ec; [contradiction| |].
  - destruct e; try (split; [exact Hp|now rewrite Ec]).
    + destruct (takeTurn_spec n w Hp) as (Hp' & Ef & Ec' & _).
      split; [exact Hp'|]. rewrite Ec', Ec.
      intros st E. apply Hc. now rewrite E.
    + apply proceed_settles; [exact Hp|now apply Hc].
  - split; [exact Hp|now rewrite Ec].
Qed.

Lemma outcome_settles (events : list ChildEvent) (w : World) :
  settles post w ->
  exists c st,
    outcome (executeCommand p events w) = outcome_of (c, st) /\ post st c.
Proof.
  revert w. induction events as [|e rest IH]; intros w H.
  - destruct H as [_ Hc]. unfold executeCommand, outcome. simpl.
    destruct (call w) as [|k|c]; [contradiction| |].
    + pose proof (finish_ensures flags post k (vars w) (Hc _ eq_refl)) as H.
      destruct (finish k (vars w)) as [x st]. now exists x, st.
    + now exists c, (vars w).
  - apply (IH (step p w e)). now apply step_settles.
Qed.

End Settled.

(** While the promise is pending a turn leaves it so, but for ['close']
    and ['error']. *)
Lemma step_waits (p : Params) (w : World) (e : ChildEvent) :
  waits w ->
  match e with
  | Close => settles (closes_with (nonzero (exitCode (proc w)))) (step p w e)
  | ChildError _ =>
      settles (fun st c => c = Normal (result_of false st)) (step p w e)
  | Exit c sg =>
      waits (step p w e)
      /\ exitCode (proc (step p w e)) = c
      /\ exitSignal (proc (step p w e)) = sg
  | _ =>
      waits (step p w e)
      /\ exitCode (proc (step p w e)) = exitCode (proc w)
      /\ exitSignal (proc (step p w e)) = exitSignal (proc w)
  end.
Proof.
  intros (Ec & Ef & Hp). unfold step. rewrite Ec. destruct e.
  - pose proof (onStdoutData_leaves_flags (argv p) output (proc w)) as Ht.
    assert (Ep : exitCode (fst (onStdoutData (argv p) output (proc w)))
                 = exitCode (proc w)
                 /\ exitSignal (fst (onStdoutData (argv p) output (proc w)))
                    = exitSignal (proc w)).
    { unfold onStdoutData. destruct (frame _ _). split; reflexivity. }
    destruct (onStdoutData (argv p) output (proc w)) as [ps t].
    cbn [fst snd] in Ht, Ep.
    destruct (start_spec ps t w Ht Hp) as (Hp' & Ef' & Ec' & Eps).
    rewrite Eps. repeat split; try tauto; congruence.
  - pose proof (onStderrData_leaves_flags errorOutput (proc w)) as Ht.
    unfold onStderrData in *. cbn [snd] in Ht.
    match goal with
    | |- context [start ?ps ?t w] =>
        destruct (start_spec ps t w Ht Hp) as (Hp' & Ef' & Ec' & Eps)
    end.
    rewrite Eps. repeat split; try tauto; congruence.
  - repeat split; assumption.
  - apply proceed_settles; [exact Hp|]. now apply onClose_ensures.
  - split; [exact Hp|]. cbn [call vars]. intros st _.
    apply onRejected_ensures.
  - destruct (takeTurn_spec n w Hp) as (Hp' & Ef' & Ec' & Eps).
    rewrite Eps. repeat split; try tauto; congruence.
  - repeat split; assumption.
Qed.

(** *** The call as a whole *)

Lemma spawned_waits (p : Params) :
  waits (spawned (snd (prepare p initialState))).
Proof.
  split; [reflexivity|]. split; [apply prepared_flags|constructor].
Qed.

(** A child that closes: the call ends as the exit code says. *)
Lemma executeCommand_closed (p : Params) (events : list ChildEvent)
    (w : World) (c : option Z) (sg : option string) :
  waits w ->
  close_status events (exitCode (proc w)) (exitSignal (proc w)) = Some (c, sg) ->
  exists x st,
    outcome (executeCommand p events w) = outcome_of (x, st)
    /\ closes_with (nonzero c) st x.
Proof.
  revert w. induction events as [|e rest IH]; intros w Hw H; [discriminate|].
  pose proof (step_waits p w e Hw) as Hs.
  destruct e; simpl in H;
    try (destruct Hs as (Hw' & E1 & E2); apply (IH _ Hw');
         rewrite E1, E2; exact H).
  - injection H as <- <-. exact (outcome_settles p _ rest _ Hs).
  - discriminate.
Qed.

(** A child that fails: the call returns the failure object. *)
Lemma executeCommand_rejected (p : Params) (events : list ChildEvent)
    (w : World) (message : string) :
  waits w ->
  first_error events = Some message ->
  exists st,
    outcome (executeCommand p events w)
    = (Returned (result_of false st), st).
Proof.
  revert w. induction events as [|e rest IH]; intros w Hw H; [discriminate|].
  pose proof (step_waits p w e Hw) as Hs.
  destruct e; simpl in H;
    try (destruct Hs as (Hw' & _); now apply (IH _ Hw')).
  - discriminate.
  - destruct (outcome_settles p _ rest _ Hs) as (x & st & E & ->).
    exists st. exact E.
Qed.

(** However the list goes on: the call is pending, or it ends well. *)
Lemma executeCommand_any (p : Params) (events : list ChildEvent) (w : World) :
  waits w ->
  outcome (executeCommand p events w)
  = (Pending, vars (executeCommand p events w))
  \/ exists x st,
       outcome (executeCommand p events w) = outcome_of (x, st)
       /\ ends_well st x.
Proof.
  revert w. induction events as [|e rest IH]; intros w Hw.
  - left. destruct Hw as (Ec & _). unfold executeCommand, outcome. simpl.
    now rewrite Ec.
  - pose proof (step_waits p w e Hw) as Hs.
    destruct e; try (destruct Hs as (Hw' & _); now apply (IH _ Hw')).
    + right. destruct (outcome_settles p _ rest _ Hs) as (x & st & E & Hx).
      exists x, st. split; [exact E|].
      now apply (closes_with_ends_well (nonzero (exitCode (proc w)))).
    + right. destruct (outcome_settles p _ rest _ Hs) as (x & st & E & ->).
      exists (Normal (result_of false st)), st. split; [exact E|].
      exists false. split; reflexivity.
Qed.

Lemma execute_rejected (p : Params) (child : Child) (message : string) :
  failure child = Some message ->
  exists st,
    executeClaudeCommand p child = (Returned (result_of false st), st).
Proof.
  intros H. unfold executeClaudeCommand. destruct child as [m|events].
  - pose proof (finish_ensures flags _ _ (snd (prepare p initialState))
                  (onRejected_ensures m _)) as E.
    destruct (finish (onRejected m) (snd (prepare p initialState)))
      as [x st]. cbn [fst snd] in E. subst x. now exists st.
  - now apply (executeCommand_rejected p events _ message (spawned_waits p)).
Qed.

Lemma execute_closed (p : Params) (child : Child) (c : option Z)
    (sg : option string) :
  exit_status child = Some (c, sg) ->
  exists x st,
    executeClaudeCommand p child = outcome_of (x, st)
    /\ closes_with (nonzero c) st x.
Proof.
  intros H. unfold executeClaudeCommand. destruct child as [m|events];
    [discriminate|].
  now apply (executeCommand_closed p events _ c sg (spawned_waits p)).
Qed.

Lemma execute_any (p : Params) (child : Child) :
  fst (executeClaudeCommand p child) = Pending
  \/ exists x st,
       executeClaudeCommand p child = outcome_of (x, st) /\ ends_well st x.
Proof.
  unfold executeClaudeCommand. destruct child as [m|events].
  - right.
    pose proof (finish_ensures flags _ _ (snd (prepare p initialState))
                  (onRejected_ensures m _)) as E.
    destruct (finish (onRejected m) (snd (prepare p initialState)))
      as [x st]. cbn [fst snd] in E. subst x.
    exists (Normal (result_of false st)), st. split; [reflexivity|].
    exists false. split; reflexivity.
  - destruct (executeCommand_any p events _ (spawned_waits p)) as [E|E].
    + left. now rewrite E.
    + now right.
Qed.

(** *** Listeners that are not overtaken *)

Lemma onResolved_agrees (p : Params) (r : CommandResult) :
  agrees (onResolved p r) (resolved p (code r) (signal r)).
Proof.
  unfold onResolved, resolved.
  change (exit_info (code r) (signal r)) with (exitInfo r).
  repeat agrees_step;
    first [apply classifyFailure_agrees | apply conclude_agrees].
Qed.

Lemma onClose_finish (p : Params) (ps : ProcState) (st : RunState) :
  finish (onClose p ps) st
  = resolved p (exitCode ps) (exitSignal ps)
      (snd (finish (flushRest (stdoutBuffer ps)) st)).
Proof.
  unfold onClose. rewrite finish_bind. unfold bind.
  destruct (finish_harmless (flushRest (stdoutBuffer ps)) st
              (flushRest_harmless _)) as [[] E].
  destruct (finish (flushRest (stdoutBuffer ps)) st) as [x st1].
  cbn [fst snd] in E |- *. subst x. cbn [finish Interleaved.ret].
  apply (onResolved_agrees p
           {| code := exitCode ps; signal := exitSignal ps;
              stdout := stdoutBuffer ps; stderr := stderrBuffer ps |}).
Qed.

Lemma outcome_proceed (k : Async json) (w : World) :
  outcome (proceed k w) = outcome_of (finish k (vars w)).
Proof.
  unfold proceed, outcome. rewrite (finish_advance k (vars w)).
  destruct (advance k (vars w)) as [[c|k'] st]; reflexivity.
Qed.

(** With no listener parked the call goes to its end alone. *)
Lemma outcome_alone (p : Params) (events : list ChildEvent) (w : World) :
  parked w = [] -> call w <> Blocked ->
  outcome (executeCommand p events w) = outcome w.
Proof.
  revert w. induction events as [|e rest IH]; intros w Hp Hc; [reflexivity|].
  change (executeCommand p (e :: rest) w)
    with (executeCommand p rest (step p w e)).
  assert (H : outcome (step p w e) = outcome w
              /\ parked (step p w e) = []
              /\ call (step p w e) <> Blocked).
  { unfold step. destruct (call w) as [|k|c] eqn:Ec; [contradiction| |].
    - destruct e; try (repeat split; [exact Hp|now rewrite Ec]).
      + unfold takeTurn. rewrite Hp. destruct n; simpl;
          (repeat split; [exact Hp|now rewrite Ec]).
      + split; [|split].
        * rewrite outcome_proceed. unfold outcome. now rewrite Ec.
        * unfold proceed. now destruct (advance k (vars w)).
        * unfold proceed. now destruct (advance k (vars w)) as [[c|k'] st].
    - repeat split; [exact Hp|now rewrite Ec]. }
  destruct H as (E & Hp' & Hc'). rewrite IH; assumption.
Qed.

Lemma ahead_empty (w : World) : parked w = [] -> ahead w = vars w.
Proof. intros H. unfold ahead. now rewrite H. Qed.

Lemma start_ahead (ps : ProcState) (t : Async unit) (w : World) :
  parked w = [] ->
  ahead (start ps t w) = snd (finish t (vars w))
  /\ one_at_most (start ps t w).
Proof.
  intros Hp. unfold start, ahead, one_at_most.
  rewrite (finish_advance t (vars w)), Hp.
  destruct (advance t (vars w)) as [[c|[c|r|g k|k]] st]; cbn;
    (split; [reflexivity|]); first [now left|right; eexists; reflexivity].
Qed.

Lemma takeTurn_ahead (n : nat) (w : World) :
  one_at_most w ->
  ahead (takeTurn n w) = ahead w /\ one_at_most (takeTurn n w).
Proof.
  intros [Hp|[k Hp]]; unfold takeTurn, ahead, one_at_most; rewrite Hp.
  - destruct n; simpl; rewrite Hp; split; auto.
  - destruct n as [|n]; simpl.
    + rewrite (finish_advance k (vars w)).
      destruct (advance k (vars w)) as [[c|[c|r|g k'|k']] st]; cbn;
        (split; [reflexivity|]);
        first [now left|right; eexists; reflexivity].
    + destruct n; simpl; rewrite Hp; split; eauto.
Qed.

Lemma frames_step (buffer output : string) (chunks : list string) :
  frames buffer (output :: chunks) =
  (let (lines, kept) := frame buffer output in
   let (more, final) := frames kept chunks in
   ((lines ++ more)%list, final)).
Proof. reflexivity. Qed.

Lemma none_parked_spec (w : World) : none_parked w = true -> parked w = [].
Proof. unfold none_parked. now destruct (parked w). Qed.

(** A child that closes with every listener through: the call goes on,
    alone, from the variables the complete lines left. *)
Lemma in_turn_closed (p : Params) (events : list ChildEvent) (w : World)
    (c : option Z) (sg : option string) :
  waits w -> one_at_most w ->
  in_turn p events w = true ->
  close_status events (exitCode (proc w)) (exitSignal (proc w)) = Some (c, sg) ->
  exists st,
    outcome (executeCommand p events w)
    = outcome_of
        (resolved p c sg
           (snd (finish
                   (flushRest
                      (snd (frames (stdoutBuffer (proc w)) (stdout_chunks events))))
                   st)))
    /\ flags st = (false, false)
    /\ core st =
       core (snd (processLines (argv p)
                    (fst (frames (stdoutBuffer (proc w)) (stdout_chunks events)))
                    (ahead w)))
    /\ same_but_stderr (logged st)
         (logged (snd (processLines (argv p)
                         (fst (frames (stdoutBuffer (proc w))
                                 (stdout_chunks events)))
                         (ahead w)))).
Proof.
  revert w. induction events as [|e rest IH]; intros w Hw H1 Hi Hc;
    [discriminate|].
  simpl in Hi. apply andb_prop in Hi. destruct Hi as [Hn Hi].
  pose proof (step_waits p w e Hw) as Hs.
  change (executeCommand p (e :: rest) w)
    with (executeCommand p rest (step p w e)).
  destruct e as [output|errorOutput|ec es| |message|n|];
    simpl in Hn, Hc; simpl stdout_chunks.
  - apply none_parked_spec in Hn. destruct Hs as (Hw' & E1 & E2).
    rewrite <- E2 in Hc at 1. rewrite <- E1 in Hc at 1. unfold step in *.
    destruct Hw as (Eb & _). rewrite Eb in *.
    unfold onStdoutData in *. rewrite frames_step.
    destruct (frame (stdoutBuffer (proc w)) output) as [lines kept] eqn:Ef.
    destruct (start_ahead
                {| stdoutBuffer := kept; stderrBuffer := stderrBuffer (proc w);
                   exitCode := exitCode (proc w);
                   exitSignal := exitSignal (proc w) |}
                (Interleaved.processLines (argv p) lines) w Hn) as [Ea H1'].
    destruct (IH _ Hw' H1' Hi Hc) as (st & E & Hf & Hcore & Hlog).
    assert (Eps : stdoutBuffer
                    (proc (start
                             {| stdoutBuffer := kept;
                                stderrBuffer := stderrBuffer (proc w);
                                exitCode := exitCode (proc w);
                                exitSignal := exitSignal (proc w) |}
                             (Interleaved.processLines (argv p) lines) w))
                  = kept).
    { unfold start. now destruct (advance _ (vars w)). }
    rewrite Eps in E, Hcore, Hlog.
    destruct (frames kept (stdout_chunks rest)) as [more final].
    cbn [fst snd] in E, Hcore, Hlog |- *.
    rewrite Ea, processLines_agrees in Hcore, Hlog.
    rewrite processLines_app, (ahead_empty w Hn).
    exists st. repeat split; assumption.
  - apply none_parked_spec in Hn. destruct Hs as (Hw' & E1 & E2).
    rewrite <- E2 in Hc at 1. rewrite <- E1 in Hc at 1. unfold step in *.
    destruct Hw as (Eb & _). rewrite Eb in *.
    unfold onStderrData in *.
    match type of Hw' with
    | waits (start ?ps ?t w) =>
        destruct (start_ahead ps t w Hn) as [Ea H1'];
        pose proof (finish_leaves core t (vars w)
                      (onStderrData_leaves_core errorOutput (proc w))) as Ek;
        assert (Eps : stdoutBuffer (proc (start ps t w))
                      = stdoutBuffer (proc w))
          by (unfold start; now destruct (advance _ (vars w)))
    end.
    destruct (IH _ Hw' H1' Hi Hc) as (st & E & Hf & Hcore & Hlog).
    rewrite Eps in E, Hcore, Hlog. rewrite Ea in Hcore, Hlog.
    rewrite (ahead_empty w Hn).
    exists st. split; [exact E|]. split; [exact Hf|].
    set (lines := fst (frames (stdoutBuffer (proc w)) (stdout_chunks rest)))
      in *.
    rewrite <- !processLines_agrees in Hcore, Hlog |- *.
    split.
    + rewrite Hcore.
      apply finish_unaware; [apply processLines_unaware|exact Ek].
    + intros keep Hk. rewrite (Hlog keep Hk).
      destruct (finish_unaware_trace
                  (Interleaved.processLines (argv p) lines) _ (vars w)
                  (processLines_unaware _ _) Ek) as (more & -> & ->).
      rewrite !filter_app. f_equal.
      destruct (negb (String.eqb errorOutput EmptyString)); [|reflexivity].
      simpl. rewrite filter_app. simpl. rewrite Hk. apply app_nil_r.
  - apply none_parked_spec in Hn. destruct Hs as (Hw' & E1 & E2).
    rewrite <- E2 in Hc at 1. rewrite <- E1 in Hc at 1.
    assert (H1' : one_at_most (step p w (Exit ec es))).
    { unfold step. destruct Hw as (Eb & _). rewrite Eb. now left. }
    destruct (IH _ Hw' H1' Hi Hc) as (st & E & Hf & Hcore & Hlog).
    destruct Hw as (Eb & _). unfold step in E, Hcore, Hlog |- *.
    rewrite Eb in E, Hcore, Hlog |- *.
    exists st. repeat split; assumption.
  - apply none_parked_spec in Hn. injection Hc as <- <-.
    exists (vars w). destruct Hw as (Eb & Hf & Hp).
    split; [|split; [exact Hf|rewrite (ahead_empty w Hn); split;
                                [reflexivity|intros keep _; reflexivity]]].
    rewrite outcome_alone.
    + unfold step. rewrite Eb, outcome_proceed, onClose_finish.
      reflexivity.
    + unfold step. rewrite Eb. unfold proceed.
      now destruct (advance _ (vars w)).
    + unfold step. rewrite Eb. unfold proceed.
      now destruct (advance _ (vars w)) as [[x|k] st].
  - discriminate.
  - destruct Hs as (Hw' & E1 & E2). rewrite <- E2 in Hc at 1. rewrite <- E1 in Hc at 1.
    unfold step in *. destruct Hw as (Eb & _). rewrite Eb in *.
    destruct (takeTurn_ahead n w H1) as [Ea H1'].
    destruct (IH _ Hw' H1' Hi Hc) as (st & E & Hf & Hcore & Hlog).
    assert (Eps : proc (takeTurn n w) = proc w).
    { unfold takeTurn. destruct (nth_error (parked w) n); [|reflexivity].
      now destruct (advance _ (vars w)). }
    rewrite Eps in E, Hcore, Hlog. rewrite Ea in Hcore, Hlog.
    now exists st.
  - destruct Hs as (Hw' & E1 & E2). rewrite <- E2 in Hc at 1. rewrite <- E1 in Hc at 1.
    unfold step in *. destruct Hw as (Eb & Hf0 & Hp0). rewrite Eb in *.
    now apply (IH w).
Qed.

Lemma unhurried_closed (p : Params) (child : Child) (c : option Z)
    (sg : option string) :
  unhurried p child = true ->
  exit_status child = Some (c, sg) ->
  exists st,
    executeClaudeCommand p child
    = outcome_of
        (resolved p c sg
           (snd (finish
                   (flushRest (last_or_empty (split_nl (stdout_text child))))
                   st)))
    /\ flags st = (false, false)
    /\ core st =
       core (snd (processLines (argv p)
                    (removelast (split_nl (stdout_text child)))
                    (snd (prepare p initialState))))
    /\ same_but_stderr (logged st)
         (logged (snd (processLines (argv p)
                         (removelast (split_nl (stdout_text child)))
                         (snd (prepare p initialState))))).
Proof.
  intros Hu He. destruct child as [m|events]; [discriminate|].
  unfold unhurried in Hu. unfold exit_status in He.
  destruct (in_turn_closed p events _ c sg (spawned_waits p)
              (or_introl eq_refl) Hu He) as (st & E & Hf & Hcore & Hlog).
  cbn [proc spawned stdoutBuffer initialProc] in E, Hcore, Hlog.
  rewrite frames_split in E, Hcore, Hlog. cbn [fst snd] in E, Hcore, Hlog.
  exists st. repeat split; assumption.
Qed.

(** After exit code 0 the call returns the success object. *)
Lemma resolved_zero (p : Params) (c : option Z) (sg : option string)
    (st : RunState) :
  nonzero c = false ->
  flags st = (false, false) ->
  exists st',
    outcome_of (resolved p c sg st) = (Returned (result_of true st), st')
    /\ core st' = core st.
Proof.
  intros Hz Hf. unfold resolved. rewrite Hz. unfold when, bind, ret.
  destruct (conclude_spec p st) as (st' & E & Hc). rewrite E.
  unfold flags in Hf. injection Hf as Hf1 Hf2. rewrite Hf1. simpl.
  exists st'. split; [reflexivity|exact Hc].
Qed.

(** After a non-zero exit code the call throws out of the classification
    or returns the failure object. *)
Lemma resolved_nonzero (p : Params) (c : option Z) (sg : option string)
    (st : RunState) :
  nonzero c = true ->
  let x := classifyFailure (argv p) (exit_info c sg) st in
  match fst x with
  | Normal _ =>
      exists st',
        outcome_of (resolved p c sg st)
        = (Returned (result_of false (snd x)), st')
        /\ core st' = core (snd x)
  | Throw e => outcome_of (resolved p c sg st) = (Thrown e, snd x)
  end.
Proof.
  intros Hz x. unfold resolved. rewrite Hz. unfold when, bind.
  pose proof (classifyFailure_sets_failed (argv p) (exit_info c sg) st)
    as [Hf _].
  fold x in Hf. fold x.
  destruct x as [[[]|e] st1]; simpl in *; [|reflexivity].
  destruct (conclude_spec p st1) as (st' & E & Hc). rewrite E, Hf. simpl.
  exists st'. split; [reflexivity|exact Hc].
Qed.

(** The flush of a fragment that is not JSON: one raw event, and the
    fragment becomes the last message. *)
Lemma flushRest_raw (fragment : string) (st : RunState) :
  trim_nonempty fragment = true ->
  JSON_parse fragment = None ->
  includes "node:internal" fragment = false ->
  finish (flushRest fragment) st =
  (Normal tt, set_lastMessage (JStr fragment) (add_log (LogRaw fragment) st)).
Proof.
  intros Ht Hp Hi.
  unfold flushRest, decodeRest, Interleaved.parse, Interleaved.rawLine.
  rewrite Ht, Hp, Hi. reflexivity.
Qed.

(** A non-zero exit with every listener through and a string as last
    message: the classification completes on that string and the call
    returns the failure object. *)
Lemma execute_failed_string (p : Params) (child : Child) (c : option Z)
    (sg : option string) (s : string) :
  exit_status child = Some (c, sg) ->
  nonzero c = true ->
  unhurried p child = true ->
  lastMessage (snd (executeClaudeCommand p child)) = JStr s ->
  exists st st1 st',
    lastMessage st = JStr s
    /\ limitReached st = false
    /\ classifyFailure (argv p) (exit_info c sg) st = (Normal tt, st1)
    /\ executeClaudeCommand p child = (Returned (result_of false st1), st')
    /\ trace_grows st1 st'.
Proof.
  intros He Hn Hu Hs.
  destruct (unhurried_closed p child c sg Hu He) as (st0 & E & Hf0 & _).
  pose proof (finish_leaves flags _ st0 (flushRest_leaves_flags
                (last_or_empty (split_nl (stdout_text child))))) as Hf.
  rewrite Hf0 in Hf.
  set (st := snd (finish (flushRest _) st0)) in *.
  rewrite E in Hs |- *.
  pose proof (resolved_nonzero p c sg st Hn) as H. cbv zeta in H.
  pose proof (classifyFailure_sets_failed (argv p) (exit_info c sg) st)
    as [_ Ho].
  assert (Hlast : lastMessage st = JStr s).
  { destruct (classifyFailure (argv p) (exit_info c sg) st) as [[[]|e] st1];
      simpl in H, Ho.
    - destruct H as (st' & E' & Hcore). rewrite E' in Hs. simpl in Hs.
      unfold core in Hcore. unfold observed in Ho.
      injection Hcore as _ _ _ _ _ H6. injection Ho as _ _ _ H4. congruence.
    - rewrite H in Hs. simpl in Hs. unfold observed in Ho.
      injection Ho as _ _ _ H4. congruence. }
  destruct (classifyFailure_string (argv p) (exit_info c sg) st s Hlast)
    as (st1 & E1 & _).
  exists st, st1.
  unfold resolved. rewrite Hn. unfold when, bind. rewrite E1.
  pose proof (conclude_grows p st1) as Hg.
  destruct (conclude_spec p st1) as (st' & E' & _). rewrite E' in Hg |- *.
  pose proof (classifyFailure_sets_failed (argv p) (exit_info c sg) st)
    as [Hfailed _].
  rewrite E1 in Hfailed. simpl in Hfailed, Hg. rewrite Hfailed. simpl.
  exists st'. unfold flags in Hf. injection Hf as _ Hl.
  repeat split; [exact Hlast|exact Hl|exact Hg].
Qed.

Lemma spawn_returned (p : Params) (child : Child) (r : json)
    (st : RunState) :
  executeClaudeCommand p child = (Returned r, st) ->
  exists b, r = result_of b st.
Proof.
  intros H. destruct (execute_any p child) as [E|(x & st' & E & Hx)].
  - rewrite H in E. discriminate.
  - rewrite H in E. destruct x as [r'|e]; [|discriminate].
    injection E as -> ->. destruct Hx as (b & -> & _). now exists b.
Qed.

End SpawnFacts.

(** ** The command-stream variant *)

Section CommandStreamFacts.

Context {rt : Runtime}.

Import CommandStream.

Lemma cs_prepare_spec (p : Params) (st : RunState) :
  exists st', prepare p st = (Normal tt, st') /\ core st' = core st.
Proof.
  unfold prepare, bind.
  destruct (announce_spec p st) as (st1 & -> & H1).
  destruct (logResume_spec p st1) as (st2 & -> & H2).
  destruct (logCommandDetails_spec p st2) as (st3 & -> & H3).
  exists st3. split; [reflexivity|]. congruence.
Qed.

Lemma run_returned (p : Params) (dollar : Dollar) (st' : RunState) (r : json) :
  outcome_of (run p dollar initialState) = (Returned r, st') ->
  exists b, r = result_of b st'.
Proof.
  unfold run. unfold bind at 1.
  destruct (cs_prepare_spec p initialState) as (st1 & -> & _).
  destruct dollar as [| |[m|result|m|chunks failure]];
    try discriminate; apply then_conclude.
Qed.

Lemma run_await_rejects (p : Params) (message : string) :
  says "success" false
    (fst (outcome_of (run p (Function (AwaitRejects message)) initialState))).
Proof.
  unfold run. unfold bind at 1.
  destruct (cs_prepare_spec p initialState) as (st1 & -> & _).
  unfold bind, onExecError, modify, log. simpl.
  destruct (conclude_spec p
              (add_log (LogNote "Claude command failed:" [JStr message])
                 (set_commandFailed true st1))) as (st2 & E & _).
  rewrite E. simpl. eexists. split; reflexivity.
Qed.

Lemma run_throws (p : Params) (dollar : Dollar) (e : JsError) :
  match dollar with
  | Missing => e = Error "Command stream ($) is not available"
  | NotAFunction => e = Error "Command stream ($) is not a function"
  | Function (CreateThrows message) =>
      e = Error ("Failed to create command stream: " ++ message)
  | _ => False
  end ->
  fst (outcome_of (run p dollar initialState)) = Thrown e.
Proof.
  unfold run. unfold bind at 1.
  destruct (cs_prepare_spec p initialState) as (st1 & -> & _).
  destruct dollar as [| |[m|result|m|chunks failure]];
    intros H; try contradiction; subst e; reflexivity.
Qed.

(** The loop over the filtered lines of an output is the loop of the
    spawn variant over all its lines. *)
Lemma processOutput_is_processLines (a : Argv) (output : string)
    (st : RunState) :
  processOutput a output st = processLines a (split_nl output) st.
Proof.
  unfold processOutput, processLines. revert st.
  induction (split_nl output) as [|line rest IH]; intros st; [reflexivity|].
  simpl. unfold processLine at 1. destruct (trim_nonempty line).
  - simpl. unfold bind. destruct (decodeOrRaw a line st) as [[[]|e] st1].
    + apply IH.
    + reflexivity.
  - unfold bind, ret. apply IH.
Qed.

Lemma keeps_flags_limit {A} (c : Step A) :
  respects (keeps flags) c -> respects limit_needs_failure c.
Proof.
  intros H st Hs. specialize (H st). unfold keeps, flags in H.
  injection H as H1 H2. now rewrite H1, H2.
Qed.

Lemma processOutput_keeps_flags (a : Argv) (output : string) :
  respects (keeps flags) (processOutput a output).
Proof.
  unfold processOutput. apply respects_for_each; [exact _|].
  intros line. apply decodeOrRaw_keeps_flags.
Qed.

Lemma processStdout_keeps_flags (a : Argv) (output : option string) :
  respects (keeps flags) (processStdout a output).
Proof.
  unfold processStdout. keeps_tac. apply processOutput_keeps_flags.
Qed.

Lemma logStderr_keeps_core (e : option string) :
  respects (keeps core) (logStderr e).
Proof. unfold logStderr. keeps_tac. Qed.

Lemma logStderr_keeps_flags (e : option string) :
  respects (keeps flags) (logStderr e).
Proof. unfold logStderr. keeps_tac. Qed.

Lemma processOutput_normal (a : Argv) (output : string) (st : RunState) :
  fst (processOutput a output st) = Normal tt.
Proof. apply for_each_normal. apply decodeOrRaw_normal. Qed.

Lemma processStdout_normal (a : Argv) (output : option string) (st : RunState) :
  fst (processStdout a output st) = Normal tt.
Proof.
  unfold processStdout. destruct output as [o|]; [|reflexivity].
  destruct (negb (String.eqb o EmptyString)); [|reflexivity].
  apply processOutput_normal.
Qed.

Lemma logStderr_normal (e : option string) (st : RunState) :
  fst (logStderr e st) = Normal tt.
Proof.
  unfold logStderr. destruct e as [e|]; [|reflexivity].
  destruct (negb (String.eqb e EmptyString)); reflexivity.
Qed.

(** The command-stream call, once the lines before the command are
    logged. *)
Lemma run_prepared (p : Params) (dollar : Dollar) :
  exists st1,
    core st1 = core initialState
    /\ run p dollar initialState =
       match dollar with
       | Missing => throw (Error "Command stream ($) is not available") st1
       | NotAFunction => throw (Error "Command stream ($) is not a function") st1
       | Function (CreateThrows message) =>
           throw (Error ("Failed to create command stream: " ++ message)) st1
       | Function (AwaitResolves result) =>
           bind (awaitCommand (argv p) result) (fun _ => conclude p) st1
       | Function (AwaitRejects message) =>
           bind (onExecError message) (fun _ => conclude p) st1
       | Function (Iterates chunks failure) =>
           bind (iterate (argv p) chunks failure) (fun _ => conclude p) st1
       end.
Proof.
  unfold run. unfold bind at 1.
  destruct (cs_prepare_spec p initialState) as (st1 & -> & H).
  exists st1. split; [exact H|].
  destruct dollar as [| |[m|result|m|chunks failure]]; reflexivity.
Qed.

(** The lines of the awaited output are folded, stderr is logged, and the
    classification follows on a non-zero code. *)
Lemma processResult_spec (a : Argv) (result : Result) (st : RunState) :
  exists st1,
    flags st1 = flags st
    /\ processResult a result st =
       when (nonzero (code result))
         (classifyFailure a [code_value (code result)]) st1.
Proof.
  unfold processResult, bind.
  pose proof (processStdout_normal a (stdout result) st) as H1.
  pose proof (processStdout_keeps_flags a (stdout result) st) as F1.
  destruct (processStdout a (stdout result) st) as [[[]|e] st1];
    simpl in H1, F1; [|discriminate].
  pose proof (logStderr_normal (stderr result) st1) as H2.
  pose proof (logStderr_keeps_flags (stderr result) st1) as F2.
  destruct (logStderr (stderr result) st1) as [[[]|e] st2];
    simpl in H2, F2; [|discriminate].
  exists st2. split; [|reflexivity]. unfold keeps in *. congruence.
Qed.

(** The loop folds the chunks before the [done] chunk, and the
    classification follows on a non-zero code. *)
Lemma iterate_done (a : Argv) (chunks : list Chunk) (failure : option string)
    (c : option Z) (st : RunState) :
  done_code chunks = Some c ->
  exists info st1,
    flags st1 = flags st
    /\ iterate a chunks failure st =
       when (nonzero c) (classifyFailure a info) st1.
Proof.
  revert st. induction chunks as [|ch rest IH]; intros st H; [discriminate|].
  simpl in H. simpl iterate. destruct (done ch) eqn:Hd.
  - injection H as <-. exists (chunkExitInfo ch), st. split; reflexivity.
  - unfold bind.
    pose proof (logStderr_normal (chunk_stderr ch) st) as H1.
    pose proof (logStderr_keeps_flags (chunk_stderr ch) st) as F1.
    destruct (logStderr (chunk_stderr ch) st) as [[[]|e] st1];
      simpl in H1, F1; [|discriminate].
    pose proof (processStdout_normal a (chunk_stdout ch) st1) as H2.
    pose proof (processStdout_keeps_flags a (chunk_stdout ch) st1) as F2.
    destruct (processStdout a (chunk_stdout ch) st1) as [[[]|e] st2];
      simpl in H2, F2; [|discriminate].
    destruct (IH st2 H) as (info & st3 & F3 & E).
    exists info, st3. split; [|exact E]. unfold keeps in *. congruence.
Qed.

(** A command that ends with a code: the call is the classification (on
    a non-zero code; in the awaited branch inside its [try]) followed by
    [conclude], from a state with both flags down. *)
Lemma run_ended (p : Params) (dollar : Dollar) (c : option Z) :
  exit_code dollar = Some c ->
  exists info st1,
    flags st1 = (false, false)
    /\ (run p dollar initialState =
          bind (when (nonzero c) (classifyFailure (argv p) info))
            (fun _ => conclude p) st1
        \/ run p dollar initialState =
           bind (fun st =>
                   match when (nonzero c) (classifyFailure (argv p) info) st with
                   | (Normal tt, st') => (Normal tt, st')
                   | (Throw e, st') => onExecError (message_of e) st'
                   end)
             (fun _ => conclude p) st1).
Proof.
  intros H. destruct (run_prepared p dollar) as (st0 & Hc & E).
  assert (F0 : flags st0 = (false, false)).
  { unfold core in Hc. unfold flags. injection Hc as H1 _ H3 _ _ _.
    now rewrite H1, H3. }
  destruct dollar as [| |[m|result|m|chunks failure]]; try discriminate.
  - simpl in H. injection H as <-.
    destruct (processResult_spec (argv p) result st0) as (st1 & F1 & E1).
    exists [code_value (code result)], st1. split; [congruence|]. right.
    rewrite E. unfold bind, awaitCommand. rewrite E1. reflexivity.
  - simpl in H.
    destruct (iterate_done (argv p) chunks failure c st0 H)
      as (info & st1 & F1 & E1).
    exists info, st1. split; [congruence|]. left.
    rewrite E. unfold bind. rewrite E1. reflexivity.
Qed.

(** A non-zero code with a string as last message, in the command-stream
    variant: the classification completes and the call returns the failure
    object. *)
Lemma run_failed_string (p : Params) (dollar : Dollar) (c : option Z)
    (s : string) :
  exit_code dollar = Some c ->
  nonzero c = true ->
  lastMessage (snd (outcome_of (run p dollar initialState))) = JStr s ->
  exists info st st1 st',
    lastMessage st = JStr s
    /\ limitReached st = false
    /\ classifyFailure (argv p) info st = (Normal tt, st1)
    /\ outcome_of (run p dollar initialState)
       = (Returned (result_of false st1), st')
    /\ trace_grows st1 st'.
Proof.
  intros He Hn Hs.
  destruct (run_ended p dollar c He) as (info & st & Hf & E).
  rewrite Hn in E. unfold when in E.
  assert (Hlast : lastMessage st = JStr s).
  { pose proof (classifyFailure_keeps_last (argv p) info st) as Hk.
    destruct E as [E|E]; rewrite E in Hs; unfold bind in Hs;
      destruct (classifyFailure (argv p) info st) as [[[]|e] st1];
      simpl in Hk, Hs.
    - rewrite <- Hk.
      pose proof (conclude_keeps_last p st1) as Hc.
      destruct (conclude p st1) as [[r|e] st2]; simpl in *; congruence.
    - congruence.
    - rewrite <- Hk.
      pose proof (conclude_keeps_last p st1) as Hc.
      destruct (conclude p st1) as [[r|e] st2]; simpl in *; congruence.
    - rewrite <- Hk.
      pose proof (conclude_keeps_last p
                    (add_log (LogNote "Claude command failed:"
                                [JStr (message_of e)])
                       (set_commandFailed true st1))) as Hc.
      unfold onExecError, bind, modify, log in Hs. simpl in Hs.
      destruct (conclude p _) as [[r|e'] st2]; simpl in *; congruence. }
  destruct (classifyFailure_string (argv p) info st s Hlast)
    as (st1 & E1 & _).
  pose proof (classifyFailure_sets_failed (argv p) info st) as [Hfailed _].
  rewrite E1 in Hfailed. simpl in Hfailed.
  pose proof (conclude_grows p st1) as Hg.
  destruct (conclude_spec p st1) as (st' & E' & _). rewrite E' in Hg.
  rewrite Hfailed in E'. simpl in E', Hg.
  exists info, st, st1, st'.
  unfold flags in Hf. injection Hf as _ Hl.
  repeat split; [exact Hlast|exact Hl|exact E1| |exact Hg].
  destruct E as [E|E]; rewrite E; unfold bind; rewrite E1, E'; reflexivity.
Qed.

Lemma awaitCommand_limit (a : Argv) (result : Result) :
  respects limit_needs_failure (awaitCommand a result).
Proof.
  intros st. unfold awaitCommand.
  assert (H : respects limit_needs_failure (processResult a result)).
  { unfold processResult. repeat respects_step.
    - apply keeps_flags_limit, processStdout_keeps_flags.
    - apply keeps_flags_limit, logStderr_keeps_flags.
    - apply classifyFailure_limit. }
  specialize (H st).
  destruct (processResult a result st) as [[[]|e] st1]; simpl in *;
    [exact H|]. intros _ _. reflexivity.
Qed.

Lemma iterate_limit (a : Argv) (chunks : list Chunk) (failure : option string) :
  respects limit_needs_failure (iterate a chunks failure).
Proof.
  induction chunks as [|ch rest IH]; simpl.
  - destruct failure; [apply respects_throw|apply respects_ret]; exact _.
  - destruct (done ch).
    + apply respects_when; [exact _|]. apply classifyFailure_limit.
    + repeat respects_step.
      * apply keeps_flags_limit, logStderr_keeps_flags.
      * apply keeps_flags_limit, processStdout_keeps_flags.
      * exact IH.
Qed.

(** Whatever the command does, a call that gets to [conclude] gets there
    with the limit flag raised only on a failed command. *)
Lemma run_limit (p : Params) (dollar : Dollar) (r : json) (st' : RunState) :
  outcome_of (run p dollar initialState) = (Returned r, st') ->
  exists st,
    r = result_of (negb (commandFailed st)) st
    /\ (limitReached st = true -> commandFailed st = true).
Proof.
  destruct (run_prepared p dollar) as (st0 & Hc & E). rewrite E. clear E.
  assert (S0 : limitReached st0 = true -> commandFailed st0 = true).
  { unfold core in Hc. injection Hc as _ _ H3 _ _ _. rewrite H3. discriminate. }
  assert (K : forall body : Step unit,
             respects limit_needs_failure body ->
             outcome_of (bind body (fun _ => conclude p) st0) = (Returned r, st') ->
             exists st,
               r = result_of (negb (commandFailed st)) st
               /\ (limitReached st = true -> commandFailed st = true)).
  { intros body Hb. specialize (Hb st0 S0). unfold bind.
    destruct (body st0) as [[[]|e] st1]; simpl in Hb; [|discriminate].
    destruct (conclude_spec p st1) as (st2 & E2 & _). rewrite E2. simpl.
    intros H. injection H as <- _. exists st1. split; [reflexivity|exact Hb]. }
  destruct dollar as [| |[m|result|m|chunks failure]]; try discriminate.
  - apply K, awaitCommand_limit.
  - apply K. unfold onExecError. intros st _ _. reflexivity.
  - apply K, iterate_limit.
Qed.

End CommandStreamFacts.

Import Scenario.

(** * The specification, statement by statement *)

(** ** C1: how the prompts reach the child *)

(** C1.  The spawn variant builds the text handed to [sh -c] by
    interpolating both escaped prompts between double quotes, so that each
    of them is a part of that text; for a prompt that holds a command
    substitution in backquotes, the substitution is part of the command
    line the shell parses. *)
Theorem prompt_is_interpolated_into_shell_command :
  (forall p,
      Spawn.shellCommand p =
      claudePath p ++ " " ++ baseArgs p
        ++ " -p " ++ quoted (escapedPrompt p)
        ++ " --append-system-prompt " ++ quoted (escapedSystemPrompt p)
        ++ " | jq -c .")
  /\ (forall p,
        includes (escapedPrompt p) (Spawn.shellCommand p) = true
        /\ includes (escapedSystemPrompt p) (Spawn.shellCommand p) = true)
  /\ Spawn.spawnCall Scenario.injected =
     {| Spawn.file := "sh";
        Spawn.args :=
          ["-c";
           "claude --output-format stream-json --verbose --dangerously-skip-permissions --model sonnet -p "
             ++ quoted "Explain `touch injected`"
             ++ " --append-system-prompt " ++ quoted "Be careful"
             ++ " | jq -c ."];
        Spawn.cwd := "/tmp/work" |}.
Proof.
  assert (E : forall p,
             Spawn.shellCommand p =
             claudePath p ++ " " ++ baseArgs p
               ++ " -p " ++ quoted (escapedPrompt p)
               ++ " --append-system-prompt " ++ quoted (escapedSystemPrompt p)
               ++ " | jq -c .").
  { intros p. unfold Spawn.shellCommand, Spawn.claudeArgs.
    now rewrite !append_assoc. }
  split; [exact E|]. split; [|reflexivity].
  intros p. rewrite E. unfold quoted. rewrite !append_assoc. split.
  - do 5 apply includes_after. apply includes_front.
  - do 9 apply includes_after. apply includes_front.
Qed.

(** In the command-stream variant the command does not depend on the
    prompts, which go to the two files. *)
Theorem command_stream_keeps_prompts_out {rt : Runtime} (p q : Params) :
  tempDir p = tempDir q -> argv p = argv q -> claudePath p = claudePath q ->
  CommandStream.fullClaudeCommand p = CommandStream.fullClaudeCommand q
  /\ forall dollar,
       map snd (fst (CommandStream.executeClaudeCommand p dollar))
       = [prompt p; systemPrompt p].
Proof.
  intros Ht Ha Hc. split; [|reflexivity].
  unfold CommandStream.fullClaudeCommand, CommandStream.claudeArgs,
    CommandStream.promptFile, CommandStream.systemPromptFile, baseArgs.
  now rewrite Ht, Ha, Hc.
Qed.

(** ** C2: failures of the child *)

(** C2, amended.  In the spawn variant a failure of the child ([spawn]
    throws, or ['error'] comes before ['close']) is caught and the call
    returns an object with [success = false].  In the command-stream
    variant a rejection of the awaited command is caught and returned the
    same way, while a missing [$], a [$] that is not a function and a
    failure to create the command are thrown to the caller. *)
Theorem child_failure_by_variant {rt : Runtime} (p : Params) :
  (forall child message,
      Spawn.failure child = Some message ->
      says "success" false (fst (Spawn.executeClaudeCommand p child)))
  /\ (forall message,
        says "success" false
          (fst (snd (CommandStream.executeClaudeCommand p
                       (CommandStream.Function
                          (CommandStream.AwaitRejects message))))))
  /\ fst (snd (CommandStream.executeClaudeCommand p CommandStream.Missing))
     = Thrown (Error "Command stream ($) is not available")
  /\ fst (snd (CommandStream.executeClaudeCommand p CommandStream.NotAFunction))
     = Thrown (Error "Command stream ($) is not a function")
  /\ (forall message,
        fst (snd (CommandStream.executeClaudeCommand p
                    (CommandStream.Function
                       (CommandStream.CreateThrows message))))
        = Thrown (Error ("Failed to create command stream: " ++ message))).
Proof.
  split; [|split; [|split; [|split]]].
  - intros child message H.
    destruct (execute_rejected p child message H) as (st & E).
    rewrite E. eexists. split; reflexivity.
  - intros message. apply run_await_rejects.
  - now apply (run_throws p CommandStream.Missing).
  - now apply (run_throws p CommandStream.NotAFunction).
  - intros message.
    now apply (run_throws p
                 (CommandStream.Function (CommandStream.CreateThrows message))).
Qed.

Lemma child_failure_witness :
  says "success" false
    (fst (Spawn.executeClaudeCommand sample
            (Spawn.Spawned [Spawn.StdoutData (line messageEvent);
                            Spawn.ChildError "spawn sh ENOENT"]))).
Proof.
  apply (proj1 (child_failure_by_variant sample) _ "spawn sh ENOENT").
  reflexivity.
Defined.

(** The command-stream variant lets two failures out: the guard on [$]
    and the failed creation of the command. *)
Lemma command_stream_escapes :
  fst (snd (CommandStream.executeClaudeCommand sample CommandStream.Missing))
  = Thrown (Error "Command stream ($) is not available")
  /\ fst (snd (CommandStream.executeClaudeCommand sample
                 (CommandStream.Function
                    (CommandStream.CreateThrows "spawn sh ENOENT"))))
     = Thrown (Error "Failed to create command stream: spawn sh ENOENT").
Proof. split; vm_compute; reflexivity. Qed.

(** ** C3: line framing *)

(** The spawn variant frames the same complete lines and keeps the same
    buffer for the same stdout text, however the text is cut into
    chunks. *)
Theorem spawn_framing_ignores_chunk_boundaries (chunks chunks' : list string) :
  concat_all chunks = concat_all chunks' ->
  Spawn.frames EmptyString chunks = Spawn.frames EmptyString chunks'.
Proof. intros H. now rewrite !frames_split, H. Qed.

(** C3.  The command-stream variant, on a line cut into two chunks: fed
    as one chunk, the line counts one message and gives no raw event; cut
    in two, each piece is decoded on its own, no message is counted, both
    pieces come out as raw events and the second piece is the last
    message. *)
Theorem command_stream_splits_line_at_chunk_boundary :
  concat_all [firstHalf; secondHalf] = concat_all [line messageEvent]
  /\ (let whole :=
        stateOf (CommandStream.executeClaudeCommand sample
                   (iterated [line messageEvent])) in
      messageCount whole = 1 /\ raw_events (logged whole) = 0)
  /\ (let halves :=
        stateOf (CommandStream.executeClaudeCommand sample
                   (iterated [firstHalf; secondHalf])) in
      messageCount halves = 0
      /\ raw_events (logged halves) = 2
      /\ lastMessage halves = JStr ("age" ++ str dquote ++ "}")).
Proof. vm_compute. repeat split; reflexivity. Qed.

(** ** C4: exit code 0 *)

(** C4.  Whenever the child ends with exit code 0 (the spawned child
    closes with it; the awaited command resolves with it; the iterated
    command is done with it) the call returns an object whose [success] is
    [true]: the last message plays no part, the markers are looked for
    only after a non-zero code. *)
Theorem exit_zero_is_success {rt : Runtime} (p : Params) :
  (forall child sg,
      Spawn.exit_status child = Some (Some 0%Z, sg) ->
      says "success" true (fst (Spawn.executeClaudeCommand p child)))
  /\ (forall dollar,
        CommandStream.exit_code dollar = Some (Some 0%Z) ->
        says "success" true
          (fst (snd (CommandStream.executeClaudeCommand p dollar)))).
Proof.
  split.
  - intros child sg H.
    destruct (execute_closed p child _ _ H) as (x & st & E & Hx).
    rewrite E. destruct x as [r|e]; [|discriminate].
    destruct Hx as [-> _]. eexists. split; reflexivity.
  - intros dollar H.
    destruct (run_ended p dollar _ H) as (info & st & Hf & E).
    unfold CommandStream.executeClaudeCommand. cbn [fst snd].
    assert (E' : CommandStream.run p dollar initialState = conclude p st).
    { destruct E as [E|E]; rewrite E; reflexivity. }
    rewrite E'. destruct (conclude_spec p st) as (st' & -> & _).
    unfold flags in Hf. injection Hf as -> _.
    eexists. split; reflexivity.
Qed.

Lemma exit_zero_is_success_witness :
  Spawn.exit_status (rateLimited 0) = Some (Some 0%Z, None)
  /\ lastMessage (snd (Spawn.executeClaudeCommand sample (rateLimited 0)))
     = JStr rateLimitText
  /\ rate_limit_marker rateLimitText = true
  /\ says "success" true
       (fst (Spawn.executeClaudeCommand sample (rateLimited 0))).
Proof.
  split; [reflexivity|]. split; [vm_compute; reflexivity|].
  split; [vm_compute; reflexivity|].
  apply (proj1 (exit_zero_is_success sample) (rateLimited 0) None).
  reflexivity.
Defined.

(** ** C5: the buffer left at close *)

(** C5, amended.  In the spawn variant, when the child closes and the
    stdout buffer holds a fragment that is not blank, is not JSON and does
    not contain [node:internal], the close listener logs the fragment as
    one raw event and stops at that [await]; at its next turn it assigns
    the fragment to the last message and resolves the promise, which
    leaves the call with its turn to come, and that is all it does.  For
    a child whose listeners are all through when its next event arrives,
    the fragment is the last message when the call ends, one raw event
    has come on top of those of the complete lines,
    the session id and the counters are as the complete lines left them,
    and the call returns an object whose [success] says whether the exit
    code is 0.  Chunks of stderr are not framed: the listener logs each
    non-empty chunk at once and changes nothing else. *)
Theorem residual_fragment_is_one_raw_event {rt : Runtime} (p : Params)
    (fragment : string) :
  trim_nonempty fragment = true ->
  JSON_parse fragment = None ->
  includes "node:internal" fragment = false ->
  (forall ps st,
      Spawn.stdoutBuffer ps = fragment ->
      exists k,
        advance (Spawn.onClose p ps) st
        = (Parked k, add_log (LogRaw fragment) st)
        /\ forall st',
             advance k st'
             = (Parked
                  (Spawn.onResolved p
                     {| Spawn.code := Spawn.exitCode ps;
                        Spawn.signal := Spawn.exitSignal ps;
                        Spawn.stdout := fragment;
                        Spawn.stderr := Spawn.stderrBuffer ps |}),
                set_lastMessage (JStr fragment) st'))
  /\ (forall child c sg,
        Spawn.exit_status child = Some (c, sg) ->
        Spawn.unhurried p child = true ->
        last_or_empty (split_nl (Spawn.stdout_text child)) = fragment ->
        let run := Spawn.executeClaudeCommand p child in
        let before :=
          snd (processLines (argv p)
                 (removelast (split_nl (Spawn.stdout_text child)))
                 (snd (Spawn.prepare p initialState))) in
        lastMessage (snd run) = JStr fragment
        /\ raw_events (logged (snd run)) = S (raw_events (logged before))
        /\ tally (snd run) = tally before
        /\ says "success" (negb (nonzero c)) (fst run))
  /\ (forall errorOutput ps st,
        advance (snd (Spawn.onStderrData errorOutput ps)) st =
        if String.eqb errorOutput EmptyString then (Done (Normal tt), st)
        else (Parked (Ends (Normal tt)), add_log (LogStderr errorOutput) st)).
Proof.
  intros Ht Hp Hi. split; [|split].
  - intros ps st <-.
    unfold Spawn.onClose, Spawn.flushRest, Spawn.decodeRest,
      Interleaved.parse, Interleaved.rawLine.
    rewrite Ht, Hp, Hi. simpl. eexists. split; reflexivity.
  - intros child c sg He Hu Hlast run before.
    destruct (unhurried_closed p child c sg Hu He)
      as (st0 & E & Hf0 & Hcore & Hlog).
    rewrite Hlast, (flushRest_raw fragment st0 Ht Hp Hi) in E.
    cbn [snd] in E. fold before in Hcore, Hlog.
    set (flushed := set_lastMessage (JStr fragment)
                      (add_log (LogRaw fragment) st0)) in E.
    assert (Hraw0 : raw_events (logged flushed) = S (raw_events (logged before))).
    { unfold flushed. simpl.
      change (logged st0 ++ [LogRaw fragment])%list
        with (logged (add_log (LogRaw fragment) st0)).
      rewrite raw_events_add_log. simpl. f_equal.
      unfold raw_events. now rewrite (Hlog is_raw (fun _ => eq_refl)). }
    assert (Htally0 : tally flushed = tally before).
    { unfold flushed, tally. simpl. unfold core in Hcore.
      injection Hcore as _ C2 _ C4 C5 _. now rewrite C2, C4, C5. }
    unfold run. rewrite E. unfold resolved.
    destruct (nonzero c) eqn:Hn; unfold when.
    + destruct (classifyFailure_string (argv p) (exit_info c sg)
                  flushed fragment eq_refl) as (st1 & E1 & _).
      pose proof (classifyFailure_sets_failed (argv p) (exit_info c sg)
                    flushed) as [Hfailed Hobs].
      pose proof (classifyFailure_keeps_raw (argv p) (exit_info c sg)
                    flushed) as Hraw.
      rewrite E1 in Hfailed, Hobs, Hraw. simpl in Hfailed, Hobs, Hraw.
      unfold bind. rewrite E1.
      pose proof (conclude_keeps_raw p st1) as Hraw2.
      destruct (conclude_spec p st1) as (st2 & E2 & Hc2).
      rewrite E2 in Hraw2 |- *. rewrite Hfailed. simpl in Hraw2 |- *.
      unfold keeps in Hraw, Hraw2. unfold core in Hc2.
      unfold observed in Hobs.
      injection Hc2 as _ C2 _ C4 C5 C6. injection Hobs as O1 O2 O3 O4.
      repeat split.
      * congruence.
      * now rewrite Hraw2, Hraw.
      * rewrite <- Htally0. unfold tally.
        rewrite C2, C4, C5, O1, O2, O3. reflexivity.
      * eexists. split; reflexivity.
    + unfold bind, ret.
      pose proof (conclude_keeps_raw p flushed) as Hraw2.
      destruct (conclude_spec p flushed) as (st2 & E2 & Hc2).
      rewrite E2 in Hraw2 |- *. simpl in Hraw2 |- *.
      unfold keeps in Hraw2. unfold core in Hc2.
      injection Hc2 as _ C2 _ C4 C5 C6.
      assert (F1 : commandFailed st0 = false).
      { unfold flags in Hf0. congruence. }
      repeat split.
      * rewrite C6. reflexivity.
      * now rewrite Hraw2.
      * rewrite <- Htally0. unfold tally. rewrite C2, C4, C5. reflexivity.
      * change (commandFailed flushed) with (commandFailed st0).
        rewrite F1. eexists. split; reflexivity.
  - intros e ps st. unfold Spawn.onStderrData. cbn [snd].
    destruct (String.eqb e EmptyString); reflexivity.
Qed.

Lemma residual_fragment_witness :
  let child :=
    Spawn.Spawned [Spawn.StdoutData (line messageEvent);
                   Spawn.StdoutData truncated;
                   Spawn.Exit (Some 0%Z) None; Spawn.Close] in
  let run := Spawn.executeClaudeCommand sample child in
  let before :=
    snd (processLines (argv sample)
           (removelast (split_nl (Spawn.stdout_text child)))
           (snd (Spawn.prepare sample initialState))) in
  lastMessage (snd run) = JStr truncated
  /\ raw_events (logged (snd run)) = S (raw_events (logged before))
  /\ tally (snd run) = tally before
  /\ says "success" (negb (nonzero (Some 0%Z))) (fst run).
Proof.
  refine (proj1 (proj2 (residual_fragment_is_one_raw_event sample truncated
                          _ _ _))
            (Spawn.Spawned [Spawn.StdoutData (line messageEvent);
                            Spawn.StdoutData truncated;
                            Spawn.Exit (Some 0%Z) None; Spawn.Close])
            (Some 0%Z) None _ _ _);
    vm_compute; reflexivity.
Defined.

(** An event left in the buffer at close is not folded as a line is: it
    is neither counted nor asked for its session id. *)
Lemma residual_event_is_not_folded :
  (let atClose :=
     snd (Spawn.executeClaudeCommand sample
            (Spawn.Spawned [Spawn.StdoutData (sessionEvent "abc");
                            Spawn.Exit (Some 0%Z) None; Spawn.Close])) in
   messageCount atClose = 0 /\ sessionId atClose = JNull)
  /\ (let asLine :=
        snd (Spawn.executeClaudeCommand sample
               (Spawn.Spawned [Spawn.StdoutData (line (sessionEvent "abc"));
                               Spawn.Resumes 0;
                               Spawn.Exit (Some 0%Z) None; Spawn.Close])) in
      messageCount asLine = 1 /\ sessionId asLine = JStr "abc").
Proof. vm_compute. repeat split; reflexivity. Qed.

(** ** C6 and C7: the classification of a failure *)

(** C6.  The spawn variant looks at the last message when the call has
    its turn after ['close'], while a listener can still be parked at
    the [await log(...)] that comes before its [lastMessage = ...].
    With [rateLimitedInHaste] the child says the rate-limit text and
    exits with code 1: the text is logged, it is the last message when
    the call returns, and the call returns [limitReached = false].  When
    the listeners of the child are all through before its next event
    arrives, and in the command-stream variant, a non-zero exit code (or
    none) and a last message that contains one of the three rate-limit
    markers give [success = false] and [limitReached = true]. *)
Theorem rate_limit_is_missed_in_haste {rt : Runtime} (p : Params) :
  (let run := @Spawn.executeClaudeCommand RefRuntime sample rateLimitedInHaste in
   Spawn.exit_status rateLimitedInHaste = Some (Some 1%Z, None)
   /\ In (LogClaude (JStr rateLimitText)) (logged (snd run))
   /\ lastMessage (snd run) = JStr rateLimitText
   /\ rate_limit_marker rateLimitText = true
   /\ says "success" false (fst run)
   /\ says "limitReached" false (fst run))
  /\ (forall s child c sg,
        rate_limit_marker s = true ->
        Spawn.exit_status child = Some (c, sg) ->
        nonzero c = true ->
        Spawn.unhurried p child = true ->
        lastMessage (snd (Spawn.executeClaudeCommand p child)) = JStr s ->
        says "success" false (fst (Spawn.executeClaudeCommand p child))
        /\ says "limitReached" true (fst (Spawn.executeClaudeCommand p child)))
  /\ (forall s dollar c,
        rate_limit_marker s = true ->
        CommandStream.exit_code dollar = Some c ->
        nonzero c = true ->
        lastMessage (snd (snd (CommandStream.executeClaudeCommand p dollar)))
        = JStr s ->
        says "success" false
          (fst (snd (CommandStream.executeClaudeCommand p dollar)))
        /\ says "limitReached" true
             (fst (snd (CommandStream.executeClaudeCommand p dollar)))).
Proof.
  split; [|split].
  - cbv zeta. split; [reflexivity|].
    split; [vm_compute; tauto|]. split; [vm_compute; reflexivity|].
    split; [vm_compute; reflexivity|].
    split; eexists; (split; [vm_compute; reflexivity|reflexivity]).
  - intros s child c sg Hm He Hn Hu Hs.
    destruct (execute_failed_string p child c sg s He Hn Hu Hs)
      as (st & st1 & st' & Hlast & Hl & E1 & E & _).
    rewrite E. cbn [fst].
    pose proof (classified_rate_limit _ _ _ _ _ Hlast E1 Hm) as Hlim.
    split; eexists; (split; [reflexivity|]); simpl; now rewrite ?Hlim.
  - intros s dollar c Hm He Hn Hs.
    destruct (run_failed_string p dollar c s He Hn Hs)
      as (info & st & st1 & st' & Hlast & Hl & E1 & E & _).
    unfold CommandStream.executeClaudeCommand. cbn [fst snd]. rewrite E.
    cbn [fst].
    pose proof (classified_rate_limit _ _ _ _ _ Hlast E1 Hm) as Hlim.
    split; eexists; (split; [reflexivity|]); simpl; now rewrite ?Hlim.
Qed.

Lemma rate_limit_is_reported_in_turn :
  says "success" false (fst (Spawn.executeClaudeCommand sample (rateLimited 1)))
  /\ says "limitReached" true
       (fst (Spawn.executeClaudeCommand sample (rateLimited 1))).
Proof.
  apply (proj1 (proj2 (rate_limit_is_missed_in_haste sample))
           rateLimitText (rateLimited 1) (Some 1%Z) None);
    vm_compute; reflexivity.
Defined.

(** C7.  The same turn decides between the branches of the
    classification.  With [overflowedInHaste] the child says a text that
    holds the words [rate limit], then [context_length_exceeded], and
    exits with code 1: the listener is parked at the [await log(...)] of
    the second text when the call looks at the last message, the call
    returns [limitReached = true] and never logs the context-overflow
    message, and the last message is [context_length_exceeded] when it
    returns.  When the listeners of the child are all through before its
    next event arrives, and in the command-stream variant, a non-zero
    exit code and a last message that contains [context_length_exceeded]
    and none of the rate-limit markers give [success = false] and
    [limitReached = false], and the context-overflow message is
    logged. *)
Theorem context_overflow_is_misread_in_haste {rt : Runtime} (p : Params) :
  (let run := @Spawn.executeClaudeCommand RefRuntime sample overflowedInHaste in
   Spawn.exit_status overflowedInHaste = Some (Some 1%Z, None)
   /\ lastMessage (snd run) = JStr "context_length_exceeded"
   /\ context_marker "context_length_exceeded" = true
   /\ rate_limit_marker "context_length_exceeded" = false
   /\ says "limitReached" true (fst run)
   /\ ~ In contextNote (logged (snd run)))
  /\ (forall s child c sg,
        context_marker s = true ->
        rate_limit_marker s = false ->
        Spawn.exit_status child = Some (c, sg) ->
        nonzero c = true ->
        Spawn.unhurried p child = true ->
        lastMessage (snd (Spawn.executeClaudeCommand p child)) = JStr s ->
        says "success" false (fst (Spawn.executeClaudeCommand p child))
        /\ says "limitReached" false (fst (Spawn.executeClaudeCommand p child))
        /\ In contextNote (logged (snd (Spawn.executeClaudeCommand p child))))
  /\ (forall s dollar c,
        context_marker s = true ->
        rate_limit_marker s = false ->
        CommandStream.exit_code dollar = Some c ->
        nonzero c = true ->
        lastMessage (snd (snd (CommandStream.executeClaudeCommand p dollar)))
        = JStr s ->
        says "success" false
          (fst (snd (CommandStream.executeClaudeCommand p dollar)))
        /\ says "limitReached" false
             (fst (snd (CommandStream.executeClaudeCommand p dollar)))
        /\ In contextNote
             (logged (snd (snd (CommandStream.executeClaudeCommand p dollar))))).
Proof.
  split; [|split].
  - cbv zeta. split; [reflexivity|]. split; [vm_compute; reflexivity|].
    split; [reflexivity|]. split; [vm_compute; reflexivity|].
    split; [eexists; split; [vm_compute; reflexivity|reflexivity]|].
    vm_compute. intuition discriminate.
  - intros s child c sg Hctx Hm He Hn Hu Hs.
    destruct (execute_failed_string p child c sg s He Hn Hu Hs)
      as (st & st1 & st' & Hlast & Hl & E1 & E & Hg).
    rewrite E. cbn [fst snd].
    destruct (classified_context _ _ _ _ _ Hlast Hl E1 Hm Hctx) as [Hlim Hin].
    split; [|split].
    + eexists. split; reflexivity.
    + eexists. split; [reflexivity|]. simpl. now rewrite Hlim.
    + destruct Hg as [more ->]. apply in_or_app. now left.
  - intros s dollar c Hctx Hm He Hn Hs.
    destruct (run_failed_string p dollar c s He Hn Hs)
      as (info & st & st1 & st' & Hlast & Hl & E1 & E & Hg).
    unfold CommandStream.executeClaudeCommand. cbn [fst snd]. rewrite E.
    cbn [fst snd].
    destruct (classified_context _ _ _ _ _ Hlast Hl E1 Hm Hctx) as [Hlim Hin].
    split; [|split].
    + eexists. split; reflexivity.
    + eexists. split; [reflexivity|]. simpl. now rewrite Hlim.
    + destruct Hg as [more ->]. apply in_or_app. now left.
Qed.

Lemma context_overflow_is_read_in_turn :
  says "success" false (fst (Spawn.executeClaudeCommand sample overflowed))
  /\ says "limitReached" false (fst (Spawn.executeClaudeCommand sample overflowed))
  /\ In contextNote (logged (snd (Spawn.executeClaudeCommand sample overflowed))).
Proof.
  apply (proj1 (proj2 (context_overflow_is_misread_in_haste sample))
           "context_length_exceeded" overflowed (Some 1%Z) None);
    vm_compute; reflexivity.
Defined.

(** ** C8: the fields of the result *)

(** C8, amended.  Every object returned by [executeClaudeCommand], in
    either variant, has exactly the five fields [success], [sessionId],
    [limitReached], [messageCount] and [toolUseCount], the last four read
    off the variables of the run; the exit code and the signal are not
    among them. *)
Theorem result_has_exactly_five_fields {rt : Runtime} (p : Params) :
  (forall child r st,
      Spawn.executeClaudeCommand p child = (Returned r, st) ->
      exists b,
        r = JObj [("success", JBool b);
                  ("sessionId", sessionId st);
                  ("limitReached", JBool (limitReached st));
                  ("messageCount", number (messageCount st));
                  ("toolUseCount", number (toolUseCount st))])
  /\ (forall dollar r st,
        snd (CommandStream.executeClaudeCommand p dollar) = (Returned r, st) ->
        exists b,
          r = JObj [("success", JBool b);
                    ("sessionId", sessionId st);
                    ("limitReached", JBool (limitReached st));
                    ("messageCount", number (messageCount st));
                    ("toolUseCount", number (toolUseCount st))]).
Proof.
  split.
  - intros child r st H. now apply (spawn_returned p child).
  - intros dollar r st H. now apply (run_returned p dollar).
Qed.

Lemma result_has_exactly_five_fields_witness :
  let st := snd (Spawn.executeClaudeCommand sample twoEvents) in
  exists b,
    JObj [("success", JBool true); ("sessionId", JNull);
          ("limitReached", JBool false); ("messageCount", JNum 1 0);
          ("toolUseCount", JNum 1 0)]
    = JObj [("success", JBool b);
            ("sessionId", sessionId st);
            ("limitReached", JBool (limitReached st));
            ("messageCount", number (messageCount st));
            ("toolUseCount", number (toolUseCount st))].
Proof.
  apply (proj1 (result_has_exactly_five_fields sample) twoEvents).
  vm_compute. reflexivity.
Defined.

(** A child that exits with code 7, a child killed by SIGKILL, and a
    command done with both return the same object, and none of its fields
    holds the code or the signal. *)
Lemma exit_status_is_not_returned :
  let failed :=
    JObj [("success", JBool false); ("sessionId", JNull);
          ("limitReached", JBool false); ("messageCount", JNum 0 0);
          ("toolUseCount", JNum 0 0)] in
  fst (Spawn.executeClaudeCommand sample
         (Spawn.Spawned [Spawn.Exit (Some 7%Z) None; Spawn.Close]))
  = Returned failed
  /\ fst (Spawn.executeClaudeCommand sample
            (Spawn.Spawned [Spawn.Exit None (Some "SIGKILL"); Spawn.Close]))
     = Returned failed
  /\ fst (snd (CommandStream.executeClaudeCommand sample
                 (CommandStream.Function
                    (CommandStream.Iterates
                       [{| CommandStream.done := true;
                           CommandStream.chunk_code := Some 7%Z;
                           CommandStream.chunk_signal := Some "SIGKILL";
                           CommandStream.chunk_stdout := None;
                           CommandStream.chunk_stderr := None |}] None))))
     = Returned failed
  /\ ~ (exists k, field failed k = Some (JNum 7 0))
  /\ ~ (exists k, field failed k = Some (JStr "SIGKILL")).
Proof.
  cbv zeta. split; [vm_compute; reflexivity|].
  split; [vm_compute; reflexivity|]. split; [vm_compute; reflexivity|].
  split; intros [k H]; simpl in H;
    repeat match type of H with
           | context [String.eqb k ?key] => destruct (String.eqb k key)
           end; discriminate.
Qed.

(** ** C9: the session id *)



(** The two lines of the witness: the first session id is kept. *)
Example first_session_id_is_kept :
  first_carried [sessionEvent "abc"; sessionEvent "xyz"] = Some (JStr "abc")
  /\ sessionId
       (snd (processLines sampleArgv [sessionEvent "abc"; sessionEvent "xyz"]
               initialState)) = JStr "abc".
Proof. vm_compute. split; reflexivity. Qed.

(** ** C10: the limit flag and success *)

(** C10.  In every object [executeClaudeCommand] returns, in either
    variant, [limitReached = true] comes with [success = false]: the flag
    is raised only in the branch of the non-zero exit code, which first
    fails the command. *)
Theorem limit_reached_implies_failure {rt : Runtime} (p : Params) (r : json) :
  field r "limitReached" = Some (JBool true) ->
  (forall child,
      fst (Spawn.executeClaudeCommand p child) = Returned r ->
      field r "success" = Some (JBool false))
  /\ (forall dollar,
        fst (snd (CommandStream.executeClaudeCommand p dollar)) = Returned r ->
        field r "success" = Some (JBool false)).
Proof.
  intros Hl. split.
  - intros child Hr.
    destruct (execute_any p child) as [E|(x & st & E & Hx)].
    + rewrite E in Hr. discriminate.
    + rewrite E in Hr. destruct x as [r'|e]; [|discriminate].
      injection Hr as ->. destruct Hx as (b & -> & Hb).
      simpl in Hl. injection Hl as Hl. now rewrite (Hb Hl).
  - intros dollar Hr.
    unfold CommandStream.executeClaudeCommand in Hr. cbn [fst snd] in Hr.
    destruct (outcome_of (CommandStream.run p dollar initialState))
      as [o st'] eqn:E.
    simpl in Hr. subst o.
    destruct (run_limit p dollar r st' E) as (st & -> & Hs).
    simpl in Hl. injection Hl as Hl. rewrite (Hs Hl). reflexivity.
Qed.

Lemma limit_reached_implies_failure_witness :
  fst (Spawn.executeClaudeCommand sample (rateLimited 1)) = Returned limitedResult
  /\ field limitedResult "limitReached" = Some (JBool true)
  /\ field limitedResult "success" = Some (JBool false).
Proof.
  assert (H : fst (Spawn.executeClaudeCommand sample (rateLimited 1))
              = Returned limitedResult) by (vm_compute; reflexivity).
  split; [exact H|]. split; [reflexivity|].
  exact (proj1 (limit_reached_implies_failure sample limitedResult eq_refl)
           (rateLimited 1) H).
Defined.

(** * Beyond the specification *)

Lemma split_nl_written (s : string) :
  written (removelast (split_nl s)) (last_or_empty (split_nl s)) = s.
Proof.
  unfold written, last_or_empty.
  induction s as [|c r IH]; [reflexivity|].
  destruct (Ascii.eqb c nl) eqn:Hc.
  - simpl split_nl. rewrite Hc.
    destruct (split_nl r) as [|h t] eqn:E; [now apply split_nl_not_nil in E|].
    cbn [removelast last map concat_all fold_right].
    apply Ascii.eqb_eq in Hc. subst c.
    change (concat_all (map (fun l => l ++ str nl) (removelast (h :: t)))
            ++ last (h :: t) EmptyString = r) in IH.
    simpl. f_equal. exact IH.
  - rewrite split_nl_cons by assumption.
    destruct (split_nl r) as [|h t] eqn:E; [now apply split_nl_not_nil in E|].
    destruct t as [|x t'].
    + simpl in IH. simpl. now rewrite IH.
    + cbn [hd tl removelast last map concat_all fold_right] in *.
      rewrite append_assoc in *. simpl. f_equal.
      exact IH.
Qed.

Lemma split_nl_one_line (s : string) : forallb one_line (split_nl s) = true.
Proof.
  induction s as [|c r IH]; [reflexivity|].
  destruct (Ascii.eqb c nl) eqn:Hc.
  - simpl. rewrite Hc. simpl. exact IH.
  - rewrite split_nl_cons by assumption.
    destruct (split_nl r) as [|h t] eqn:E; [now apply split_nl_not_nil in E|].
    simpl in *. rewrite Hc. simpl. exact IH.
Qed.

Lemma forallb_removelast {A} (f : A -> bool) (l : list A) :
  forallb f l = true -> forallb f (removelast l) = true.
Proof.
  induction l as [|x l IH]; [reflexivity|].
  simpl. destruct l as [|y l']; [reflexivity|].
  intros H. apply andb_true_iff in H. destruct H as [Hx Hl].
  cbn [forallb]. rewrite Hx. apply IH. exact Hl.
Qed.

Lemma forallb_last {A} (f : A -> bool) (l : list A) (d : A) :
  forallb f l = true -> f d = true -> f (last l d) = true.
Proof.
  induction l as [|x l IH]; [intros _ H; exact H|].
  simpl. intros H Hd. apply andb_true_iff in H. destruct H as [Hx Hl].
  destruct l as [|y l']; [exact Hx|]. apply IH; assumption.
Qed.

Lemma split_nl_one (s : string) : one_line s = true -> split_nl s = [s].
Proof.
  induction s as [|c r IH]; [reflexivity|].
  simpl. intros H. apply andb_true_iff in H. destruct H as [Hc Hr].
  apply negb_true_iff in Hc. rewrite Hc, (IH Hr). reflexivity.
Qed.

Lemma split_nl_line (l s : string) :
  one_line l = true -> split_nl (l ++ str nl ++ s) = l :: split_nl s.
Proof.
  induction l as [|c r IH]; [reflexivity|].
  simpl one_line. intros H. apply andb_true_iff in H. destruct H as [Hc Hr].
  apply negb_true_iff in Hc.
  change (String c r ++ str nl ++ s) with (String c (r ++ str nl ++ s)).
  rewrite split_nl_cons by assumption. rewrite (IH Hr). reflexivity.
Qed.

Lemma split_nl_of_written (lines : list string) (rest : string) :
  forallb one_line lines = true -> one_line rest = true ->
  split_nl (written lines rest) = (lines ++ [rest])%list.
Proof.
  intros Hl Hr. unfold written.
  induction lines as [|l lines IH]; [now apply split_nl_one|].
  simpl in Hl. apply andb_true_iff in Hl. destruct Hl as [H1 H2].
  cbn [map concat_all fold_right]. rewrite !append_assoc.
  rewrite split_nl_line by assumption.
  change (fold_right append EmptyString (map (fun l0 => l0 ++ str nl) lines))
    with (concat_all (map (fun l0 => l0 ++ str nl) lines)).
  rewrite (IH H2). reflexivity.
Qed.

(** X1.  The stdout listener of the spawn variant frames the text
    as it was written: after any sequence of chunks, the complete lines
    it has processed and the buffer it holds are the one way to read the
    whole text as lines without line feed, each ended by a line feed,
    followed by an unended rest without line feed.  No code unit is lost
    or repeated. *)
Theorem spawn_frames_are_the_written_lines (chunks lines : list string)
    (rest : string) :
  Spawn.frames EmptyString chunks = (lines, rest)
  <-> (written lines rest = concat_all chunks
       /\ forallb one_line lines = true
       /\ one_line rest = true).
Proof.
  rewrite frames_split. split.
  - intros H. injection H as <- <-.
    split; [apply split_nl_written|]. split.
    + apply forallb_removelast, split_nl_one_line.
    + apply forallb_last; [apply split_nl_one_line|reflexivity].
  - intros (Hw & Hl & Hr). rewrite <- Hw.
    rewrite split_nl_of_written by assumption.
    unfold last_or_empty.
    rewrite removelast_last, last_last. reflexivity.
Qed.

Section MoreLinesFacts.

Context {rt : Runtime}.

Lemma rawLine_keeps_counters (line : string) :
  respects (keeps counters) (rawLine line).
Proof. unfold rawLine. keeps_tac. Qed.

Lemma captureSessionId_keeps_counters (data : json) :
  respects (keeps counters) (captureSessionId data).
Proof. unfold captureSessionId, prop. keeps_tac. Qed.

Lemma formatOutput_keeps_counters (a : Argv) (data : json) :
  respects (keeps counters) (formatOutput a data).
Proof. unfold formatOutput, toolDetail, toolResult. keeps_tac. Qed.

Lemma trackCounts_counters (data : json) (st : RunState) :
  data <> JNull ->
  exists st',
    trackCounts data st = (Normal tt, st')
    /\ counters st' = counted (field data "type") (counters st).
Proof.
  intros Hd. unfold trackCounts, prop, bind.
  assert (E : (match data with JNull => throw TypeError | _ => ret (field data "type") end) st
              = (Normal (field data "type"), st)).
  { destruct data; try reflexivity. now elim Hd. }
  rewrite E. unfold counted, counters.
  destruct (is_str "message" (field data "type")) eqn:Hm.
  - assert (Ht : is_str "tool_use" (field data "type") = false).
    { destruct (field data "type") as [[]|]; try reflexivity.
      simpl in *. apply String.eqb_eq in Hm. now subst. }
    rewrite Ht. eexists. split; reflexivity.
  - destruct (is_str "tool_use" (field data "type"));
      eexists; split; reflexivity.
Qed.

Lemma captureSessionId_null (st : RunState) :
  truthy (sessionId st) = false ->
  captureSessionId JNull st = (Throw TypeError, st).
Proof. intros H. unfold captureSessionId, bind, gets. now rewrite H. Qed.

End MoreLinesFacts.

Section CountersFacts.

Context {rt : Runtime}.

Lemma captureSessionId_normal (data : json) (st : RunState) :
  data <> JNull -> fst (captureSessionId data st) = Normal tt.
Proof.
  intros Hd. unfold captureSessionId, bind, gets, prop.
  destruct (truthy (sessionId st)); [reflexivity|].
  destruct data; try (now elim Hd); simpl; try reflexivity.
  destruct (obj_get "session_id" fields) as [id|]; [|reflexivity].
  destruct (truthy id); reflexivity.
Qed.

Lemma counted_none (c : nat * nat) : counted None c = c.
Proof. destruct c. reflexivity. Qed.

Lemma decodeLine_null_counters (a : Argv) (st : RunState) :
  counters (snd (bind (captureSessionId JNull)
                   (fun _ => bind (trackCounts JNull)
                               (fun _ => formatOutput a JNull)) st))
  = counters st.
Proof.
  unfold bind at 1.
  pose proof (captureSessionId_keeps_counters JNull st) as Hk.
  destruct (captureSessionId JNull st) as [[[]|e] st1]; exact Hk.
Qed.

Lemma decodeOrRaw_counters (a : Argv) (line : string) (st : RunState) :
  counters (snd (decodeOrRaw a line st)) =
  match JSON_parse line with
  | Some data => counted (field data "type") (counters st)
  | None => counters st
  end.
Proof.
  unfold decodeOrRaw.
  rewrite keeps_after_try_catch by apply rawLine_keeps_counters.
  unfold decodeLine, parse.
  destruct (JSON_parse line) as [data|]; [|reflexivity].
  unfold bind at 1. unfold ret.
  assert (Hd : data = JNull \/ data <> JNull)
    by (destruct data; (now left) || (right; discriminate)).
  destruct Hd as [->|Hd].
  - rewrite decodeLine_null_counters. simpl field. now rewrite counted_none.
  - unfold bind at 1.
    pose proof (captureSessionId_normal data st Hd) as Hn.
    pose proof (captureSessionId_keeps_counters data st) as Hk.
    destruct (captureSessionId data st) as [[[]|e] st1]; simpl in Hn, Hk;
      [|discriminate].
    rewrite keeps_after_bind by (intros _; apply formatOutput_keeps_counters).
    destruct (trackCounts_counters data st1 Hd) as (st2 & -> & H2).
    simpl. rewrite H2. unfold keeps in Hk. now rewrite Hk.
Qed.

Lemma processLine_counters (a : Argv) (line : string) (st : RunState) :
  counters (snd (processLine a line st)) = counted (event_type line) (counters st).
Proof.
  unfold processLine, event_type.
  destruct (trim_nonempty line); [|simpl; now rewrite counted_none].
  rewrite decodeOrRaw_counters.
  destruct (JSON_parse line); [reflexivity|now rewrite counted_none].
Qed.

Lemma processLines_counters (a : Argv) (lines : list string) (st : RunState) :
  counters (snd (processLines a lines st)) =
  (events_of_type "message" lines + messageCount st,
   events_of_type "tool_use" lines + toolUseCount st).
Proof.
  revert st. induction lines as [|line rest IH]; intros st; [reflexivity|].
  change (processLines a (line :: rest))
    with (bind (processLine a line) (fun _ => processLines a rest)).
  unfold bind.
  pose proof (processLine_normal a line st) as Hn.
  pose proof (processLine_counters a line st) as Hc.
  destruct (processLine a line st) as [[[]|e] st1]; simpl in Hn, Hc;
    [|discriminate].
  rewrite IH. unfold counters, counted in Hc. injection Hc as H1 H2.
  rewrite H1, H2. unfold events_of_type. simpl filter.
  destruct (is_str "message" (event_type line));
    destruct (is_str "tool_use" (event_type line)); simpl; f_equal; lia.
Qed.

Lemma processLine_passed_over (a : Argv) (line : string) (st : RunState) :
  passed_over line = true -> processLine a line st = (Normal tt, st).
Proof.
  unfold passed_over, processLine. intros H.
  destruct (trim_nonempty line) eqn:Ht; [|reflexivity].
  simpl in H. unfold decodeOrRaw, try_catch, decodeLine, parse, bind.
  destruct (JSON_parse line); [discriminate|].
  simpl. unfold rawLine. rewrite Ht, H. reflexivity.
Qed.

End CountersFacts.

(** X3.  Folding lines, [messageCount] grows by the number of
    lines that are not blank and decode to a value whose [type] is
    [message], and [toolUseCount] by the number of those whose [type] is
    [tool_use]; nothing else moves the counters: not a line that is not
    JSON, not a line that decodes to [null], not an event whose report
    throws.  The same holds for the lines of one chunk in the
    command-stream variant. *)
Theorem counters_count_the_events {rt : Runtime} (a : Argv) (st : RunState) :
  (forall lines,
      let st' := snd (processLines a lines st) in
      messageCount st' = events_of_type "message" lines + messageCount st
      /\ toolUseCount st' = events_of_type "tool_use" lines + toolUseCount st)
  /\ (forall output,
        let st' := snd (CommandStream.processOutput a output st) in
        messageCount st'
        = events_of_type "message" (split_nl output) + messageCount st
        /\ toolUseCount st'
           = events_of_type "tool_use" (split_nl output) + toolUseCount st).
Proof.
  split.
  - intros lines st'. pose proof (processLines_counters a lines st) as H.
    fold st' in H. unfold counters in H. injection H as H1 H2. now split.
  - intros output st'. unfold st'.
    rewrite processOutput_is_processLines.
    pose proof (processLines_counters a (split_nl output) st) as H.
    unfold counters in H. injection H as H1 H2. now split.
Qed.

(** X4.  Blank lines and lines that are not JSON and mention
    [node:internal] leave no trace: with or without them, folding the
    lines ends the same way in the same state, trace included. *)
Theorem passed_over_lines_leave_no_trace {rt : Runtime} (a : Argv)
    (lines : list string) (st : RunState) :
  processLines a lines st
  = processLines a (filter (fun l => negb (passed_over l)) lines) st.
Proof.
  revert st. induction lines as [|line rest IH]; intros st; [reflexivity|].
  simpl filter. destruct (passed_over line) eqn:Hp; simpl negb; cbv iota.
  - change (processLines a (line :: rest))
      with (bind (processLine a line) (fun _ => processLines a rest)).
    unfold bind. rewrite processLine_passed_over by assumption. apply IH.
  - change (processLines a (line :: rest) st)
      with (bind (processLine a line) (fun _ => processLines a rest) st).
    change (processLines a (line :: filter (fun l => negb (passed_over l)) rest) st)
      with (bind (processLine a line)
              (fun _ => processLines a
                          (filter (fun l => negb (passed_over l)) rest)) st).
    unfold bind. destruct (processLine a line st) as [[[]|e] st1];
      [apply IH|reflexivity].
Qed.

(** ** The last message and the trace *)

Lemma last_shown_app (l l' : list LogMsg) (before : json) :
  last_shown (l ++ l') before = last_shown l' (last_shown l before).
Proof.
  revert before. induction l as [|m l IH]; intros before; [reflexivity|].
  simpl. apply IH.
Qed.

#[local] Instance tells_preorder : PreOrder tells.
Proof.
  split.
  - intros st. exists []. split; [now rewrite app_nil_r|reflexivity].
  - intros a b c (m1 & L1 & M1) (m2 & L2 & M2). exists (m1 ++ m2)%list.
    split; [now rewrite L2, L1, app_assoc|].
    now rewrite last_shown_app, <- M1.
Qed.

Lemma tells_pair (m : LogMsg) (v : json) :
  shown m = Some v ->
  respects tells (bind (log m) (fun _ => modify (set_lastMessage v))).
Proof.
  intros H st. exists [m]. simpl. rewrite H. split; reflexivity.
Qed.

Lemma tells_log (m : LogMsg) : shown m = None -> respects tells (log m).
Proof.
  intros H st. exists [m]. simpl. rewrite H. split; reflexivity.
Qed.

Lemma tells_modify (f : RunState -> RunState) :
  (forall st, logged (f st) = logged st) ->
  (forall st, lastMessage (f st) = lastMessage st) ->
  respects tells (modify f).
Proof.
  intros Hl Hm st. exists []. simpl. rewrite Hl, Hm, app_nil_r.
  split; reflexivity.
Qed.

(** The rules of the logic for [tells]: the pair of a call of [log] and
    the assignment of what it showed is taken as one step. *)
Ltac tells_tac :=
  repeat first
    [ apply tells_pair; reflexivity
    | apply tells_log; reflexivity
    | apply tells_modify; intros; reflexivity
    | respects_step ].

Section ShownFacts.

Context {rt : Runtime}.

Lemma decodeOrRaw_tells (a : Argv) (line : string) :
  respects tells (decodeOrRaw a line).
Proof.
  unfold decodeOrRaw, decodeLine, rawLine, parse,
    captureSessionId, trackCounts, formatOutput, toolDetail, toolResult, prop.
  tells_tac.
Qed.

Lemma processLines_tells (a : Argv) (lines : list string) :
  respects tells (processLines a lines).
Proof.
  unfold processLines, processLine. tells_tac. apply decodeOrRaw_tells.
Qed.

(** The close listener, with nothing between its turns. *)
Lemma flushRest_tells (buffer : string) (st : RunState) :
  tells st (snd (finish (Spawn.flushRest buffer) st)).
Proof.
  unfold Spawn.flushRest, Spawn.decodeRest, Interleaved.parse,
    Interleaved.prop, Interleaved.rawLine, Interleaved.when.
  repeat first
    [ progress simpl
    | match goal with
      | |- context [if ?b then _ else _] => destruct b
      | |- context [match ?x with _ => _ end] => destruct x
      end ];
    first [reflexivity | eexists; split; reflexivity].
Qed.

Lemma classifyFailure_tells (a : Argv) (info : list json) :
  respects tells (classifyFailure a info).
Proof.
  unfold classifyFailure, hitRateLimit, js_includes. tells_tac.
Qed.

Lemma logResources_tells (r : Snapshot) : respects tells (logResources r).
Proof. unfold logResources. tells_tac. Qed.

Lemma resultObject_tells (b : bool) : respects tells (resultObject b).
Proof. unfold resultObject. tells_tac. Qed.

Lemma conclude_tells (p : Params) : respects tells (conclude p).
Proof.
  unfold conclude. tells_tac;
    first [apply logResources_tells | apply resultObject_tells].
Qed.

Lemma announce_tells (p : Params) : respects tells (announce p).
Proof. unfold announce. tells_tac; apply logResources_tells. Qed.

Lemma logResume_tells (p : Params) : respects tells (logResume p).
Proof. unfold logResume. tells_tac. Qed.

Lemma logCommandDetails_tells (p : Params) :
  respects tells (logCommandDetails p).
Proof. unfold logCommandDetails. tells_tac. Qed.

Lemma spawn_prepare_tells (p : Params) : respects tells (Spawn.prepare p).
Proof.
  unfold Spawn.prepare. tells_tac;
    first [apply announce_tells | apply logResume_tells
          | apply logCommandDetails_tells].
Qed.

Lemma outcome_of_snd (c : Completion json * RunState) :
  snd (outcome_of c) = snd c.
Proof. destruct c as [[r|e] st]; reflexivity. Qed.

Lemma resolved_tells (p : Params) (c : option Z) (sg : option string) :
  respects tells (resolved p c sg).
Proof.
  unfold resolved. tells_tac;
    first [apply classifyFailure_tells | apply conclude_tells].
Qed.

(** As long as no listener is overtaken, the last message is what the
    trace shows last, once the parked listener is through. *)
Lemma in_turn_tells (p : Params) (events : list Spawn.ChildEvent)
    (w : Spawn.World) :
  Spawn.call w = Spawn.Blocked -> one_at_most w ->
  Spawn.in_turn p events w = true ->
  tells (ahead w) (snd (Spawn.outcome (Spawn.executeCommand p events w))).
Proof.
  revert w. induction events as [|e rest IH]; intros w Eb H1 Hi.
  - simpl in Hi. apply none_parked_spec in Hi.
    unfold Spawn.executeCommand, Spawn.outcome. simpl.
    rewrite Eb, (ahead_empty w Hi). reflexivity.
  - simpl in Hi. apply andb_prop in Hi. destruct Hi as [Hn Hi].
    change (Spawn.executeCommand p (e :: rest) w)
      with (Spawn.executeCommand p rest (Spawn.step p w e)).
    destruct e as [output|errorOutput|ec es| |message|n|]; simpl in Hn;
      try apply none_parked_spec in Hn;
      unfold Spawn.step in *; rewrite Eb in *.
    + unfold Spawn.onStdoutData in *.
      destruct (Spawn.frame (Spawn.stdoutBuffer (Spawn.proc w)) output)
        as [lines kept].
      match type of Hi with
      | Spawn.in_turn p rest (Spawn.start ?ps ?t w) = true =>
          destruct (start_ahead ps t w Hn) as [Ea H1'];
          assert (Eb' : Spawn.call (Spawn.start ps t w) = Spawn.Blocked)
            by (unfold Spawn.start; now destruct (advance _ (Spawn.vars w)))
      end.
      etransitivity; [|apply (IH _ Eb' H1' Hi)].
      rewrite Ea, processLines_agrees, (ahead_empty w Hn).
      apply processLines_tells.
    + unfold Spawn.onStderrData in *.
      match type of Hi with
      | Spawn.in_turn p rest (Spawn.start ?ps ?t w) = true =>
          destruct (start_ahead ps t w Hn) as [Ea H1'];
          assert (Eb' : Spawn.call (Spawn.start ps t w) = Spawn.Blocked)
            by (unfold Spawn.start; now destruct (advance _ (Spawn.vars w)))
      end.
      etransitivity; [|apply (IH _ Eb' H1' Hi)].
      rewrite Ea, (ahead_empty w Hn).
      destruct (negb (String.eqb errorOutput EmptyString)); simpl;
        [|reflexivity].
      exists [LogStderr errorOutput]. split; reflexivity.
    + apply (IH {| Spawn.proc := Spawn.onExit ec es (Spawn.proc w);
                   Spawn.vars := Spawn.vars w;
                   Spawn.parked := Spawn.parked w;
                   Spawn.call := Spawn.Blocked |} eq_refl);
        [|exact Hi]. left. exact Hn.
    + rewrite outcome_alone.
      * rewrite outcome_proceed, onClose_finish, outcome_of_snd.
        rewrite (ahead_empty w Hn).
        etransitivity; [apply flushRest_tells|apply resolved_tells].
      * unfold Spawn.proceed. now destruct (advance _ (Spawn.vars w)).
      * unfold Spawn.proceed.
        now destruct (advance _ (Spawn.vars w)) as [[x|k] st].
    + rewrite outcome_alone; [|exact Hn|discriminate].
      unfold Spawn.outcome. cbn [Spawn.call Spawn.vars].
      rewrite outcome_of_snd, (ahead_empty w Hn).
      simpl. eexists. split; reflexivity.
    + destruct (takeTurn_ahead n w H1) as [Ea H1'].
      rewrite <- Ea. apply IH; [|exact H1'|exact Hi].
      unfold Spawn.takeTurn.
      destruct (nth_error (Spawn.parked w) n); [|exact Eb].
      now destruct (advance _ (Spawn.vars w)).
    + now apply IH.
Qed.

Lemma spawn_tells (p : Params) (child : Spawn.Child) :
  Spawn.unhurried p child = true ->
  tells initialState (snd (Spawn.executeClaudeCommand p child)).
Proof.
  intros Hu. unfold Spawn.executeClaudeCommand.
  transitivity (snd (Spawn.prepare p initialState));
    [apply spawn_prepare_tells|].
  destruct child as [message|events].
  - rewrite outcome_of_snd. simpl. eexists. split; reflexivity.
  - apply (in_turn_tells p events
             (Spawn.spawned (snd (Spawn.prepare p initialState))) eq_refl
             (or_introl eq_refl) Hu).
Qed.

Lemma processOutput_tells (a : Argv) (output : string) :
  respects tells (CommandStream.processOutput a output).
Proof.
  unfold CommandStream.processOutput. tells_tac. apply decodeOrRaw_tells.
Qed.

Lemma processStdout_tells (a : Argv) (output : option string) :
  respects tells (CommandStream.processStdout a output).
Proof.
  unfold CommandStream.processStdout. tells_tac; apply processOutput_tells.
Qed.

Lemma logStderr_tells (e : option string) :
  respects tells (CommandStream.logStderr e).
Proof. unfold CommandStream.logStderr. tells_tac. Qed.

Lemma onExecError_tells (message : string) :
  respects tells (CommandStream.onExecError message).
Proof. unfold CommandStream.onExecError. tells_tac. Qed.

Lemma awaitCommand_tells (a : Argv) (result : CommandStream.Result) :
  respects tells (CommandStream.awaitCommand a result).
Proof.
  intros st. unfold CommandStream.awaitCommand.
  assert (H : respects tells (CommandStream.processResult a result)).
  { unfold CommandStream.processResult. tells_tac;
      first [apply processStdout_tells | apply logStderr_tells
            | apply classifyFailure_tells]. }
  specialize (H st).
  destruct (CommandStream.processResult a result st) as [[[]|e] st'];
    [exact H|].
  etransitivity; [exact H|apply onExecError_tells].
Qed.

Lemma iterate_tells (a : Argv) (chunks : list CommandStream.Chunk)
    (failure : option string) :
  respects tells (CommandStream.iterate a chunks failure).
Proof.
  induction chunks as [|c rest IH]; simpl.
  - tells_tac.
  - tells_tac;
      first [apply classifyFailure_tells | apply logStderr_tells
            | apply processStdout_tells | exact IH].
Qed.

Lemma run_tells (p : Params) (dollar : CommandStream.Dollar) :
  respects tells (CommandStream.run p dollar).
Proof.
  unfold CommandStream.run, CommandStream.prepare.
  tells_tac;
    first [apply announce_tells | apply logResume_tells
          | apply logCommandDetails_tells | apply conclude_tells
          | apply awaitCommand_tells | apply onExecError_tells
          | apply iterate_tells].
Qed.

End ShownFacts.

(** X5.  In the command-stream variant, and in the spawn variant for a
    child whose listeners are all through when its next event arrives:
    however the call ends, [lastMessage] is the last of the child's words
    the call has logged: the text of the last [text] event, the error of
    the last [error] event or the last raw line, whichever came last; the
    empty string when there was none.  Chunks of stderr and the call's
    own notes never become the last message. *)
Theorem last_message_is_the_last_shown {rt : Runtime} (p : Params) :
  (forall child,
      Spawn.unhurried p child = true ->
      let st := snd (Spawn.executeClaudeCommand p child) in
      lastMessage st = last_shown (logged st) (JStr EmptyString))
  /\ (forall dollar,
        let st := snd (snd (CommandStream.executeClaudeCommand p dollar)) in
        lastMessage st = last_shown (logged st) (JStr EmptyString)).
Proof.
  split.
  - intros child Hu st. destruct (spawn_tells p child Hu) as (more & L & M).
    fold st in L, M. rewrite L, M. reflexivity.
  - intros dollar st. unfold CommandStream.executeClaudeCommand in st.
    cbn [snd] in st. unfold st. rewrite outcome_of_snd.
    destruct (run_tells p dollar initialState) as (more & L & M).
    rewrite L, M. reflexivity.
Qed.

Lemma last_message_is_the_last_shown_witness :
  let st := snd (Spawn.executeClaudeCommand sample (rateLimited 1)) in
  lastMessage st = last_shown (logged st) (JStr EmptyString).
Proof.
  apply (proj1 (last_message_is_the_last_shown sample) (rateLimited 1)).
  vm_compute. reflexivity.
Defined.

(** ** What the trace and stderr cannot change *)

Section StderrFacts.

Context {rt : Runtime}.

Import Spawn.

Lemma onResolved_unaware (p : Params) (r : CommandResult) :
  unaware (onResolved p r).
Proof.
  unfold onResolved. unaware_tac;
    first [apply classifyFailure_unaware | apply conclude_unaware].
Qed.

Lemma onClose_unaware (p : Params) (ps : ProcState) : unaware (onClose p ps).
Proof.
  unfold onClose. apply unaware_bind; [apply flushRest_unaware|].
  intros _. apply onResolved_unaware.
Qed.

Lemma onRejected_unaware (message : string) : unaware (onRejected message).
Proof. unfold onRejected. unaware_tac. apply resultObject_unaware. Qed.

(** The close listener and the call after it look at the buffer of stdout,
    the exit code and the signal, never at the stderr collected. *)
Lemma onClose_same (p : Params) (ps ps' : ProcState) :
  stdoutBuffer ps = stdoutBuffer ps' ->
  exitCode ps = exitCode ps' ->
  exitSignal ps = exitSignal ps' ->
  onClose p ps = onClose p ps'.
Proof.
  intros E1 E2 E3. unfold onClose, onResolved, exitInfo. cbn [code signal].
  now rewrite E1, E2, E3.
Qed.

Lemma start_same (ps ps' : ProcState) (t : Async unit) (w w' : World) :
  same_but_trace w w' -> unaware t ->
  stdoutBuffer ps = stdoutBuffer ps' ->
  exitCode ps = exitCode ps' ->
  exitSignal ps = exitSignal ps' ->
  same_but_trace (start ps t w) (start ps' t w').
Proof.
  intros (B1 & B2 & B3 & Hc & Hp & Hu & Hk) Ht E1 E2 E3. unfold start.
  destruct (advance_unaware t (vars w) (vars w') Ht Hc) as (Ef & Ec & Hk').
  destruct (advance t (vars w)) as [turn st],
           (advance t (vars w')) as [turn' st'].
  cbn [fst snd] in Ef, Ec, Hk'. subst turn'.
  unfold same_but_trace. cbn [proc vars parked call].
  repeat split; try assumption.
  - now rewrite Hp.
  - apply Forall_app. split; [exact Hu|now apply left_over_Forall].
Qed.

Lemma takeTurn_same (n : nat) (w w' : World) :
  same_but_trace w w' -> same_but_trace (takeTurn n w) (takeTurn n w').
Proof.
  intros (B1 & B2 & B3 & Hc & Hp & Hu & Hk). unfold takeTurn. rewrite <- Hp.
  destruct (nth_error (parked w) n) as [k|] eqn:En;
    [|unfold same_but_trace; repeat split; assumption].
  pose proof (Forall_nth _ _ _ _ Hu En) as Huk.
  destruct (advance_unaware k (vars w) (vars w') Huk Hc) as (Ef & Ec & Hk').
  destruct (advance k (vars w)) as [turn st],
           (advance k (vars w')) as [turn' st'].
  cbn [fst snd] in Ef, Ec, Hk'. subst turn'.
  unfold same_but_trace. cbn [proc vars parked call].
  repeat split; try assumption.
  apply Forall_app. split; [now apply Forall_first|].
  apply Forall_app. split; [now apply left_over_Forall|now apply Forall_skip].
Qed.

Lemma proceed_same (k : Async json) (w w' : World) :
  same_but_trace w w' -> unaware k ->
  same_but_trace (proceed k w) (proceed k w').
Proof.
  intros (B1 & B2 & B3 & Hc & Hp & Hu & Hk) Huk. unfold proceed.
  destruct (advance_unaware k (vars w) (vars w') Huk Hc) as (Ef & Ec & Hk').
  destruct (advance k (vars w)) as [turn st],
           (advance k (vars w')) as [turn' st'].
  cbn [fst snd] in Ef, Ec, Hk'. subst turn'.
  unfold same_but_trace. cbn [proc vars parked call].
  repeat split; try assumption.
  destruct turn as [c|k']; simpl; [reflexivity|]. split; [reflexivity|exact Hk'].
Qed.

(** The same turn keeps two such worlds alike. *)
Lemma step_same (p : Params) (w w' : World) (e : ChildEvent) :
  same_but_trace w w' -> same_but_trace (step p w e) (step p w' e).
Proof.
  intros H. pose proof H as (B1 & B2 & B3 & Hc & Hp & Hu & Hk).
  unfold step.
  destruct (call w) as [|k|c] eqn:Ecw, (call w') as [|k'|c'] eqn:Ecw';
    try contradiction.
  - destruct e as [output|errorOutput|ec es| |message|n|].
    + unfold onStdoutData. rewrite <- B1.
      destruct (frame (stdoutBuffer (proc w)) output) as [lines kept].
      apply start_same;
        [exact H|apply processLines_unaware|reflexivity|exact B2|exact B3].
    + unfold onStderrData.
      apply start_same; [exact H| |exact B1|exact B2|exact B3].
      apply unaware_when, unaware_log.
    + unfold same_but_trace. cbn [proc vars parked call onExit stdoutBuffer
        exitCode exitSignal]. repeat split; assumption.
    + rewrite (onClose_same p (proc w) (proc w') B1 B2 B3).
      apply proceed_same; [exact H|apply onClose_unaware].
    + refine (conj B1 (conj B2 (conj B3 (conj Hc (conj Hp (conj Hu
                (conj eq_refl _))))))).
      apply onRejected_unaware.
    + now apply takeTurn_same.
    + exact H.
  - destruct Hk as [<- Huk].
    destruct e as [output|errorOutput|ec es| |message|n|]; try exact H.
    + now apply takeTurn_same.
    + now apply proceed_same.
  - exact H.
Qed.

(** A chunk of stderr leaves the world as it is, but for the stderr
    collected and the trace. *)
Lemma step_stderr (p : Params) (w w' : World) (errorOutput : string) :
  same_but_trace w w' ->
  same_but_trace (step p w (StderrData errorOutput)) w'.
Proof.
  intros H. pose proof H as (B1 & B2 & B3 & Hc & Hp & Hu & Hk).
  unfold step. destruct (call w) as [|k|c] eqn:Ecw; try exact H.
  unfold onStderrData, start.
  pose proof (advance_leaves core
                (snd (onStderrData errorOutput (proc w))) (vars w)
                (onStderrData_leaves_core errorOutput (proc w))) as [Ek _].
  pose proof (onStderrData_left_over errorOutput (proc w) (vars w)) as El.
  unfold onStderrData in Ek, El. cbn [snd] in Ek, El.
  destruct (advance _ (vars w)) as [turn st]. cbn [fst snd] in Ek, El.
  unfold same_but_trace. cbn [proc vars parked call stdoutBuffer exitCode
    exitSignal].
  rewrite El, app_nil_r, Ecw.
  repeat split; try assumption. now rewrite Ek.
Qed.

Lemma executeCommand_without_stderr (p : Params) (events : list ChildEvent)
    (w w' : World) :
  same_but_trace w w' ->
  same_but_trace (executeCommand p events w)
    (executeCommand p (without_stderr events) w').
Proof.
  revert w w'. induction events as [|e rest IH]; intros w w' H; [exact H|].
  change (executeCommand p (e :: rest) w)
    with (executeCommand p rest (step p w e)).
  destruct e as [output|errorOutput|ec es| |message|n|];
    try (apply IH; now apply step_same).
  simpl without_stderr. apply IH. now apply step_stderr.
Qed.

Lemma outcome_same (w w' : World) :
  same_but_trace w w' ->
  fst (outcome w) = fst (outcome w')
  /\ core (snd (outcome w)) = core (snd (outcome w')).
Proof.
  intros (_ & _ & _ & Hc & _ & _ & Hk). unfold outcome.
  destruct (call w) as [|k|c], (call w') as [|k'|c']; try contradiction.
  - split; [reflexivity|exact Hc].
  - destruct Hk as [<- Huk].
    destruct (finish_unaware k (vars w) (vars w') Huk Hc) as [E1 E2].
    destruct (finish k (vars w)) as [x st], (finish k (vars w')) as [x' st'].
    cbn [fst snd] in E1, E2. subst x'. destruct x; simpl; now split.
  - subst c'. destruct c; simpl; now split.
Qed.

End StderrFacts.

(** X6.  In the spawn variant, what the child writes on stderr
    changes neither how the call ends nor any of its variables: with the
    stderr chunks taken out of the events, the call returns the same
    object (or throws the same error, or stays pending) and ends with the
    same flags, session id, counters and last message.  Stderr is logged
    and collected, and never looked at. *)
Theorem stderr_changes_nothing {rt : Runtime} (p : Params)
    (events : list Spawn.ChildEvent) :
  let with_it := Spawn.executeClaudeCommand p (Spawn.Spawned events) in
  let without :=
    Spawn.executeClaudeCommand p (Spawn.Spawned (without_stderr events)) in
  fst with_it = fst without /\ core (snd with_it) = core (snd without).
Proof.
  unfold Spawn.executeClaudeCommand. apply outcome_same.
  apply executeCommand_without_stderr.
  unfold same_but_trace. simpl. repeat split. constructor.
Qed.

(** ** Failures the classification cannot read *)

Section FailureFacts.

Context {rt : Runtime}.

Lemma classifyFailure_unsearchable (a : Argv) (info : list json)
    (st : RunState) :
  has_includes (lastMessage st) = false ->
  classifyFailure a info st = (Throw TypeError, set_commandFailed true st).
Proof.
  intros H. unfold classifyFailure, hitRateLimit, bind, modify, gets.
  cbn [lastMessage set_commandFailed].
  destruct (lastMessage st); try discriminate; reflexivity.
Qed.

Lemma classified_last (a : Argv) (info : list json) (p : Params)
    (st : RunState) :
  lastMessage (snd (bind (classifyFailure a info) (fun _ => conclude p) st))
  = lastMessage st.
Proof.
  unfold bind. pose proof (classifyFailure_keeps_last a info st) as H.
  destruct (classifyFailure a info st) as [[[]|e] st1]; cbn [snd] in *;
    [|exact H].
  now rewrite conclude_keeps_last.
Qed.

Lemma failed_unsearchable (a : Argv) (info : list json) (p : Params)
    (st : RunState) :
  has_includes
    (lastMessage
       (snd (outcome_of
               (bind (classifyFailure a info) (fun _ => conclude p) st))))
  = false ->
  fst (outcome_of (bind (classifyFailure a info) (fun _ => conclude p) st))
  = Thrown TypeError.
Proof.
  rewrite outcome_of_snd, classified_last. intros H.
  unfold bind. now rewrite classifyFailure_unsearchable.
Qed.

End FailureFacts.

(** X7.  When the child ends with a non-zero exit code and
    the last message is neither a string nor an array (the [text] of a
    [text] event or the [error] of an [error] event that is a number, a
    boolean or an object), [lastMessage.includes] is not a function: the
    spawn variant, for a child whose listeners are all through when its
    next event arrives, and the iterated command of the command-stream
    variant do not return, the TypeError leaves [executeClaudeCommand]. *)
Theorem unsearchable_last_message_throws {rt : Runtime} (p : Params) :
  (forall child c sg,
      Spawn.exit_status child = Some (c, sg) ->
      nonzero c = true ->
      Spawn.unhurried p child = true ->
      has_includes (lastMessage (snd (Spawn.executeClaudeCommand p child)))
      = false ->
      fst (Spawn.executeClaudeCommand p child) = Thrown TypeError)
  /\ (forall chunks failure c,
        CommandStream.done_code chunks = Some c ->
        nonzero c = true ->
        let run :=
          snd (CommandStream.executeClaudeCommand p
                 (CommandStream.Function
                    (CommandStream.Iterates chunks failure))) in
        has_includes (lastMessage (snd run)) = false ->
        fst run = Thrown TypeError).
Proof.
  split.
  - intros child c sg He Hn Hu.
    destruct (unhurried_closed p child c sg Hu He) as (st & E & _).
    rewrite E. unfold resolved. rewrite Hn.
    apply failed_unsearchable.
  - intros chunks failure c Hd Hn run. unfold run.
    unfold CommandStream.executeClaudeCommand. cbn [snd].
    destruct (run_prepared p
                (CommandStream.Function (CommandStream.Iterates chunks failure)))
      as (st1 & _ & ->).
    destruct (iterate_done (argv p) chunks failure c st1 Hd)
      as (info & st2 & _ & E).
    assert (Eb : bind (CommandStream.iterate (argv p) chunks failure)
                   (fun _ => conclude p) st1
                 = bind (classifyFailure (argv p) info)
                     (fun _ => conclude p) st2).
    { unfold bind. rewrite E, Hn. reflexivity. }
    rewrite Eb. apply failed_unsearchable.
Qed.

Lemma unsearchable_last_message_witness :
  fst (Spawn.executeClaudeCommand sample overloaded) = Thrown TypeError.
Proof.
  apply (proj1 (unsearchable_last_message_throws sample)
           overloaded (Some 1%Z) None).
  - reflexivity.
  - reflexivity.
  - vm_compute. reflexivity.
  - vm_compute. reflexivity.
Defined.

(** ** The two branches of the command-stream variant *)

Section CommandStreamMore.

Context {rt : Runtime}.

Lemma awaitCommand_spec (a : Argv) (result : CommandStream.Result)
    (st : RunState) :
  commandFailed st = false ->
  exists st',
    CommandStream.awaitCommand a result st = (Normal tt, st')
    /\ commandFailed st' = nonzero (CommandStream.code result).
Proof.
  intros Hf. unfold CommandStream.awaitCommand.
  destruct (processResult_spec a result st) as (st1 & Hfl & ->).
  assert (Hf1 : commandFailed st1 = false)
    by (unfold flags in Hfl; congruence).
  destruct (nonzero (CommandStream.code result)).
  - simpl when.
    destruct (classifyFailure_sets_failed a
                [code_value (CommandStream.code result)] st1) as [Hc _].
    destruct (classifyFailure a [code_value (CommandStream.code result)] st1)
      as [[[]|e] st2]; cbn [snd] in Hc.
    + now exists st2.
    + eexists. split; reflexivity.
  - now exists st1.
Qed.

Lemma iterate_until_done (a : Argv) (before after : list CommandStream.Chunk)
    (c : CommandStream.Chunk) (failure failure' : option string) :
  CommandStream.done c = true ->
  CommandStream.iterate a (before ++ c :: after) failure
  = CommandStream.iterate a (before ++ [c]) failure'.
Proof.
  intros Hd. induction before as [|b before IH]; simpl.
  - now rewrite Hd.
  - now rewrite IH.
Qed.

Lemma iterate_never_done (a : Argv) (chunks : list CommandStream.Chunk)
    (failure : option string) (st : RunState) :
  CommandStream.done_code chunks = None ->
  exists st',
    CommandStream.iterate a chunks failure st
    = (match failure with
       | Some message => Throw (Error message)
       | None => Normal tt
       end, st')
    /\ flags st' = flags st.
Proof.
  revert st. induction chunks as [|c rest IH]; intros st Hd.
  - exists st. destruct failure; split; reflexivity.
  - simpl in Hd. destruct (CommandStream.done c) eqn:Hc; [discriminate|].
    simpl CommandStream.iterate. rewrite Hc. unfold bind.
    pose proof (logStderr_normal (CommandStream.chunk_stderr c) st) as N1.
    pose proof (logStderr_keeps_flags (CommandStream.chunk_stderr c) st) as K1.
    destruct (CommandStream.logStderr (CommandStream.chunk_stderr c) st)
      as [[[]|e] st1]; simpl in N1, K1; [|discriminate].
    pose proof (processStdout_normal a (CommandStream.chunk_stdout c) st1) as N2.
    pose proof (processStdout_keeps_flags a (CommandStream.chunk_stdout c) st1)
      as K2.
    destruct (CommandStream.processStdout a (CommandStream.chunk_stdout c) st1)
      as [[[]|e] st2]; simpl in N2, K2; [|discriminate].
    destruct (IH st2 Hd) as (st' & E & Hf). exists st'.
    split; [exact E|]. unfold keeps in *. congruence.
Qed.

End CommandStreamMore.

(** X9.  In the command-stream variant a command that is not
    async-iterable and resolves never makes the call throw: whatever the
    result holds, the call returns an object, and its [success] tells
    whether the code of the result is 0.  What the processing of the
    result throws, the TypeError of an unsearchable last message
    included, is caught and counted as a failure of the command. *)
Theorem awaited_command_always_returns {rt : Runtime} (p : Params)
    (result : CommandStream.Result) :
  says "success" (negb (nonzero (CommandStream.code result)))
    (fst (snd (CommandStream.executeClaudeCommand p
                 (CommandStream.Function
                    (CommandStream.AwaitResolves result))))).
Proof.
  unfold CommandStream.executeClaudeCommand. cbn [snd].
  destruct (run_prepared p
              (CommandStream.Function (CommandStream.AwaitResolves result)))
    as (st1 & Hc & ->).
  assert (Hf : commandFailed st1 = false)
    by (unfold core in Hc; simpl in Hc; congruence).
  destruct (awaitCommand_spec (argv p) result st1 Hf) as (st2 & E & H2).
  unfold bind. rewrite E.
  destruct (conclude_spec p st2) as (st3 & -> & _).
  rewrite H2. eexists. split; reflexivity.
Qed.

(** X10.  The loop over an iterated command ends at the first
    chunk that is [done]: the chunks after it, their output and their
    exit codes, and a failure of the iterator after it are never seen,
    the call is the call of the command cut after that chunk. *)
Theorem nothing_is_read_after_done {rt : Runtime} (p : Params)
    (before after : list CommandStream.Chunk) (c : CommandStream.Chunk)
    (failure : option string) :
  CommandStream.done c = true ->
  CommandStream.executeClaudeCommand p
    (CommandStream.Function
       (CommandStream.Iterates (before ++ c :: after) failure))
  = CommandStream.executeClaudeCommand p
      (CommandStream.Function (CommandStream.Iterates (before ++ [c]) None)).
Proof.
  intros Hd. unfold CommandStream.executeClaudeCommand, CommandStream.run.
  now rewrite (iterate_until_done (argv p) before after c failure None Hd).
Qed.

Lemma nothing_is_read_after_done_witness :
  CommandStream.executeClaudeCommand sample
    (CommandStream.Function
       (CommandStream.Iterates
          ([outputChunk (line messageEvent)] ++ doneChunk 0
             :: [outputChunk (line (textEvent rateLimitText)); doneChunk 1])
          (Some "broken pipe")))
  = CommandStream.executeClaudeCommand sample
      (CommandStream.Function
         (CommandStream.Iterates
            ([outputChunk (line messageEvent)] ++ [doneChunk 0]) None)).
Proof.
  apply (nothing_is_read_after_done sample [outputChunk (line messageEvent)]
           [outputChunk (line (textEvent rateLimitText)); doneChunk 1]
           (doneChunk 0) (Some "broken pipe")).
  reflexivity.
Defined.

(** X11.  An iterated command that ends without a [done] chunk
    has no exit code to look at: when the iterator just ends the call
    returns an object with [success = true], whatever the chunks said;
    when the iterator throws, the error leaves [executeClaudeCommand],
    the loop has no [catch]. *)
Theorem stream_without_done_chunk {rt : Runtime} (p : Params)
    (chunks : list CommandStream.Chunk) :
  CommandStream.done_code chunks = None ->
  says "success" true
    (fst (snd (CommandStream.executeClaudeCommand p
                 (CommandStream.Function
                    (CommandStream.Iterates chunks None)))))
  /\ forall message,
       fst (snd (CommandStream.executeClaudeCommand p
                   (CommandStream.Function
                      (CommandStream.Iterates chunks (Some message)))))
       = Thrown (Error message).
Proof.
  intros Hd. unfold CommandStream.executeClaudeCommand. cbn [snd]. split.
  - destruct (run_prepared p
                (CommandStream.Function (CommandStream.Iterates chunks None)))
      as (st1 & Hc & ->).
    destruct (iterate_never_done (argv p) chunks None st1 Hd)
      as (st2 & E & Hf).
    unfold bind. rewrite E.
    destruct (conclude_spec p st2) as (st3 & -> & _).
    assert (H2 : commandFailed st2 = false).
    { unfold flags in Hf. unfold core in Hc. simpl in Hc. congruence. }
    rewrite H2. eexists. split; reflexivity.
  - intros message.
    destruct (run_prepared p
                (CommandStream.Function
                   (CommandStream.Iterates chunks (Some message))))
      as (st1 & Hc & ->).
    destruct (iterate_never_done (argv p) chunks (Some message) st1 Hd)
      as (st2 & E & _).
    unfold bind. rewrite E. reflexivity.
Qed.

Lemma stream_without_done_chunk_witness :
  says "success" true
    (fst (snd (CommandStream.executeClaudeCommand sample
                 (CommandStream.Function
                    (CommandStream.Iterates
                       [outputChunk (line (textEvent rateLimitText))] None)))))
  /\ forall message,
       fst (snd (CommandStream.executeClaudeCommand sample
                   (CommandStream.Function
                      (CommandStream.Iterates
                         [outputChunk (line (textEvent rateLimitText))]
                         (Some message)))))
       = Thrown (Error message).
Proof.
  apply (stream_without_done_chunk sample
           [outputChunk (line (textEvent rateLimitText))]).
  reflexivity.
Defined.

(** ** What the spawn variant returns *)

Section SpawnResultFacts.

Context {rt : Runtime}.

Lemma classifyFailure_other (a : Argv) (info : list json) (st : RunState)
    (s : string) :
  lastMessage st = JStr s ->
  rate_limit_marker s = false ->
  context_marker s = false ->
  exists st',
    classifyFailure a info st = (Normal tt, st')
    /\ limitReached st' = limitReached st
    /\ logged st' =
       (logged st ++ failureNote info
          :: (if truthy (sessionId st) && negb (given (resume a))
              then resumeHint a (sessionId st) else []))%list.
Proof.
  intros Hs Hr Hc. unfold classifyFailure, hitRateLimit, bind, gets, modify.
  simpl. rewrite Hs. unfold js_includes, ret.
  unfold rate_limit_marker in Hr. unfold context_marker in Hc.
  apply orb_false_iff in Hr. destruct Hr as [Hr H3].
  apply orb_false_iff in Hr. destruct Hr as [H1 H2].
  rewrite H1, H2, H3. simpl. rewrite Hs, Hc. simpl.
  destruct (truthy (sessionId st) && negb (given (resume a))); simpl;
    eexists; (split; [reflexivity|]); split; try reflexivity;
    simpl; now rewrite <- ?app_assoc.
Qed.

Lemma closed_after_stdout (p : Params) (child : Spawn.Child)
    (c : option Z) (sg : option string) :
  Spawn.unhurried p child = true ->
  Spawn.exit_status child = Some (c, sg) ->
  let lines := removelast (split_nl (Spawn.stdout_text child)) in
  exists st,
    Spawn.executeClaudeCommand p child = outcome_of (resolved p c sg st)
    /\ flags st = (false, false)
    /\ sessionId st =
       match first_carried lines with Some id => id | None => JNull end
    /\ messageCount st = events_of_type "message" lines
    /\ toolUseCount st = events_of_type "tool_use" lines.
Proof.
  intros Hu He lines.
  destruct (unhurried_closed p child c sg Hu He) as (st0 & E & Hf & Hc & _).
  fold lines in Hc.
  pose proof (prepared_core p) as Hcore.
  set (st1 := snd (Spawn.prepare p initialState)) in *.
  set (st2 := snd (processLines (argv p) lines st1)) in *.
  set (rest := last_or_empty (split_nl (Spawn.stdout_text child))) in *.
  exists (snd (finish (Spawn.flushRest rest) st0)).
  split; [exact E|].
  pose proof (finish_leaves flags _ st0 (flushRest_leaves_flags rest)) as Kf.
  pose proof (finish_leaves tally _ st0 (flushRest_leaves_tally rest)) as Kt.
  pose proof (processLines_session (argv p) lines st1) as Hs.
  pose proof (processLines_counters (argv p) lines st1) as Hn.
  fold st2 in Hs, Hn.
  assert (H0 : sessionId st1 = JNull /\ messageCount st1 = 0
               /\ toolUseCount st1 = 0).
  { unfold core in Hcore. simpl in Hcore. repeat split; congruence. }
  destruct H0 as (Hsid & Hm & Ht).
  rewrite Hsid, Hm, Ht in *. simpl in Hs.
  unfold tally in Kt. injection Kt as T1 T2 T3.
  unfold core in Hc. injection Hc as _ C1 _ C2 C3 _.
  unfold counters in Hn. injection Hn as N1 N2.
  split; [congruence|].
  rewrite T1, T2, T3, C1, C2, C3, N1, N2, !Nat.add_0_r.
  split; [|split; reflexivity].
  unfold session_view in Hs.
  destruct (first_carried lines); injection Hs as S1 _; congruence.
Qed.

End SpawnResultFacts.

(** X2.  When the spawned child has exited and closed, its
    listeners were all through whenever its next event arrived, and the
    call returns, the object it returns is read off the complete lines of
    the whole text of stdout alone, however the text was cut into chunks:
    [success] tells whether the exit code is 0, [sessionId] is the
    non-empty [session_id] of the first line that carries one ([null]
    without one), and the two counters are the numbers of lines that
    decode to [message] and to [tool_use] events.  What follows the last
    line feed is never counted and never gives the session id. *)
Theorem spawn_result_reads_the_complete_lines {rt : Runtime} (p : Params)
    (child : Spawn.Child) (c : option Z) (sg : option string) (r : json) :
  Spawn.exit_status child = Some (c, sg) ->
  Spawn.unhurried p child = true ->
  fst (Spawn.executeClaudeCommand p child) = Returned r ->
  let lines := removelast (split_nl (Spawn.stdout_text child)) in
  field r "success" = Some (JBool (negb (nonzero c)))
  /\ field r "sessionId" =
     Some (match first_carried lines with Some id => id | None => JNull end)
  /\ field r "messageCount" = Some (number (events_of_type "message" lines))
  /\ field r "toolUseCount" = Some (number (events_of_type "tool_use" lines)).
Proof.
  intros He Hu Hr lines.
  destruct (closed_after_stdout p child c sg Hu He)
    as (st & E & Hf & Hs & Hm & Ht).
  fold lines in Hs, Hm, Ht. rewrite E in Hr.
  destruct (nonzero c) eqn:Hn.
  - pose proof (resolved_nonzero p c sg st Hn) as H. cbv zeta in H.
    pose proof (classifyFailure_sets_failed (argv p) (exit_info c sg) st)
      as [_ Ho].
    destruct (classifyFailure (argv p) (exit_info c sg) st)
      as [[[]|e] st1]; cbn [fst snd] in H, Ho.
    + destruct H as (st' & E' & _). rewrite E' in Hr. injection Hr as <-.
      unfold observed in Ho. injection Ho as O1 O2 O3 _.
      simpl. rewrite O1, O2, O3, Hs, Hm, Ht. repeat split; reflexivity.
    + rewrite H in Hr. discriminate.
  - destruct (resolved_zero p c sg st Hn Hf) as (st' & E' & _).
    rewrite E' in Hr. injection Hr as <-.
    simpl. rewrite Hs, Hm, Ht. repeat split; reflexivity.
Qed.

Lemma spawn_result_reads_the_complete_lines_witness :
  let lines := removelast (split_nl (Spawn.stdout_text Scenario.cutShort)) in
  field (result_of true
           {| commandFailed := false; sessionId := JStr "abc";
              limitReached := false; messageCount := 1; toolUseCount := 1;
              lastMessage := JStr EmptyString; logged := [] |}) "success"
  = Some (JBool (negb (nonzero (Some 0%Z))))
  /\ field (result_of true
              {| commandFailed := false; sessionId := JStr "abc";
                 limitReached := false; messageCount := 1; toolUseCount := 1;
                 lastMessage := JStr EmptyString; logged := [] |}) "sessionId"
     = Some (match first_carried lines with Some id => id | None => JNull end)
  /\ field (result_of true
              {| commandFailed := false; sessionId := JStr "abc";
                 limitReached := false; messageCount := 1; toolUseCount := 1;
                 lastMessage := JStr EmptyString; logged := [] |}) "messageCount"
     = Some (number (events_of_type "message" lines))
  /\ field (result_of true
              {| commandFailed := false; sessionId := JStr "abc";
                 limitReached := false; messageCount := 1; toolUseCount := 1;
                 lastMessage := JStr EmptyString; logged := [] |}) "toolUseCount"
     = Some (number (events_of_type "tool_use" lines)).
Proof.
  apply (spawn_result_reads_the_complete_lines sample Scenario.cutShort
           (Some 0%Z) None).
  - reflexivity.
  - vm_compute. reflexivity.
  - vm_compute. reflexivity.
Defined.

(** X8.  In the spawn variant, when the child ends with a
    non-zero exit code, its listeners were all through whenever its next
    event arrived, and the last message is a text with none of the
    rate-limit markers and without [context_length_exceeded], the call
    returns an object with [success = false] and [limitReached = false]
    and logs the failure with the exit code and, when there is one, the
    signal; when a session id was captured and the call was not itself
    resuming a session, it also logs the three lines that tell how to
    resume it. *)
Theorem other_failure_is_reported {rt : Runtime} (p : Params)
    (child : Spawn.Child) (c : option Z) (sg : option string) (s : string) :
  Spawn.exit_status child = Some (c, sg) ->
  nonzero c = true ->
  Spawn.unhurried p child = true ->
  lastMessage (snd (Spawn.executeClaudeCommand p child)) = JStr s ->
  rate_limit_marker s = false ->
  context_marker s = false ->
  let st := snd (Spawn.executeClaudeCommand p child) in
  says "success" false (fst (Spawn.executeClaudeCommand p child))
  /\ says "limitReached" false (fst (Spawn.executeClaudeCommand p child))
  /\ In (failureNote (exit_info c sg)) (logged st)
  /\ (truthy (sessionId st) = true ->
      given (resume (argv p)) = false ->
      incl (resumeHint (argv p) (sessionId st)) (logged st)).
Proof.
  intros He Hn Hu Hs Hr Hc st. unfold st. clear st.
  destruct (closed_after_stdout p child c sg Hu He) as (st & E & Hf & _).
  rewrite E in Hs |- *.
  unfold resolved in Hs |- *. rewrite Hn in Hs |- *.
  simpl when in Hs |- *.
  rewrite outcome_of_snd, classified_last in Hs.
  destruct (classifyFailure_other (argv p) (exit_info c sg) st s Hs Hr Hc)
    as (st1 & E1 & Hl & Hlog).
  destruct (classifyFailure_sets_failed (argv p) (exit_info c sg) st)
    as [Hfailed Ho].
  rewrite E1 in Hfailed, Ho. cbn [snd] in Hfailed, Ho.
  unfold bind. rewrite E1.
  pose proof (conclude_grows p st1) as Hg.
  destruct (conclude_spec p st1) as (st' & E' & Hcore).
  rewrite E' in Hg |- *. cbn [fst snd outcome_of] in Hg |- *.
  rewrite Hfailed. unfold flags in Hf. injection Hf as _ Hlim.
  destruct Hg as [more Hmore].
  assert (Hsid : sessionId st' = sessionId st).
  { unfold core in Hcore. unfold observed in Ho. congruence. }
  split; [eexists; split; reflexivity|].
  split; [eexists; split; [reflexivity|]; simpl; congruence|].
  rewrite Hmore, Hlog, Hsid. split.
  - apply in_or_app. left. apply in_or_app. right. now left.
  - intros Ht Hg. rewrite Ht, Hg. simpl andb. cbv iota.
    intros m Hm. apply in_or_app. left. apply in_or_app. right. now right.
Qed.

Lemma other_failure_is_reported_witness :
  let st := snd (Spawn.executeClaudeCommand sample Scenario.crashed) in
  says "success" false
    (fst (Spawn.executeClaudeCommand sample Scenario.crashed))
  /\ says "limitReached" false
       (fst (Spawn.executeClaudeCommand sample Scenario.crashed))
  /\ In (failureNote (exit_info None (Some "SIGSEGV"))) (logged st)
  /\ (truthy (sessionId st) = true ->
      given (resume (argv sample)) = false ->
      incl (resumeHint (argv sample) (sessionId st)) (logged st)).
Proof.
  apply (other_failure_is_reported sample Scenario.crashed
           None (Some "SIGSEGV") "Segmentation fault").
  - reflexivity.
  - reflexivity.
  - vm_compute. reflexivity.
  - vm_compute. reflexivity.
  - vm_compute. reflexivity.
  - vm_compute. reflexivity.
Defined.
(** ** [checkForUncommittedChanges] *)

Lemma trim_end_nonempty (c : ascii) (r : string) :
  is_space c = false -> trim_end (String c r) <> EmptyString.
Proof.
  intros H. simpl. destruct (trim_end r); [rewrite H|]; discriminate.
Qed.

(** The two readings of [s.trim()] agree: [trim_nonempty] tells whether
    [trim] leaves anything. *)
Lemma trim_nonempty_trim (s : string) :
  trim_nonempty s = negb (String.eqb (trim s) EmptyString).
Proof.
  unfold trim. induction s as [|c r IH]; [reflexivity|].
  simpl trim_nonempty. simpl trim_start.
  destruct (is_space c) eqn:Hc; [exact IH|].
  pose proof (trim_end_nonempty c r Hc) as H.
  destruct (trim_end (String c r)); [now elim H|reflexivity].
Qed.

Section GitFacts.

Import Git.

Lemma commands_app (t t' : list Entry) :
  commands (t ++ t') = (commands t ++ commands t')%list.
Proof. apply flat_map_app. Qed.

Lemma said_app (t t' : list Entry) :
  said (t ++ t') = (said t ++ said t')%list.
Proof. apply flat_map_app. Qed.

Lemma sayEach_spec (label : string) (lines : list string) :
  sayEach label lines
  = (Finished tt, map (fun l => Said (LogNote label [JStr l])) lines).
Proof.
  induction lines as [|l rest IH]; [reflexivity|].
  simpl. rewrite IH. reflexivity.
Qed.

Lemma commands_said (label : string) (lines : list string) :
  commands (map (fun l => Said (LogNote label [JStr l])) lines) = [].
Proof. induction lines as [|l rest IH]; [reflexivity|exact IH]. Qed.

Lemma warnings_changes (lines : list string) :
  filter is_warning
    (said (map (fun l => Said (LogNote "   " [JStr l])) lines)) = [].
Proof. induction lines as [|l rest IH]; [reflexivity|exact IH]. Qed.

Lemma commands_cons_said (m : LogMsg) (t : list Entry) :
  commands (Said m :: t) = commands t.
Proof. reflexivity. Qed.

Lemma commands_cons_ran (c : Command) (t : list Entry) :
  commands (Ran c :: t) = c :: commands t.
Proof. reflexivity. Qed.

End GitFacts.

(** Reads the commands off a trace that is written out. *)
Ltac git_commands :=
  cbn [Git.andThen Git.catch snd fst app];
  repeat first
    [ rewrite commands_cons_said
    | rewrite commands_cons_ran
    | rewrite commands_app
    | rewrite commands_said ];
  reflexivity.

Lemma check_commands (run : Git.Command -> Git.Settled)
    (branchName : string) :
  Git.commands (snd (Git.check run branchName))
  = Git.Status
      :: (if Git.dirty run then
            Git.Add
              :: (if Git.succeeds run Git.Add then
                    Git.Commit
                      :: (if Git.succeeds run Git.Commit
                          then [Git.Push branchName] else [])
                  else [])
          else []).
Proof.
  unfold Git.check, Git.dirty, Git.succeeds, Git.await, Git.warn, Git.say.
  destruct (run Git.Status) as [r| |]; try reflexivity.
  cbn [Git.andThen Git.catch].
  destruct (Git.ok r); [|reflexivity].
  rewrite trim_nonempty_trim. cbn [andb].
  destruct (String.eqb (trim (Git.stdout r)) EmptyString); [reflexivity|].
  cbn [negb]. rewrite sayEach_spec. cbn [Git.andThen].
  destruct (run Git.Add) as [ra| |]; [|git_commands..].
  cbn [Git.andThen]. destruct (Git.ok ra); [|git_commands].
  destruct (run Git.Commit) as [rc| |]; [|git_commands..].
  cbn [Git.andThen]. destruct (Git.ok rc); [|git_commands].
  destruct (run (Git.Push branchName)) as [rp| |]; [|git_commands..].
  cbn [Git.andThen]. destruct (Git.ok rp); git_commands.
Qed.

Lemma warnings_cons_said (m : LogMsg) (t : list Git.Entry) :
  Git.warnings (Git.Said m :: t)
  = (if Git.is_warning m then 1 else 0) + Git.warnings t.
Proof. unfold Git.warnings. simpl. destruct (Git.is_warning m); reflexivity. Qed.

Lemma warnings_cons_ran (c : Git.Command) (t : list Git.Entry) :
  Git.warnings (Git.Ran c :: t) = Git.warnings t.
Proof. reflexivity. Qed.

Lemma warnings_app (t t' : list Git.Entry) :
  Git.warnings (t ++ t') = Git.warnings t + Git.warnings t'.
Proof.
  unfold Git.warnings. now rewrite said_app, filter_app, length_app.
Qed.

Lemma warnings_of_changes (lines : list string) :
  Git.warnings (map (fun l => Git.Said (LogNote "   " [JStr l])) lines) = 0.
Proof. unfold Git.warnings. now rewrite warnings_changes. Qed.

(** Counts the warnings of a trace that is written out. *)
Ltac git_warnings :=
  cbn [Git.andThen Git.catch snd fst app];
  repeat first
    [ rewrite warnings_cons_said
    | rewrite warnings_cons_ran
    | rewrite warnings_app
    | rewrite warnings_of_changes ];
  try discriminate;
  split; reflexivity.

Lemma check_never_raises (run : Git.Command -> Git.Settled)
    (branchName : string) (message : string) :
  fst (Git.check run branchName) <> Git.Raised message.
Proof.
  unfold Git.check, Git.await, Git.warn, Git.say.
  destruct (run Git.Status) as [r| |]; try discriminate.
  cbn [Git.andThen Git.catch].
  destruct (Git.ok r); [|discriminate].
  destruct (negb (String.eqb (trim (Git.stdout r)) EmptyString));
    [|discriminate].
  rewrite sayEach_spec. cbn [Git.andThen].
  destruct (run Git.Add) as [ra| |]; try discriminate.
  cbn [Git.andThen]. destruct (Git.ok ra); [|discriminate].
  destruct (run Git.Commit) as [rc| |]; try discriminate.
  cbn [Git.andThen]. destruct (Git.ok rc); [|discriminate].
  destruct (run (Git.Push branchName)) as [rp| |]; try discriminate.
  cbn [Git.andThen]. destruct (Git.ok rp); discriminate.
Qed.

Lemma check_warns_once (run : Git.Command -> Git.Settled)
    (branchName : string) :
  Git.all_settle run branchName = true ->
  fst (Git.check run branchName) = Git.Finished tt
  /\ Git.warnings (snd (Git.check run branchName))
     = if clean run || pushed run branchName then 0 else 1.
Proof.
  unfold Git.all_settle, clean, pushed, Git.dirty, Git.succeeds.
  unfold Git.check, Git.await, Git.warn, Git.say. cbn [forallb].
  destruct (run Git.Status) as [r| |]; [|intros _; git_warnings|discriminate].
  cbn [Git.andThen Git.catch].
  destruct (Git.ok r); [|intros _; git_warnings].
  rewrite trim_nonempty_trim. cbn [andb].
  destruct (String.eqb (trim (Git.stdout r)) EmptyString);
    [intros _; git_warnings|].
  cbn [negb]. rewrite sayEach_spec. cbn [Git.andThen].
  destruct (run Git.Add) as [ra| |]; [|intros _; git_warnings|discriminate].
  cbn [Git.andThen]. destruct (Git.ok ra); [|intros _; git_warnings].
  destruct (run Git.Commit) as [rc| |];
    [|intros _; git_warnings|intros H; cbn in H; discriminate].
  cbn [Git.andThen]. destruct (Git.ok rc); [|intros _; git_warnings].
  destruct (run (Git.Push branchName)) as [rp| |];
    [|intros _; git_warnings|intros H; cbn in H; discriminate].
  cbn [Git.andThen]. destruct (Git.ok rp); intros _; git_warnings.
Qed.

(** X13.  [checkForUncommittedChanges], in both copies, runs
    [git status] first and then only what the results allow, in this
    order and each at most once: [git add] when the status succeeded and
    printed more than white space, [git commit] when the add succeeded,
    [git push] when the commit succeeded.  So a clean tree, or a status
    that fails, runs nothing else; nothing is committed that was not
    staged and nothing is pushed that was not committed. *)
Theorem git_commands_follow_the_results (branchName tempDir : string) :
  let expected run :=
    Git.Status
      :: (if Git.dirty run then
            Git.Add
              :: (if Git.succeeds run Git.Add then
                    Git.Commit
                      :: (if Git.succeeds run Git.Commit
                          then [Git.Push branchName] else [])
                  else [])
          else []) in
  (forall spawn,
      Git.commands (snd (Git.checkForUncommittedChanges spawn tempDir branchName))
      = expected (fun c => Git.execCommand spawn (Git.text c) tempDir))
  /\ (forall dollar,
        Git.commands
          (snd (Git.checkForUncommittedChangesStream dollar tempDir branchName))
        = expected (fun c => dollar tempDir (Git.template c))).
Proof.
  split; intros; apply check_commands.
Qed.

(** X14.  [checkForUncommittedChanges], in both copies, never
    throws: what a command throws or rejects with is caught and logged.
    When every command settles the function returns, and it logs no
    warning when the tree is clean or when the four commands succeed, and
    exactly one warning otherwise: the first thing that goes wrong ends
    it. *)
Theorem git_check_warns_once (branchName tempDir : string) :
  (forall spawn,
      let run c := Git.execCommand spawn (Git.text c) tempDir in
      let job := Git.checkForUncommittedChanges spawn tempDir branchName in
      (forall message, fst job <> Git.Raised message)
      /\ (Git.all_settle run branchName = true ->
          fst job = Git.Finished tt
          /\ Git.warnings (snd job)
             = if clean run || pushed run branchName then 0 else 1))
  /\ (forall dollar,
        let run c := dollar tempDir (Git.template c) in
        let job :=
          Git.checkForUncommittedChangesStream dollar tempDir branchName in
        (forall message, fst job <> Git.Raised message)
        /\ (Git.all_settle run branchName = true ->
            fst job = Git.Finished tt
            /\ Git.warnings (snd job)
               = if clean run || pushed run branchName then 0 else 1)).
Proof.
  split; intros; split;
    first [intros; apply check_never_raises | apply check_warns_once].
Qed.

Lemma git_check_warns_once_witness :
  let run c := refusingRemote "/tmp/work" (Git.template c) in
  let job :=
    Git.checkForUncommittedChangesStream refusingRemote "/tmp/work" "issue-1" in
  fst job = Git.Finished tt
  /\ Git.warnings (snd job)
     = if clean run || pushed run "issue-1" then 0 else 1.
Proof.
  apply (proj2 (proj2 (git_check_warns_once "issue-1" "/tmp/work")
                  refusingRemote)).
  vm_compute. reflexivity.
Defined.

(** The run of the witness: the four commands are run, the push fails,
    one warning is logged with the trimmed stderr of the push. *)
Example refused_push_is_one_warning :
  let job :=
    Git.checkForUncommittedChangesStream refusingRemote "/tmp/work" "issue-1" in
  Git.commands (snd job)
  = [Git.Status; Git.Add; Git.Commit; Git.Push "issue-1"]
  /\ Git.warnings (snd job) = 1
  /\ In (LogNote "Warning: Could not push changes:" [JStr "rejected"])
       (Git.said (snd job)).
Proof. vm_compute. repeat split. do 7 right. now left. Qed.

Lemma collect_chunks (chunks : list (bool * string)) (rest : list Git.Event)
    (out err : string) :
  Git.collect (map chunk_event chunks ++ rest) out err
  = Git.collect rest (out ++ written_on true chunks)
      (err ++ written_on false chunks).
Proof.
  revert out err. induction chunks as [|[[] data] chunks IH]; intros out err.
  - unfold written_on. simpl. now rewrite !append_empty_r.
  - simpl. rewrite IH. unfold written_on. simpl. now rewrite append_assoc.
  - simpl. rewrite IH. unfold written_on. simpl. now rewrite append_assoc.
Qed.

(** X12.  [execCommand] resolves with the first ['close'] or
    ['error'] of the child and never rejects once the child is spawned.
    At ['close'] it gives the exit code and all that was written on
    stdout and on stderr before, chunk after chunk; at ['error'] it gives
    code 1, the message of the error as stderr and an empty stdout, what
    was collected before is dropped.  Events after the first of the two
    are not seen; without either the promise stays pending; when [spawn]
    itself throws the promise rejects. *)
Theorem exec_command_settles_once (spawn : Spawn.SpawnCall -> Git.Process)
    (command cwd : string) (chunks : list (bool * string))
    (after : list Git.Event) :
  (forall c,
      spawn (Git.shCall command cwd)
      = Git.Spawned (map chunk_event chunks ++ Git.OnClose c :: after) ->
      Git.execCommand spawn command cwd
      = Git.Resolves {| Git.code := c;
                        Git.stdout := written_on true chunks;
                        Git.stderr := written_on false chunks |})
  /\ (forall message,
        spawn (Git.shCall command cwd)
        = Git.Spawned (map chunk_event chunks ++ Git.OnError message :: after) ->
        Git.execCommand spawn command cwd
        = Git.Resolves {| Git.code := Some 1%Z; Git.stdout := EmptyString;
                          Git.stderr := message |})
  /\ (spawn (Git.shCall command cwd) = Git.Spawned (map chunk_event chunks) ->
      Git.execCommand spawn command cwd = Git.Hangs)
  /\ (forall message,
        spawn (Git.shCall command cwd) = Git.SpawnThrows message ->
        Git.execCommand spawn command cwd = Git.Rejects message).
Proof.
  unfold Git.execCommand, Git.shCall. repeat split.
  - intros c ->. now rewrite collect_chunks.
  - intros message ->. now rewrite collect_chunks.
  - intros ->. rewrite <- (app_nil_r (map chunk_event chunks)).
    now rewrite collect_chunks.
  - intros message ->. reflexivity.
Qed.

Lemma exec_command_settles_once_witness :
  Git.execCommand
    (fun _ => Git.Spawned
                (map chunk_event [(true, " M a"); (false, "warning"); (true, ".txt")]
                   ++ Git.OnClose (Some 0%Z) :: [Git.OnError "late"]))
    "git status --porcelain 2>&1" "/tmp/work"
  = Git.Resolves
      {| Git.code := Some 0%Z;
         Git.stdout :=
           written_on true [(true, " M a"); (false, "warning"); (true, ".txt")];
         Git.stderr :=
           written_on false [(true, " M a"); (false, "warning"); (true, ".txt")] |}.
Proof.
  apply (proj1 (exec_command_settles_once
                  (fun _ => Git.Spawned
                     (map chunk_event
                        [(true, " M a"); (false, "warning"); (true, ".txt")]
                        ++ Git.OnClose (Some 0%Z) :: [Git.OnError "late"]))
                  "git status --porcelain 2>&1" "/tmp/work"
                  [(true, " M a"); (false, "warning"); (true, ".txt")]
                  [Git.OnError "late"])
           (Some 0%Z)).
  reflexivity.
Defined.

(** X15.  In the spawn variant, when the child of
    [git status] cannot be started, the function runs no other command
    and returns after one warning.  An ['error'] event of the child is
    reported as a failed status with the message of the error, since
    [execCommand] turns it into exit code 1; an exception of [spawn]
    itself is reported by the [catch] of the function. *)
Theorem git_status_cannot_start (spawn : Spawn.SpawnCall -> Git.Process)
    (tempDir branchName : string) (chunks : list (bool * string))
    (after : list Git.Event) (message : string) :
  (spawn (Git.shCall (Git.text Git.Status) tempDir)
   = Git.Spawned (map chunk_event chunks ++ Git.OnError message :: after) ->
   Git.checkForUncommittedChanges spawn tempDir branchName
   = (Git.Finished tt,
      [Git.Said (LogNote "Checking for uncommitted changes..." []);
       Git.Ran Git.Status;
       Git.Said (LogNote "Warning: Could not check git status:"
                   [JStr (trim message)])]))
  /\ (spawn (Git.shCall (Git.text Git.Status) tempDir) = Git.SpawnThrows message ->
      Git.checkForUncommittedChanges spawn tempDir branchName
      = (Git.Finished tt,
         [Git.Said (LogNote "Checking for uncommitted changes..." []);
          Git.Ran Git.Status;
          Git.Said (LogNote "Warning: Error checking for uncommitted changes:"
                      [JStr message])])).
Proof.
  unfold Git.checkForUncommittedChanges, Git.check, Git.await,
    Git.execCommand, Git.shCall.
  split; intros ->; [rewrite collect_chunks|]; reflexivity.
Qed.

Lemma git_status_cannot_start_witness :
  Git.checkForUncommittedChanges noSuchDirectory "/tmp/gone" "issue-1"
  = (Git.Finished tt,
     [Git.Said (LogNote "Checking for uncommitted changes..." []);
      Git.Ran Git.Status;
      Git.Said (LogNote "Warning: Could not check git status:"
                  [JStr (trim "spawn sh ENOENT")])]).
Proof.
  apply (proj1 (git_status_cannot_start noSuchDirectory "/tmp/gone" "issue-1"
                  [] [Git.OnClose (Some (-2)%Z)] "spawn sh ENOENT")).
  reflexivity.
Defined.

(** ** Issue ids *)

Section IssueIdFacts.

Import YouTrack.

Lemma upper_char_class (c : ascii) :
  is_digit (upper_char c) = is_digit c
  /\ is_alnum (upper_char c) = is_alnum c
  /\ is_lower (upper_char c) = false
  /\ upper_char (upper_char c) = upper_char c
  /\ (is_digit c = true -> upper_char c = c)
  /\ (is_digit c = true -> is_alnum c = true)
  /\ Ascii.eqb (upper_char c) "/" = Ascii.eqb c "/".
Proof.
  destruct c as [[] [] [] [] [] [] [] []]; vm_compute;
    repeat split; intros; congruence.
Qed.

Lemma span_spec (p : ascii -> bool) (s : string) :
  s = fst (span p s) ++ snd (span p s)
  /\ all p (fst (span p s)) = true
  /\ match snd (span p s) with
     | EmptyString => True
     | String c _ => p c = false
     end.
Proof.
  induction s as [|c r IH]; [repeat split|].
  simpl. destruct (p c) eqn:Hc.
  - destruct (span p r) as [taken rest]. simpl in *.
    destruct IH as (E & A & B). repeat split; [now rewrite <- E|now rewrite Hc|exact B].
  - simpl. repeat split. exact Hc.
Qed.

Lemma span_app (p : ascii -> bool) (a r : string) :
  all p a = true ->
  match r with EmptyString => True | String c _ => p c = false end ->
  span p (a ++ r) = (a, r).
Proof.
  intros Ha Hr. induction a as [|c a IH].
  - simpl. destruct r as [|c r]; [reflexivity|]. simpl. now rewrite Hr.
  - simpl in Ha. apply andb_true_iff in Ha. destruct Ha as [Hc Ha].
    simpl. rewrite Hc, (IH Ha). reflexivity.
Qed.

Lemma all_app (p : ascii -> bool) (a b : string) :
  all p (a ++ b) = all p a && all p b.
Proof.
  induction a as [|c a IH]; [reflexivity|]. simpl. now rewrite IH, andb_assoc.
Qed.

Lemma all_impl (p q : ascii -> bool) (s : string) :
  (forall c, p c = true -> q c = true) -> all p s = true -> all q s = true.
Proof.
  intros H. induction s as [|c r IH]; [reflexivity|].
  simpl. intros Hs. apply andb_true_iff in Hs. destruct Hs as [Hc Hr].
  now rewrite (H c Hc), (IH Hr).
Qed.

Lemma toUpperCase_app (a b : string) :
  toUpperCase (a ++ b) = toUpperCase a ++ toUpperCase b.
Proof. induction a as [|c a IH]; [reflexivity|]. simpl. now rewrite IH. Qed.

Lemma toUpperCase_idem (s : string) :
  toUpperCase (toUpperCase s) = toUpperCase s.
Proof.
  induction s as [|c r IH]; [reflexivity|]. simpl.
  destruct (upper_char_class c) as (_ & _ & _ & H & _). now rewrite H, IH.
Qed.

Lemma toUpperCase_digits (s : string) :
  all is_digit s = true -> toUpperCase s = s.
Proof.
  induction s as [|c r IH]; [reflexivity|]. simpl. intros H.
  apply andb_true_iff in H. destruct H as [Hc Hr].
  destruct (upper_char_class c) as (_ & _ & _ & _ & H & _).
  now rewrite (H Hc), (IH Hr).
Qed.

Lemma all_alnum_upper (s : string) :
  all is_alnum (toUpperCase s) = all is_alnum s.
Proof.
  induction s as [|c r IH]; [reflexivity|]. simpl.
  destruct (upper_char_class c) as (_ & H & _). now rewrite H, IH.
Qed.

Lemma no_lower_upper (s : string) :
  all (fun c => negb (is_lower c)) (toUpperCase s) = true.
Proof.
  induction s as [|c r IH]; [reflexivity|]. simpl.
  destruct (upper_char_class c) as (_ & _ & H & _). now rewrite H, IH.
Qed.

Lemma toUpperCase_empty (s : string) :
  String.eqb (toUpperCase s) EmptyString = String.eqb s EmptyString.
Proof. destruct s; reflexivity. Qed.

Lemma is_issue_id_upper (project number : string) :
  is_issue_id project number = true ->
  is_issue_id (toUpperCase project) number = true.
Proof.
  unfold is_issue_id. now rewrite toUpperCase_empty, all_alnum_upper.
Qed.

(** The group matches an id that stands at the start of the text and is
    not followed by a digit. *)
Lemma id_at_make (project number rest : string) :
  is_issue_id project number = true ->
  match rest with EmptyString => True | String c _ => is_digit c = false end ->
  id_at (project ++ "-" ++ number ++ rest)
  = Some (project ++ "-" ++ number, rest).
Proof.
  unfold is_issue_id. intros H Hr.
  apply andb_true_iff in H. destruct H as [H Hn].
  apply andb_true_iff in H. destruct H as [H Hne].
  apply andb_true_iff in H. destruct H as [Hpe Hp].
  unfold id_at.
  rewrite (span_app is_alnum project ("-" ++ number ++ rest) Hp eq_refl).
  destruct project as [|c project]; [discriminate|].
  change ("-" ++ number ++ rest) with (String "-" (number ++ rest)).
  cbv iota. rewrite (span_app is_digit number rest Hn Hr).
  destruct number as [|d number]; [discriminate|]. reflexivity.
Qed.

(** What the group matches is an id, and the text starts with it. *)
Lemma id_at_spec (s id rest : string) :
  id_at s = Some (id, rest) ->
  s = id ++ rest
  /\ exists project number,
       id = project ++ "-" ++ number /\ is_issue_id project number = true.
Proof.
  unfold id_at.
  destruct (span_spec is_alnum s) as (E1 & A1 & _).
  destruct (span is_alnum s) as [project afterProject]. simpl in E1, A1.
  destruct project as [|c project]; [discriminate|].
  destruct afterProject as [|h afterHyphen]; [discriminate|].
  destruct (Ascii.eqb h "-") eqn:Hh.
  2:{ destruct h as [[] [] [] [] [] [] [] []]; try discriminate. }
  apply Ascii.eqb_eq in Hh. subst h.
  destruct (span_spec is_digit afterHyphen) as (E2 & A2 & _).
  destruct (span is_digit afterHyphen) as [number rest']. simpl in E2, A2.
  destruct number as [|d number]; [discriminate|].
  intros H. injection H as <- <-. split.
  - rewrite E1, E2. simpl. f_equal. now rewrite append_assoc.
  - exists (String c project), (String d number). split; [reflexivity|].
    unfold is_issue_id. now rewrite A1, A2.
Qed.

Lemma urlId_cons (c : ascii) (r : string) :
  urlId (String c r)
  = if starts_with_ci "/issue/" (String c r) then
      match id_at (skip 7 (String c r)) with
      | Some (id, _) => Some id
      | None => urlId r
      end
    else urlId r.
Proof. reflexivity. Qed.

Lemma textId_cons (afterWord : bool) (c : ascii) (r : string) :
  textId afterWord (String c r)
  = if afterWord then textId (is_word c) r
    else match id_at (String c r) with
         | Some (id, rest) =>
             if boundary rest then Some id else textId (is_word c) r
         | None => textId (is_word c) r
         end.
Proof. reflexivity. Qed.

Lemma urlId_spec (s id : string) :
  urlId s = Some id -> exists t rest, id_at t = Some (id, rest).
Proof.
  induction s as [|c r IH]; [discriminate|].
  rewrite urlId_cons.
  destruct (starts_with_ci "/issue/" (String c r)); [|exact IH].
  destruct (id_at (skip 7 (String c r))) as [[id' rest]|] eqn:E; [|exact IH].
  intros H. injection H as <-. eauto.
Qed.

Lemma textId_spec (s id : string) (afterWord : bool) :
  textId afterWord s = Some id -> exists t rest, id_at t = Some (id, rest).
Proof.
  revert afterWord. induction s as [|c r IH]; intros afterWord; [discriminate|].
  rewrite textId_cons. destruct afterWord; [apply IH|].
  destruct (id_at (String c r)) as [[id' rest]|] eqn:E; [|apply IH].
  destruct (boundary rest); [|apply IH].
  intros H. injection H as <-. eauto.
Qed.

Lemma directId_make (project number : string) :
  is_issue_id project number = true ->
  directId (project ++ "-" ++ number) = Some (project ++ "-" ++ number).
Proof.
  intros H. unfold directId.
  pose proof (id_at_make project number EmptyString H I) as E.
  rewrite append_empty_r in E. now rewrite E.
Qed.

Lemma parse_direct (project number : string) :
  is_issue_id project number = true ->
  parseYouTrackIssueId (JStr (project ++ "-" ++ number))
  = Some (toUpperCase (project ++ "-" ++ number)).
Proof.
  intros H. unfold parseYouTrackIssueId.
  rewrite (directId_make _ _ H).
  destruct project; [discriminate|reflexivity].
Qed.

End IssueIdFacts.

(** X16.  Whatever [parseYouTrackIssueId] returns is an
    issue id in canonical form: a non-empty project code of digits and
    capital letters, a hyphen and a non-empty number, with no small
    letter anywhere; and the function maps it to itself, so parsing
    twice is parsing once. *)
Theorem parsed_issue_id_is_canonical (input : json) (id : string) :
  YouTrack.parseYouTrackIssueId input = Some id ->
  (exists project number,
      id = project ++ "-" ++ number
      /\ YouTrack.is_issue_id project number = true
      /\ YouTrack.all (fun c => negb (YouTrack.is_lower c)) id = true)
  /\ YouTrack.parseYouTrackIssueId (JStr id) = Some id.
Proof.
  intros H.
  assert (Hid : exists t rest id0,
             YouTrack.id_at t = Some (id0, rest)
             /\ id = YouTrack.toUpperCase id0).
  { unfold YouTrack.parseYouTrackIssueId in H.
    destruct input as [| | |s| |]; try discriminate.
    destruct (String.eqb s EmptyString); [discriminate|].
    destruct (YouTrack.directId s) as [id0|] eqn:E1.
    - injection H as <-. unfold YouTrack.directId in E1.
      destruct (YouTrack.id_at s) as [[i [|]]|] eqn:E; try discriminate.
      injection E1 as ->. eauto.
    - destruct (YouTrack.urlId s) as [id0|] eqn:E2.
      + injection H as <-.
        destruct (urlId_spec s id0 E2) as (t & rest & E). eauto.
      + destruct (YouTrack.textId false s) as [id0|] eqn:E3; [|discriminate].
        injection H as <-.
        destruct (textId_spec s id0 false E3) as (t & rest & E). eauto. }
  destruct Hid as (t & rest & id0 & E & ->).
  destruct (id_at_spec t id0 rest E) as (_ & project & number & -> & Hw).
  assert (Hn : YouTrack.all YouTrack.is_digit number = true).
  { unfold YouTrack.is_issue_id in Hw. apply andb_true_iff in Hw. tauto. }
  assert (Eu : YouTrack.toUpperCase (project ++ "-" ++ number)
               = YouTrack.toUpperCase project ++ "-" ++ number).
  { rewrite !toUpperCase_app, (toUpperCase_digits number Hn). reflexivity. }
  split.
  - exists (YouTrack.toUpperCase project), number.
    split; [exact Eu|]. split; [now apply is_issue_id_upper|].
    apply no_lower_upper.
  - rewrite Eu. rewrite parse_direct by now apply is_issue_id_upper.
    now rewrite <- Eu, toUpperCase_idem.
Qed.

Lemma parsed_issue_id_is_canonical_witness :
  (exists project number,
      "PAG-45" = project ++ "-" ++ number
      /\ YouTrack.is_issue_id project number = true
      /\ YouTrack.all (fun c => negb (YouTrack.is_lower c)) "PAG-45" = true)
  /\ YouTrack.parseYouTrackIssueId (JStr "PAG-45") = Some "PAG-45".
Proof.
  apply (parsed_issue_id_is_canonical
           (JStr "see https://acme.youtrack.cloud/issue/pag-45?x=1") "PAG-45").
  vm_compute. reflexivity.
Defined.

Section IssueUrlFacts.

Import YouTrack.

Lemma starts_with_ci_cons (a b : ascii) (l r : string) :
  starts_with_ci (String a l) (String b r)
  = Ascii.eqb (upper_char a) (upper_char b) && starts_with_ci l r.
Proof. reflexivity. Qed.

Lemma slash_ci (c : ascii) :
  Ascii.eqb (upper_char "/") (upper_char c) = Ascii.eqb c "/".
Proof. destruct c as [[] [] [] [] [] [] [] []]; vm_compute; reflexivity. Qed.

Lemma all_tail (p : ascii -> bool) (c : ascii) (r : string) :
  all p (String c r) = true -> all p r = true.
Proof. simpl. intros H. apply andb_true_iff in H. tauto. Qed.

(** The literal [/issue/] does not match where the six code units after
    the first hold no slash. *)
Lemma no_issue_path (c : ascii) (t : string) :
  all not_slash t = true -> starts_with_ci "/issue/" (String c t) = false.
Proof.
  intros H.
  destruct t as [|c1 [|c2 [|c3 [|c4 [|c5 [|c6 t]]]]]];
    rewrite ?starts_with_ci_cons;
    try (cbn [starts_with_ci]; rewrite ?andb_false_r; reflexivity).
  do 5 apply all_tail in H.
  simpl in H. apply andb_true_iff in H. destruct H as [H6 _].
  unfold not_slash in H6. apply negb_true_iff in H6.
  rewrite (slash_ci c6), H6. cbn [andb]. rewrite ?andb_false_r. reflexivity.
Qed.

Lemma urlId_no_slash (t : string) : all not_slash t = true -> urlId t = None.
Proof.
  induction t as [|c r IH]; [reflexivity|]. intros H.
  rewrite urlId_cons, (no_issue_path c r (all_tail _ _ _ H)).
  apply IH. exact (all_tail _ _ _ H).
Qed.

Lemma alnum_not_slash (c : ascii) : is_alnum c = true -> not_slash c = true.
Proof.
  destruct c as [[] [] [] [] [] [] [] []]; vm_compute; congruence.
Qed.

Lemma issue_id_no_slash (project number : string) :
  is_issue_id project number = true ->
  all not_slash (project ++ "-" ++ number) = true.
Proof.
  unfold is_issue_id. intros H.
  apply andb_true_iff in H. destruct H as [H Hn].
  apply andb_true_iff in H. destruct H as [H _].
  apply andb_true_iff in H. destruct H as [_ Hp].
  rewrite !all_app.
  rewrite (all_impl _ _ _ alnum_not_slash Hp). simpl.
  apply (all_impl is_digit); [|exact Hn].
  intros c Hc. apply alnum_not_slash.
  now apply (upper_char_class c).
Qed.

Lemma textId_make (project number : string) :
  is_issue_id project number = true ->
  textId false (project ++ "-" ++ number) = Some (project ++ "-" ++ number).
Proof.
  intros H.
  pose proof (id_at_make project number EmptyString H I) as E.
  rewrite append_empty_r in E.
  destruct project as [|c project]; [discriminate|].
  change (String c project ++ "-" ++ number)
    with (String c (project ++ "-" ++ number)) in *.
  rewrite textId_cons, E. reflexivity.
Qed.

Lemma parse_youtrack_url (project number : string) :
  is_issue_id project number = true ->
  parseYouTrackIssueId (JStr ("youtrack://" ++ project ++ "-" ++ number))
  = Some (toUpperCase (project ++ "-" ++ number)).
Proof.
  intros H. set (t := project ++ "-" ++ number).
  unfold parseYouTrackIssueId.
  change (String.eqb ("youtrack://" ++ t) EmptyString) with false. cbv iota.
  change (directId ("youtrack://" ++ t)) with (@None string). cbv iota.
  assert (Eu : urlId ("youtrack://" ++ t) = None).
  { change (urlId ("youtrack://" ++ t)) with (urlId (String "/" t)).
    pose proof (issue_id_no_slash project number H) as Hs. fold t in Hs.
    rewrite urlId_cons, (no_issue_path "/" t Hs).
    now apply urlId_no_slash. }
  rewrite Eu.
  change (textId false ("youtrack://" ++ t)) with (textId false t).
  unfold t. now rewrite textId_make.
Qed.

End IssueUrlFacts.

(** X17.  [parseYouTrackIssueId] accepts every issue id,
    written in either case, and gives it in capitals; and it reads the id
    back from the [youtrack://] address that
    [convertYouTrackIssueForGitHub] makes of an issue, whatever the
    project code is. *)
Theorem issue_id_round_trip (project number : string) :
  YouTrack.is_issue_id project number = true ->
  YouTrack.parseYouTrackIssueId (JStr (project ++ "-" ++ number))
  = Some (YouTrack.toUpperCase (project ++ "-" ++ number))
  /\ forall issue githubRepoUrl,
       YouTrack.id issue = project ++ "-" ++ number ->
       YouTrack.parseYouTrackIssueId
         (JStr (YouTrack.gh_url
                  (YouTrack.convertYouTrackIssueForGitHub issue githubRepoUrl)))
       = Some (YouTrack.toUpperCase (YouTrack.id issue)).
Proof.
  intros H. split; [now apply parse_direct|].
  intros issue githubRepoUrl E. unfold YouTrack.convertYouTrackIssueForGitHub.
  cbn [YouTrack.gh_url]. rewrite E. now apply parse_youtrack_url.
Qed.

Lemma issue_id_round_trip_witness :
  YouTrack.parseYouTrackIssueId (JStr ("pag" ++ "-" ++ "45"))
  = Some (YouTrack.toUpperCase ("pag" ++ "-" ++ "45"))
  /\ forall issue githubRepoUrl,
       YouTrack.id issue = "pag" ++ "-" ++ "45" ->
       YouTrack.parseYouTrackIssueId
         (JStr (YouTrack.gh_url
                  (YouTrack.convertYouTrackIssueForGitHub issue githubRepoUrl)))
       = Some (YouTrack.toUpperCase (YouTrack.id issue)).
Proof.
  apply (issue_id_round_trip "pag" "45"). reflexivity.
Defined.

(** ** The project mapping *)

Section SplitFacts.

Import YouTrack.

Lemma split_on_not_nil (sep : ascii) (s : string) : split_on sep s <> [].
Proof.
  destruct s as [|c r]; simpl; [discriminate|].
  destruct (Ascii.eqb c sep); [discriminate|].
  destruct (split_on sep r); discriminate.
Qed.

Lemma split_on_none (sep : ascii) (s : string) :
  all (differs sep) s = true -> split_on sep s = [s].
Proof.
  induction s as [|c r IH]; [reflexivity|].
  simpl. intros H. apply andb_true_iff in H. destruct H as [Hc Hr].
  apply negb_true_iff in Hc. now rewrite Hc, (IH Hr).
Qed.

Lemma split_on_piece (sep : ascii) (p s : string) :
  all (differs sep) p = true ->
  split_on sep (p ++ String sep s) = p :: split_on sep s.
Proof.
  induction p as [|c r IH]; intros H.
  - simpl. now rewrite Ascii.eqb_refl.
  - simpl in H. apply andb_true_iff in H. destruct H as [Hc Hr].
    apply negb_true_iff in Hc.
    change (String c r ++ String sep s) with (String c (r ++ String sep s)).
    simpl. now rewrite Hc, (IH Hr).
Qed.

Lemma split_on_join (sep : ascii) (pieces : list string) :
  pieces <> [] ->
  forallb (all (differs sep)) pieces = true ->
  split_on sep (join_with (str sep) pieces) = pieces.
Proof.
  induction pieces as [|p rest IH]; [congruence|]. intros _ H.
  simpl in H. apply andb_true_iff in H. destruct H as [Hp Hr].
  destruct rest as [|q rest]; [now apply split_on_none|].
  change (join_with (str sep) (p :: q :: rest))
    with (p ++ String sep (join_with (str sep) (q :: rest))).
  rewrite split_on_piece by assumption.
  now rewrite IH.
Qed.

Lemma trim_start_nospace (s : string) :
  all (fun c => negb (is_space c)) s = true -> trim_start s = s.
Proof.
  destruct s as [|c r]; [reflexivity|]. simpl. intros H.
  apply andb_true_iff in H. destruct H as [Hc _].
  apply negb_true_iff in Hc. now rewrite Hc.
Qed.

(** [trimEnd] leaves a prefix without white space alone. *)
Lemma trim_end_prefix (a s : string) :
  all (fun c => negb (is_space c)) a = true ->
  trim_end (a ++ s) = a ++ trim_end s.
Proof.
  induction a as [|c a IH]; [reflexivity|]. simpl all. intros H.
  apply andb_true_iff in H. destruct H as [Hc Ha].
  apply negb_true_iff in Hc.
  change (String c a ++ s) with (String c (a ++ s)).
  simpl trim_end. rewrite (IH Ha).
  destruct (a ++ trim_end s) eqn:E; [rewrite Hc|]; simpl; now rewrite E.
Qed.

Lemma trim_nospace (s : string) :
  all (fun c => negb (is_space c)) s = true -> trim s = s.
Proof.
  intros H. unfold trim. rewrite (trim_start_nospace s H).
  rewrite <- (append_empty_r s) at 1. rewrite trim_end_prefix by assumption.
  simpl. apply append_empty_r.
Qed.

Lemma obj_get_last (key k : string) (v : json) (fields : list (string * json)) :
  obj_get key (fields ++ [(k, v)])
  = if String.eqb key k then Some v else obj_get key fields.
Proof.
  induction fields as [|[k' v'] fields IH]; simpl.
  - reflexivity.
  - rewrite IH. destruct (String.eqb key k); reflexivity.
Qed.

End SplitFacts.

Section ProjectMapFacts.

Import YouTrack ProjectMap.

Lemma plain_nospace (s : string) :
  plain s = true -> all (fun c => negb (is_space c)) s = true.
Proof.
  unfold plain. intros H. apply andb_true_iff in H. destruct H as [_ H].
  apply (all_impl plain_char); [|exact H].
  unfold plain_char. intros c Hc.
  apply andb_true_iff in Hc. destruct Hc as [Hc _].
  apply andb_true_iff in Hc. tauto.
Qed.

Lemma plain_differs (s : string) :
  plain s = true ->
  all (differs ",") s = true /\ all (differs ":") s = true.
Proof.
  unfold plain. intros H. apply andb_true_iff in H. destruct H as [_ H].
  split; (apply (all_impl plain_char); [|exact H]);
    unfold plain_char, differs; intros c Hc;
    apply andb_true_iff in Hc; destruct Hc as [Hc H2];
    apply andb_true_iff in Hc; tauto.
Qed.

Lemma plain_not_empty (s : string) :
  plain s = true -> String.eqb s EmptyString = false.
Proof.
  unfold plain. intros H. apply andb_true_iff in H. destruct H as [H _].
  now apply negb_true_iff in H.
Qed.

(** A pair [KEY:VALUE] of a plain key and a plain value adds the member
    [KEY: VALUE]. *)
Lemma addPair_plain (fields : list (string * json)) (k v : string) :
  plain_key k = true -> plain v = true ->
  addPair fields (k ++ ":" ++ v) = (fields ++ [(k, JStr v)])%list.
Proof.
  unfold plain_key. intros Hk Hv.
  apply andb_true_iff in Hk. destruct Hk as [Hk Hproto].
  apply andb_true_iff in Hk. destruct Hk as [Hk _].
  apply negb_true_iff in Hproto.
  pose proof (plain_nospace k Hk) as Sk. pose proof (plain_nospace v Hv) as Sv.
  destruct (plain_differs k Hk) as [_ Ck].
  destruct (plain_differs v Hv) as [_ Cv].
  unfold addPair.
  rewrite trim_nospace by (rewrite !all_app, Sk, Sv; reflexivity).
  change (k ++ ":" ++ v) with (k ++ String ":" v).
  rewrite split_on_piece by assumption. rewrite split_on_none by assumption.
  rewrite (plain_not_empty k Hk), (plain_not_empty v Hv). cbn [negb andb].
  rewrite !trim_nospace by assumption.
  unfold assign. now rewrite Hproto.
Qed.

Lemma fold_addPair (pairs : list (string * string))
    (fields : list (string * json)) (key : string) :
  forallb (fun kv => plain_key (fst kv) && plain (snd kv)) pairs = true ->
  obj_get key
    (fold_left addPair (map (fun kv => fst kv ++ ":" ++ snd kv) pairs) fields)
  = match last_of key pairs with
    | Some v => Some (JStr v)
    | None => obj_get key fields
    end.
Proof.
  revert fields. induction pairs as [|[k v] pairs IH]; intros fields H;
    [reflexivity|].
  simpl in H. apply andb_true_iff in H. destruct H as [Hkv H].
  apply andb_true_iff in Hkv. destruct Hkv as [Hk Hv].
  cbn [map fold_left fst snd last_of].
  rewrite addPair_plain by assumption. rewrite (IH _ H).
  destruct (last_of key pairs); [reflexivity|].
  rewrite obj_get_last. destruct (String.eqb key k); reflexivity.
Qed.

Lemma pieces_without_comma (pairs : list (string * string)) :
  forallb (fun kv => plain_key (fst kv) && plain (snd kv)) pairs = true ->
  forallb (all (differs ","))
    (map (fun kv => fst kv ++ ":" ++ snd kv) pairs) = true.
Proof.
  induction pairs as [|[k v] pairs IH]; [reflexivity|]. intros H.
  simpl in H. apply andb_true_iff in H. destruct H as [Hkv H].
  apply andb_true_iff in Hkv. destruct Hkv as [Hk Hv].
  unfold plain_key in Hk.
  apply andb_true_iff in Hk. destruct Hk as [Hk _].
  apply andb_true_iff in Hk. destruct Hk as [Hk _].
  cbn [map forallb fst snd]. rewrite (IH H), !all_app.
  destruct (plain_differs k Hk) as [-> _].
  destruct (plain_differs v Hv) as [-> _]. reflexivity.
Qed.

Lemma format_head (k v : string) (rest : list (string * string)) :
  plain_key k = true ->
  String.eqb (format ((k, v) :: rest)) EmptyString = false
  /\ starts_with "{" (format ((k, v) :: rest)) = false.
Proof.
  unfold plain_key. intros Hk.
  apply andb_true_iff in Hk. destruct Hk as [Hk _].
  apply andb_true_iff in Hk. destruct Hk as [Hk Hb].
  apply negb_true_iff in Hb. pose proof (plain_not_empty k Hk) as He.
  unfold format. simpl map.
  destruct k as [|c k]; [discriminate|].
  destruct rest as [|kv rest]; simpl in *; split; (reflexivity || exact Hb).
Qed.

End ProjectMapFacts.

(** X20.  A mapping written in the format
    [KEY:VALUE,KEY:VALUE,...] is read back by [parseProjectMapping]: when
    the project codes and the repositories are plain (not empty, without
    white space, comma or colon) and no project code starts with a brace
    or is [__proto__], the object it returns maps every project code to
    the repository of its last pair, has no other member, and nothing is
    reported as a failure. *)
Theorem project_map_reads_back {rt : Runtime}
    (pairs : list (string * string)) :
  forallb (fun kv => ProjectMap.plain_key (fst kv) && ProjectMap.plain (snd kv))
    pairs = true ->
  let parsed := ProjectMap.parseProjectMapping (JStr (ProjectMap.format pairs)) in
  snd parsed = false
  /\ forall key,
       field (fst parsed) key
       = match ProjectMap.last_of key pairs with
         | Some repo => Some (JStr repo)
         | None => None
         end.
Proof.
  intros H parsed. unfold parsed, ProjectMap.parseProjectMapping.
  destruct pairs as [|[k v] pairs].
  - split; [reflexivity|]. intros key. reflexivity.
  - assert (Hk : ProjectMap.plain_key k = true).
    { simpl in H. apply andb_true_iff in H. destruct H as [H _].
      apply andb_true_iff in H. tauto. }
    destruct (format_head k v pairs Hk) as [He Hb].
    unfold truthy. rewrite He, Hb. cbn [negb fst snd].
    split; [reflexivity|]. intros key. unfold ProjectMap.format.
    rewrite (split_on_join ",");
      [|discriminate|now apply pieces_without_comma].
    cbn [field]. now rewrite fold_addPair.
Qed.

Lemma project_map_reads_back_witness :
  let parsed :=
    ProjectMap.parseProjectMapping
      (JStr (ProjectMap.format
               [("PAG", "acme/web"); ("DEV", "acme/tools"); ("PAG", "acme/site")]))
  in
  snd parsed = false
  /\ forall key,
       field (fst parsed) key
       = match ProjectMap.last_of key
                 [("PAG", "acme/web"); ("DEV", "acme/tools"); ("PAG", "acme/site")]
         with
         | Some repo => Some (JStr repo)
         | None => None
         end.
Proof.
  apply (project_map_reads_back
           [("PAG", "acme/web"); ("DEV", "acme/tools"); ("PAG", "acme/site")]).
  reflexivity.
Defined.

Section ColonFacts.

Import YouTrack ProjectMap.

Lemma trim_prefix (a s : string) :
  String.eqb a EmptyString = false ->
  all (fun c => negb (is_space c)) a = true ->
  trim (a ++ s) = a ++ trim_end s.
Proof.
  intros He Ha. unfold trim.
  destruct a as [|c a]; [discriminate|].
  assert (Hc : is_space c = false).
  { simpl in Ha. apply andb_true_iff in Ha. destruct Ha as [Hc _].
    now apply negb_true_iff in Hc. }
  change (trim_start (String c a ++ s)) with
    (if is_space c then trim_start (a ++ s) else String c a ++ s).
  rewrite Hc. now apply trim_end_prefix.
Qed.

Lemma addPair_cut (fields : list (string * json)) (k v more : string) :
  plain_key k = true -> plain v = true ->
  addPair fields (k ++ ":" ++ v ++ ":" ++ more)
  = (fields ++ [(k, JStr v)])%list.
Proof.
  unfold plain_key. intros Hk Hv.
  apply andb_true_iff in Hk. destruct Hk as [Hk Hproto].
  apply andb_true_iff in Hk. destruct Hk as [Hk _].
  apply negb_true_iff in Hproto.
  pose proof (plain_nospace k Hk) as Sk. pose proof (plain_nospace v Hv) as Sv.
  pose proof (plain_not_empty k Hk) as Ek.
  destruct (plain_differs k Hk) as [_ Ck].
  destruct (plain_differs v Hv) as [_ Cv].
  unfold addPair.
  replace (k ++ ":" ++ v ++ ":" ++ more) with ((k ++ ":" ++ v ++ ":") ++ more)
    by (rewrite !append_assoc; reflexivity).
  rewrite trim_prefix;
    [|destruct k; [discriminate|reflexivity]
     |rewrite !all_app, Sk, Sv; reflexivity].
  replace ((k ++ ":" ++ v ++ ":") ++ trim_end more)
    with (k ++ String ":" (v ++ String ":" (trim_end more)))
    by (rewrite !append_assoc; reflexivity).
  rewrite !split_on_piece by assumption.
  destruct (split_on ":" (trim_end more)) as [|x rest];
    rewrite Ek, (plain_not_empty v Hv); cbn [negb andb];
    rewrite !trim_nospace by assumption;
    unfold assign; now rewrite Hproto.
Qed.

End ColonFacts.

(** X21.  Of a pair, [parseProjectMapping] keeps what
    stands before the second colon: for a plain project code and a pair
    [KEY:VALUE:MORE] without comma, the project code is mapped to
    [VALUE], and [MORE] is dropped without a report.  So a repository
    given by its address, as in [PAG:https://github.com/acme/web], is
    mapped to [https]. *)
Theorem project_map_cuts_at_second_colon {rt : Runtime}
    (key value more : string) :
  ProjectMap.plain_key key = true ->
  ProjectMap.plain value = true ->
  YouTrack.all (differs ",") more = true ->
  ProjectMap.parseProjectMapping (JStr (key ++ ":" ++ value ++ ":" ++ more))
  = (JObj [(key, JStr value)], false).
Proof.
  intros Hkey Hv Hm.
  assert (Hk : ProjectMap.plain key = true /\ starts_with "{" key = false).
  { unfold ProjectMap.plain_key in Hkey.
    apply andb_true_iff in Hkey. destruct Hkey as [H _].
    apply andb_true_iff in H. destruct H as [H1 H2].
    apply negb_true_iff in H2. tauto. }
  destruct Hk as (Hk & Hb).
  destruct (plain_differs key Hk) as [Kc _].
  destruct (plain_differs value Hv) as [Vc _].
  unfold ProjectMap.parseProjectMapping.
  assert (Hs : starts_with "{" (key ++ ":" ++ value ++ ":" ++ more) = false).
  { pose proof (plain_not_empty key Hk) as He.
    destruct key as [|c key]; [discriminate|exact Hb]. }
  assert (Ht : truthy (JStr (key ++ ":" ++ value ++ ":" ++ more)) = true).
  { pose proof (plain_not_empty key Hk) as He.
    destruct key as [|c key]; [discriminate|reflexivity]. }
  rewrite Ht, Hs.
  rewrite split_on_none by (rewrite !all_app, Kc, Vc, Hm; reflexivity).
  cbn [fold_left]. now rewrite addPair_cut.
Qed.

Lemma project_map_cuts_at_second_colon_witness :
  ProjectMap.parseProjectMapping
    (JStr ("PAG" ++ ":" ++ "https" ++ ":" ++ "//github.com/acme/web"))
  = (JObj [("PAG", JStr "https")], false).
Proof.
  apply (project_map_cuts_at_second_colon "PAG" "https" "//github.com/acme/web");
    reflexivity.
Defined.

(** ** Requests to YouTrack *)

Section ApiFacts.

Import Api.

Lemma ends_with_slash_app (u : string) : ends_with_slash (u ++ "/") = true.
Proof.
  induction u as [|c u IH]; [reflexivity|].
  change (String c u ++ "/") with (String c (u ++ "/")).
  simpl. destruct (u ++ "/") eqn:E; [destruct u; discriminate|exact IH].
Qed.

Lemma drop_last_app (u : string) : drop_last (u ++ "/") = u.
Proof.
  induction u as [|c u IH]; [reflexivity|].
  change (String c u ++ "/") with (String c (u ++ "/")).
  simpl. destruct (u ++ "/") eqn:E; [destruct u; discriminate|].
  now rewrite IH.
Qed.

Lemma next_normal {A B} (t : Task A) (k : A -> Task B) (a : A)
    (said : list LogMsg) :
  t = (Normal a, said) ->
  next t k = (fst (k a), (said ++ snd (k a))%list).
Proof. intros ->. simpl. destruct (k a); reflexivity. Qed.

End ApiFacts.

(** X22.  [makeYouTrackRequest] builds the same address whether
    or not the configured URL ends with a slash and whether or not the
    endpoint starts with one: for a URL without slash at its end and an
    endpoint without slash at its start, the four spellings all give the
    URL, [/api/] and the endpoint. *)
Theorem request_url_is_normalised (url endpoint : string) :
  Api.ends_with_slash url = false ->
  starts_with "/" endpoint = false ->
  Api.fullUrl url endpoint = url ++ "/api/" ++ endpoint
  /\ Api.fullUrl (url ++ "/") endpoint = url ++ "/api/" ++ endpoint
  /\ Api.fullUrl url ("/" ++ endpoint) = url ++ "/api/" ++ endpoint
  /\ Api.fullUrl (url ++ "/") ("/" ++ endpoint) = url ++ "/api/" ++ endpoint.
Proof.
  intros Hu He. unfold Api.fullUrl, Api.baseUrl.
  rewrite Hu, He, ends_with_slash_app, drop_last_app.
  change (starts_with "/" ("/" ++ endpoint)) with true.
  repeat split; reflexivity.
Qed.

Lemma request_url_is_normalised_witness :
  Api.fullUrl "https://acme.youtrack.cloud" "users/me"
  = "https://acme.youtrack.cloud" ++ "/api/" ++ "users/me"
  /\ Api.fullUrl ("https://acme.youtrack.cloud" ++ "/") "users/me"
     = "https://acme.youtrack.cloud" ++ "/api/" ++ "users/me"
  /\ Api.fullUrl "https://acme.youtrack.cloud" ("/" ++ "users/me")
     = "https://acme.youtrack.cloud" ++ "/api/" ++ "users/me"
  /\ Api.fullUrl ("https://acme.youtrack.cloud" ++ "/") ("/" ++ "users/me")
     = "https://acme.youtrack.cloud" ++ "/api/" ++ "users/me".
Proof.
  apply (request_url_is_normalised "https://acme.youtrack.cloud" "users/me");
    reflexivity.
Defined.

(** X23.  No error that mentions [fetch] leaves
    [makeYouTrackRequest] as it was: it is thrown again as a failure to
    connect, with the configured URL.  That holds for the error of an
    answer as well: when the server answers with a status that is not ok
    and a text that contains [fetch], the error thrown is the failure to
    connect wrapped around the API error. *)
Theorem fetch_errors_are_relabelled {rt : Runtime} {pf : Api.Platform}
    (verboseMode : bool) (fetch : Api.Request -> Api.Answer Api.Response)
    (endpoint : string) (config : Api.Config) (options : Api.Options)
    (address : string) :
  Api.url config = Some address ->
  let made := Api.makeYouTrackRequest verboseMode fetch endpoint config options in
  (forall e,
      fst made = Throw e ->
      includes "fetch" (Api.message e) = true ->
      exists m,
        includes "fetch" m = true
        /\ e = Error ("Failed to connect to YouTrack at " ++ address ++ ": " ++ m))
  /\ (forall response errorText,
        fetch (Api.requestOf endpoint config options) = Api.Gives response ->
        Api.ok response = false ->
        Api.text response = Api.Gives errorText ->
        includes "fetch" errorText = true ->
        fst made
        = Throw (Error ("Failed to connect to YouTrack at " ++ address ++ ": "
                          ++ "YouTrack API error ("
                          ++ Reference.nat_text (Api.status response) ++ "): "
                          ++ errorText))).
Proof.
  intros Hu made. unfold made, Api.makeYouTrackRequest. rewrite Hu.
  set (request := Api.requestOf endpoint config options).
  assert (E : fst (Api.next
                     (if verboseMode
                      then Api.note "YouTrack API call:"
                             [JStr (Api.req_method request);
                              JStr (Api.req_url request)]
                      else Api.finish tt)
                     (fun _ =>
                        match Api.exchange fetch request with
                        | Normal v => Api.finish v
                        | Throw e => Api.raise (Api.relabel config e)
                        end))
              = match Api.exchange fetch request with
                | Normal v => Normal v
                | Throw e => Throw (Api.relabel config e)
                end).
  { destruct verboseMode; simpl;
      destruct (Api.exchange fetch request); reflexivity. }
  rewrite E. clear E. split.
  - intros e He Hf.
    destruct (Api.exchange fetch request) as [v|e0]; [discriminate|].
    injection He as <-. unfold Api.relabel in *. rewrite Hu in *.
    destruct (includes "fetch" (Api.message e0)) eqn:H0.
    + exists (Api.message e0). split; [exact H0|reflexivity].
    + rewrite H0 in Hf. discriminate.
  - intros response errorText Hr Hok Ht Hf.
    unfold Api.exchange. rewrite Hr, Hok, Ht. cbn [negb].
    unfold Api.relabel. rewrite Hu. cbn [Api.message Api.shown_as].
    assert (Hi : includes "fetch"
                   ("YouTrack API error ("
                      ++ Reference.nat_text (Api.status response) ++ "): "
                      ++ errorText) = true).
    { apply includes_after. apply includes_after.
      apply (includes_after "fetch" "): "). exact Hf. }
    now rewrite Hi.
Qed.

Lemma fetch_errors_are_relabelled_witness :
  fst (Api.makeYouTrackRequest false badGateway "/users/me" sampleConfig
         Api.noOptions)
  = Throw (Error ("Failed to connect to YouTrack at "
                    ++ "https://acme.youtrack.cloud" ++ ": "
                    ++ "YouTrack API error ("
                    ++ Reference.nat_text 502 ++ "): "
                    ++ "upstream fetch timed out")).
Proof.
  apply (proj2 (fetch_errors_are_relabelled false badGateway "/users/me"
                  sampleConfig Api.noOptions "https://acme.youtrack.cloud"
                  eq_refl)
           {| Api.ok := false; Api.status := 502;
              Api.text := Api.Gives "upstream fetch timed out";
              Api.contentType := Some "text/plain";
              Api.parsed := Api.FailsWith "Unexpected token u in JSON" |}
           "upstream fetch timed out");
    reflexivity.
Defined.

Section CallFacts.

Import Api.

Context {rt : Runtime} {pf : Platform}.

Lemma fst_next {A B} (t : Task A) (k : A -> Task B) :
  fst (next t k)
  = match fst t with
    | Normal a => fst (k a)
    | Throw e => Throw e
    end.
Proof. destruct t as [[a|e] said]; simpl; [destruct (k a)|]; reflexivity. Qed.

Lemma fst_attempt {A} (body : Task A) (handler : JsError -> Task A) :
  fst (attempt body handler)
  = match fst body with
    | Normal a => Normal a
    | Throw e => fst (handler e)
    end.
Proof.
  destruct body as [[a|e] said]; simpl; [|destruct (handler e)]; reflexivity.
Qed.

Lemma valid_has_url (c : Config) :
  valid (Some c) = true -> exists address, url c = Some address.
Proof.
  unfold valid, validateYouTrackConfig.
  destruct (url c) as [address|]; [eauto|discriminate].
Qed.

Lemma fst_make (verboseMode : bool) (fetch : Request -> Answer Response)
    (endpoint : string) (c : Config) (options : Options) (address : string) :
  url c = Some address ->
  fst (makeYouTrackRequest verboseMode fetch endpoint c options)
  = match exchange fetch (requestOf endpoint c options) with
    | Normal v => Normal v
    | Throw e => Throw (relabel c e)
    end.
Proof.
  intros Hu. unfold makeYouTrackRequest. rewrite Hu, fst_next.
  destruct verboseMode; simpl;
    destruct (exchange fetch (requestOf endpoint c options)); reflexivity.
Qed.

Lemma post_outcome (verboseMode : bool)
    (fetch : Request -> Answer Response) (config : option Config)
    (endpoint : string) (data : json) (before after : LogMsg)
    (failed : JsError -> LogMsg) :
  fst (post verboseMode fetch config endpoint data before after failed)
  = Normal
      (match config with
       | Some c =>
           valid config
           && answered fetch
                (requestOf endpoint c
                   {| method := Some "POST"; body := data; headers := [] |})
       | None => false
       end).
Proof.
  unfold post. rewrite fst_attempt, fst_next. unfold validate, valid.
  cbn [fst].
  destruct config as [c|]; [|reflexivity].
  destruct (validateYouTrackConfig (Some c)) eqn:Hv; [|reflexivity].
  destruct (valid_has_url c) as [address Hu];
    [unfold valid; now rewrite Hv|].
  rewrite fst_next. cbn [fst]. rewrite fst_next, (fst_make _ _ _ _ _ _ Hu).
  unfold answered.
  destruct (exchange fetch _); reflexivity.
Qed.

End CallFacts.

(** X24.  [updateYouTrackIssueStage] and [addYouTrackComment]
    never throw, whatever the configuration and the server do, a [null]
    configuration included: they return [true] when the configuration is
    valid and the one request they post is answered without error, and
    [false] in every other case. *)
Theorem posting_calls_never_throw {rt : Runtime} {pf : Api.Platform}
    (verboseMode : bool) (fetch : Api.Request -> Api.Answer Api.Response)
    (issueId : string) (config : option Api.Config) :
  let posted endpoint data :=
    match config with
    | Some c =>
        Api.valid config
        && Api.answered fetch
             (Api.requestOf endpoint c
                {| Api.method := Some "POST"; Api.body := data;
                   Api.headers := [] |})
    | None => false
    end in
  (forall newStage,
      fst (Api.updateYouTrackIssueStage verboseMode fetch issueId newStage config)
      = Normal (posted ("/issues/" ++ issueId) (Api.updateData newStage)))
  /\ (forall comment,
        fst (Api.addYouTrackComment verboseMode fetch issueId comment config)
        = Normal (posted ("/issues/" ++ issueId ++ "/comments")
                    (Api.commentData comment))).
Proof.
  split; intros; apply post_outcome.
Qed.

(** X25.  [testYouTrackConnection] throws for a [null]
    configuration: the validation fails, and the [catch] that should
    report it reads [config.url].  For every other configuration it
    returns, [true] when the configuration is valid and the request for
    [/users/me] is answered without error, [false] otherwise. *)
Theorem test_connection_throws_on_null {rt : Runtime} {pf : Api.Platform}
    (verboseMode : bool) (fetch : Api.Request -> Api.Answer Api.Response) :
  fst (Api.testYouTrackConnection verboseMode fetch None) = Throw TypeError
  /\ forall c,
       fst (Api.testYouTrackConnection verboseMode fetch (Some c))
       = Normal (Api.valid (Some c)
                 && Api.answered fetch
                      (Api.requestOf "/users/me" c Api.noOptions)).
Proof.
  split; [reflexivity|]. intros c.
  unfold Api.testYouTrackConnection.
  rewrite fst_attempt, fst_next. unfold Api.validate, Api.valid.
  cbn [fst].
  destruct (Api.validateYouTrackConfig (Some c)) eqn:Hv; [|reflexivity].
  destruct (valid_has_url c) as [address Hu];
    [unfold Api.valid; now rewrite Hv|].
  repeat (rewrite fst_next; cbn [fst Api.note]).
  rewrite (fst_make _ _ _ _ _ _ Hu). unfold Api.answered.
  destruct (Api.exchange fetch _); reflexivity.
Qed.

(** X26.  A configuration made by
    [createYouTrackConfigFromEnv] is valid exactly when the four
    variables are set and not empty and [YOUTRACK_URL] is a URL that
    contains [.youtrack.]: the four checks of the required properties in
    [validateYouTrackConfig] can no longer fail on it, only the two of
    the URL. *)
Theorem env_config_is_valid_when {pf : Api.Platform}
    (env : string -> option string) :
  Api.valid (Api.createYouTrackConfigFromEnv env)
  = given (env "YOUTRACK_URL") && given (env "YOUTRACK_API_KEY")
    && given (env "YOUTRACK_PROJECT_MAP") && given (env "YOUTRACK_STAGE")
    && Api.url_parses (Api.shown_as (env "YOUTRACK_URL"))
    && includes ".youtrack." (Api.shown_as (env "YOUTRACK_URL"))
  /\ forall c message,
       Api.createYouTrackConfigFromEnv env = Some c ->
       Api.validateYouTrackConfig (Some c) = Throw (Error message) ->
       message = "Invalid YOUTRACK_URL format: " ++ Api.shown_as (Api.url c)
       \/ message = "YouTrack URL should contain '.youtrack.': "
                    ++ Api.shown_as (Api.url c).
Proof.
  unfold Api.createYouTrackConfigFromEnv.
  cbn [Api.url Api.apiKey Api.projectMap Api.stage].
  destruct (given (env "YOUTRACK_URL")) eqn:H1;
    [|split; [reflexivity|discriminate]].
  destruct (given (env "YOUTRACK_API_KEY")) eqn:H2;
    [|split; [reflexivity|discriminate]].
  destruct (given (env "YOUTRACK_PROJECT_MAP")) eqn:H3;
    [|split; [reflexivity|discriminate]].
  destruct (given (env "YOUTRACK_STAGE")) eqn:H4;
    [|split; [reflexivity|discriminate]].
  cbn [negb orb andb].
  assert (E : Api.validateYouTrackConfig
                (Some {| Api.url := env "YOUTRACK_URL";
                         Api.apiKey := env "YOUTRACK_API_KEY";
                         Api.projectMap := env "YOUTRACK_PROJECT_MAP";
                         Api.stage := env "YOUTRACK_STAGE" |})
              = if negb (Api.url_parses (Api.shown_as (env "YOUTRACK_URL")))
                then Throw (Error ("Invalid YOUTRACK_URL format: "
                                     ++ Api.shown_as (env "YOUTRACK_URL")))
                else if negb (includes ".youtrack."
                                (Api.shown_as (env "YOUTRACK_URL")))
                then Throw (Error ("YouTrack URL should contain '.youtrack.': "
                                     ++ Api.shown_as (env "YOUTRACK_URL")))
                else Normal tt).
  { unfold Api.validateYouTrackConfig.
    cbn [Api.url Api.apiKey Api.projectMap Api.stage].
    now rewrite H1, H2, H3, H4. }
  split.
  - unfold Api.valid. rewrite E.
    destruct (Api.url_parses _); [|reflexivity].
    destruct (includes ".youtrack." _); reflexivity.
  - intros c message Hc. injection Hc as <-. rewrite E.
    cbn [Api.url].
    destruct (Api.url_parses _); cbn [negb].
    + destruct (includes ".youtrack." _); cbn [negb]; [discriminate|].
      intros H. injection H as <-. now right.
    + intros H. injection H as <-. now left.
Qed.

Lemma env_config_is_valid_when_witness :
  "YouTrack URL should contain '.youtrack.': https://tracker.example.org"
  = "Invalid YOUTRACK_URL format: "
      ++ Api.shown_as
           (Api.url {| Api.url := Some "https://tracker.example.org";
                       Api.apiKey := Some "perm:token";
                       Api.projectMap := Some "PAG:acme/web";
                       Api.stage := Some "Ready" |})
  \/ "YouTrack URL should contain '.youtrack.': https://tracker.example.org"
     = "YouTrack URL should contain '.youtrack.': "
         ++ Api.shown_as
              (Api.url {| Api.url := Some "https://tracker.example.org";
                          Api.apiKey := Some "perm:token";
                          Api.projectMap := Some "PAG:acme/web";
                          Api.stage := Some "Ready" |}).
Proof.
  apply (proj2 (env_config_is_valid_when
                  (fun name =>
                     if String.eqb name "YOUTRACK_URL"
                     then Some "https://tracker.example.org"
                     else sampleEnv name))
           {| Api.url := Some "https://tracker.example.org";
              Api.apiKey := Some "perm:token";
              Api.projectMap := Some "PAG:acme/web";
              Api.stage := Some "Ready" |}
           "YouTrack URL should contain '.youtrack.': https://tracker.example.org");
    reflexivity.
Defined.

(** ** The address of an issue *)

Section IssueUrlMore.

Import YouTrack IssueApi.

Lemma id_at_no_slash (s id rest : string) :
  id_at s = Some (id, rest) -> all not_slash id = true.
Proof.
  intros H. destruct (id_at_spec s id rest H) as (_ & p & n & -> & Hw).
  now apply issue_id_no_slash.
Qed.

Lemma directId_slash (a b : string) : directId (a ++ "/" ++ b) = None.
Proof.
  unfold directId.
  destruct (id_at (a ++ "/" ++ b)) as [[id rest]|] eqn:E; [|reflexivity].
  destruct rest; [|reflexivity].
  pose proof (id_at_no_slash _ _ _ E) as Hs.
  destruct (id_at_spec _ _ _ E) as (Es & _).
  rewrite append_empty_r in Es. rewrite <- Es, !all_app in Hs.
  simpl in Hs. rewrite andb_false_r in Hs. discriminate.
Qed.

Lemma starts_with_ci_nil (a : ascii) (l : string) :
  starts_with_ci (String a l) EmptyString = false.
Proof. reflexivity. Qed.

(** Where [/issue] does not match, [/issue/] does not match either,
    whatever is put after the text, as long as that starts with a
    slash. *)
Lemma no_match_before (u rest : string) :
  String.eqb u EmptyString = false ->
  starts_with_ci "/issue" u = false ->
  starts_with_ci "/issue/" (u ++ "/" ++ rest) = false.
Proof.
  intros Hne H.
  assert (Hi : Ascii.eqb (upper_char "i") (upper_char "/") = false)
    by reflexivity.
  assert (Hs : Ascii.eqb (upper_char "s") (upper_char "/") = false)
    by reflexivity.
  assert (Hu : Ascii.eqb (upper_char "u") (upper_char "/") = false)
    by reflexivity.
  assert (He : Ascii.eqb (upper_char "e") (upper_char "/") = false)
    by reflexivity.
  destruct u as [|c1 [|c2 [|c3 [|c4 [|c5 [|c6 u]]]]]]; [discriminate|..];
    cbn [append]; rewrite ?starts_with_ci_cons, ?Hi, ?Hs, ?Hu, ?He;
    rewrite ?andb_false_r; try reflexivity.
  rewrite ?starts_with_ci_cons in H. cbn [starts_with_ci] in H.
  rewrite andb_true_r in H.
  rewrite !andb_assoc in *. rewrite H. reflexivity.
Qed.

Lemma urlId_after (base rest : string) :
  includes_ci "/issue" base = false ->
  urlId (base ++ "/" ++ rest) = urlId ("/" ++ rest).
Proof.
  induction base as [|c b IH]; [reflexivity|]. intros H.
  cbn [includes_ci] in H. apply orb_false_iff in H. destruct H as [H1 H2].
  change (String c b ++ "/" ++ rest) with (String c (b ++ "/" ++ rest)).
  rewrite urlId_cons.
  change (String c (b ++ "/" ++ rest)) with (String c b ++ "/" ++ rest).
  rewrite (no_match_before (String c b) rest eq_refl H1).
  now apply IH.
Qed.

Lemma parse_issue_path (before project number rest : string) :
  includes_ci "/issue" before = false ->
  is_issue_id project number = true ->
  no_digit_next rest = true ->
  parseYouTrackIssueId
    (JStr (before ++ "/issue/" ++ project ++ "-" ++ number ++ rest))
  = Some (toUpperCase (project ++ "-" ++ number)).
Proof.
  intros Hb Hw Hr. set (t := project ++ "-" ++ number ++ rest).
  unfold parseYouTrackIssueId.
  assert (Hne : String.eqb (before ++ "/issue/" ++ t) EmptyString = false)
    by (destruct before; reflexivity).
  rewrite Hne.
  change (before ++ "/issue/" ++ t) with (before ++ "/" ++ ("issue/" ++ t)).
  rewrite directId_slash, (urlId_after before ("issue/" ++ t) Hb).
  change ("/" ++ "issue/" ++ t) with (String "/" ("issue/" ++ t)).
  rewrite urlId_cons.
  change (starts_with_ci "/issue/" (String "/" ("issue/" ++ t))) with true.
  change (skip 7 (String "/" ("issue/" ++ t))) with t.
  unfold t. rewrite id_at_make; [reflexivity|exact Hw|].
  destruct rest as [|c rest]; [exact I|].
  simpl in Hr. now apply negb_true_iff in Hr.
Qed.

Lemma parse_issue_url (base project number : string) :
  includes_ci "/issue" base = false ->
  is_issue_id project number = true ->
  parseYouTrackIssueId (JStr (base ++ "/issue/" ++ project ++ "-" ++ number))
  = Some (toUpperCase (project ++ "-" ++ number)).
Proof.
  intros Hb Hw.
  pose proof (parse_issue_path base project number EmptyString Hb Hw eq_refl)
    as H.
  now rewrite append_empty_r in H.
Qed.

End IssueUrlMore.

Section GetFacts.

Import Api IssueApi.

Context {rt : Runtime} {pf : Platform}.

Lemma get_returns (verboseMode : bool)
    (fetch : Request -> Answer Response) (to_text : json -> string)
    (issueId : string) (config : option Config) :
  exists r,
    fst (getYouTrackIssue verboseMode fetch to_text issueId config) = Normal r
    /\ forall details,
         r = Some details ->
         exists c issue stage,
           config = Some c
           /\ valid config = true
           /\ truthy_opt (or_else (field issue "idReadable") (field issue "id"))
              = true
           /\ details = transform to_text c issue stage.
Proof.
  unfold getYouTrackIssue. rewrite fst_attempt, fst_next.
  unfold validate, valid. cbn [fst].
  destruct config as [c|]; [|exists None; split; [reflexivity|discriminate]].
  destruct (validateYouTrackConfig (Some c)) eqn:Hv;
    [|exists None; split; [reflexivity|discriminate]].
  rewrite fst_next. cbn [fst note]. rewrite fst_next.
  destruct (fst (makeYouTrackRequest verboseMode fetch
                   ("/issues/" ++ issueId ++ fieldsQuery) c noOptions))
    as [issue|e]; [|exists None; split; [reflexivity|discriminate]].
  destruct (negb (truthy issue) || negb (truthy_opt (field issue "id")))
    eqn:Hid; [exists None; split; [reflexivity|discriminate]|].
  rewrite fst_next. cbn [fst].
  destruct (currentStage issue) as [stage|e];
    [|exists None; split; [reflexivity|discriminate]].
  eexists. split; [reflexivity|].
  intros details H. injection H as <-.
  exists c, issue, stage. repeat split.
  apply orb_false_iff in Hid. destruct Hid as [_ Hid].
  apply negb_false_iff in Hid. unfold or_else.
  destruct (truthy_opt (field issue "idReadable")) eqn:Hr; assumption.
Qed.

End GetFacts.

(** X19.  [getYouTrackIssue] never throws: it returns the issue
    or [null].  The issue it returns has an id that is not empty, and
    its [url] is the configured URL, [/issue/] and that id; when the id
    is an issue id and the configured URL contains no [/issue] itself,
    [parseYouTrackIssueId] reads the id back from the [url], in
    capitals. *)
Theorem issue_url_reads_back {rt : Runtime} {pf : Api.Platform}
    (verboseMode : bool) (fetch : Api.Request -> Api.Answer Api.Response)
    (to_text : json -> string) (issueId : string)
    (config : option Api.Config) :
  exists r,
    fst (IssueApi.getYouTrackIssue verboseMode fetch to_text issueId config)
    = Normal r
    /\ forall details,
         r = Some details ->
         truthy_opt (IssueApi.d_id details) = true
         /\ exists c base,
              config = Some c /\ Api.url c = Some base
              /\ IssueApi.d_url details
                 = base ++ "/issue/"
                     ++ IssueApi.shown_id to_text (IssueApi.d_id details)
              /\ forall project number,
                   IssueApi.d_id details = Some (JStr (project ++ "-" ++ number)) ->
                   YouTrack.is_issue_id project number = true ->
                   IssueApi.includes_ci "/issue" base = false ->
                   YouTrack.parseYouTrackIssueId (JStr (IssueApi.d_url details))
                   = Some (YouTrack.toUpperCase (project ++ "-" ++ number)).
Proof.
  destruct (get_returns verboseMode fetch to_text issueId config)
    as (r & E & H).
  exists r. split; [exact E|]. intros details Hd.
  destruct (H details Hd) as (c & issue & stage & -> & Hv & Hid & ->).
  cbn [IssueApi.transform IssueApi.d_id IssueApi.d_url].
  split; [exact Hid|].
  destruct (valid_has_url c Hv) as [base Hu].
  exists c, base. rewrite Hu. cbn [Api.shown_as].
  repeat split. intros project number Ei Hw Hb.
  rewrite Ei. cbn [IssueApi.shown_id]. now apply parse_issue_url.
Qed.

Lemma issue_url_reads_back_witness :
  YouTrack.parseYouTrackIssueId
    (JStr ("https://acme.youtrack.cloud" ++ "/issue/" ++ "pag" ++ "-" ++ "45"))
  = Some (YouTrack.toUpperCase ("pag" ++ "-" ++ "45")).
Proof.
  destruct (issue_url_reads_back false oneIssue Reference.stringify "pag-45"
              (Some sampleConfig)) as (r & E & H).
  vm_compute in E. injection E as E.
  destruct (H _ (eq_sym E)) as (_ & c & base & Hc & Hu & _ & Hp).
  injection Hc as <-. injection Hu as <-.
  apply (Hp "pag" "45"); reflexivity.
Defined.

(** X18.  In [parseYouTrackIssueId] the pattern of an address
    comes before the pattern of an id in a text: when the input holds
    [/issue/] followed by an issue id, and no [/issue] before that, the
    id after [/issue/] is returned, in capitals, whatever stands before
    it, other issue ids included, and whatever follows the number, as
    long as it is not one more digit. *)
Theorem issue_path_wins (before project number rest : string) :
  IssueApi.includes_ci "/issue" before = false ->
  YouTrack.is_issue_id project number = true ->
  YouTrack.no_digit_next rest = true ->
  YouTrack.parseYouTrackIssueId
    (JStr (before ++ "/issue/" ++ project ++ "-" ++ number ++ rest))
  = Some (YouTrack.toUpperCase (project ++ "-" ++ number)).
Proof. apply parse_issue_path. Qed.

Lemma issue_path_wins_witness :
  YouTrack.parseYouTrackIssueId
    (JStr ("DEV-7 is tracked at https://acme.youtrack.cloud" ++ "/issue/"
             ++ "pag" ++ "-" ++ "45" ++ "?tab=comments"))
  = Some (YouTrack.toUpperCase ("pag" ++ "-" ++ "45")).
Proof.
  apply (issue_path_wins "DEV-7 is tracked at https://acme.youtrack.cloud"
           "pag" "45" "?tab=comments"); reflexivity.
Defined.

